(** * dolfin::la::SparsityPattern, a shallow embedding

    The development follows [cpp/dolfin/la/SparsityPattern.cpp]: the
    distributed sparsity-pattern builder.  Each C++ member function is a
    definition of the same name.  Mutating members are computations in a
    state-and-failure monad over the pattern object, so that the state a
    member leaves behind when it throws is part of its meaning.

    Conventions.
    - [std::size_t] is 64 bits wide.  A conversion of a signed index to
      [std::size_t], and an unsigned subtraction, is written [to_size_t];
      a store into an [EigenArrayXi32] is written [to_int32].
    - [la_index_t] is [int], 32 bits wide: line 197 hands it to the
      [std::div] of [int].  A value converted to [la_index_t] (a size, a
      bound of an index range, the value a row or column map returns, a
      received value) is written as the value itself: it is taken to fit.
      The properties that depend on which block holds a column state
      this as a hypothesis.
    - The block size of an index map is positive; [std::div] by it is
      [Z.quot] and [Z.rem].
    - Sizes of containers and of index maps, their sums and products, are
      taken to fit [std::size_t].
    - A failed [assert], and an access outside a [std::vector] or Eigen
      array, is the outcome [Abort]; a C++ exception is [Throw].
    - Logging ([info_statistics], [str]) has no effect on the pattern and
      is left out. *)

From stdpp Require Import base tactics option list sorting strings pretty.
From Stdlib Require Import ZArith Lia.

Local Open Scope Z_scope.

(** ** Machine integers *)

Definition to_size_t (z : Z) : Z := z `mod` 2 ^ 64.

Definition to_int32 (z : Z) : Z := (z + 2 ^ 31) `mod` 2 ^ 32 - 2 ^ 31.

(** ** Outcomes and the state monad of a member function *)

Inductive outcome (A : Type) : Type :=
  | Ok (a : A)
  | Throw (what : string)
  | Abort.

Arguments Ok {A} a.
Arguments Throw {A} what.
Arguments Abort {A}.

Definition M (S A : Type) : Type := S → outcome A * S.

Global Instance M_ret {S} : MRet (M S) := λ A a s, (Ok a, s).

Global Instance M_bind {S} : MBind (M S) := λ A B f m s,
  match m s with
  | (Ok a, s') => f a s'
  | (Throw w, s') => (Throw w, s')
  | (Abort, s') => (Abort, s')
  end.

Definition get {S} : M S S := λ s, (Ok s, s).
Definition modify {S} (f : S → S) : M S unit := λ s, (Ok tt, f s).
Definition throw {S A} (what : string) : M S A := λ s, (Throw what, s).
Definition abort {S A} : M S A := λ s, (Abort, s).
Definition assert {S} (b : bool) : M S unit := if b then mret tt else abort.
Definition lift {S A} (o : outcome A) : M S A := λ s, (o, s).

(** The state a computation ends in, when it ends normally. *)
Definition exec {S} (m : M S unit) (s : S) : outcome S :=
  match m s with
  | (Ok _, s') => Ok s'
  | (Throw w, _) => Throw w
  | (Abort, _) => Abort
  end.

(** [for (x : xs) body(x)] *)
Fixpoint for_each {S A} (body : A → M S unit) (xs : list A) : M S unit :=
  match xs with
  | [] => mret tt
  | x :: xs' => body x ;; for_each body xs'
  end.

(** [for (i = i0; i < i0 + xs.size(); ++i) body(i, xs[i - i0])] *)
Fixpoint for_index {S A} (body : Z → A → M S unit) (i0 : Z) (xs : list A)
  : M S unit :=
  match xs with
  | [] => mret tt
  | x :: xs' => body i0 x ;; for_index body (i0 + 1) xs'
  end.

(** ** dolfin::Set *)

(** Modelled from the spec: [dolfin/common/Set.h] is not part of the
    sources at hand.  The spec describes the per-row column sets as
    ordered-unique collections with unique-membership insert; the model
    is a vector without repetition that keeps insertion order. *)
Module DSet.
Abbreviation t := (list Z).

Definition find (x : Z) (s : t) : bool := bool_decide (x ∈ s).

Definition insert (x : Z) (s : t) : t :=
  if find x s then s else s ++ [x].

(** [insert(first, last)] *)
Definition insert_range (xs : list Z) (s : t) : t :=
  foldl (λ s x, insert x s) s xs.

Definition size (s : t) : Z := Z.of_nat (length s).
End DSet.

(** ** common::IndexMap *)

(** The class is an external collaborator ([dolfin/common/IndexMap.h]);
    the record holds what the pattern reads from it.  Ranges and sizes
    are in node units. *)
Module IndexMap.
Inductive MapSize := OWNED | ALL | GLOBAL.

Record t : Type := mk {
  block_size : Z;
  local_range : Z * Z;
  size_owned : Z;
  size_all : Z;
  size_global : Z;
  ghosts : list Z;
  ghost_owners : list Z;
  local_to_global : Z → Z
}.

Definition size (m : t) (k : MapSize) : Z :=
  match k with
  | OWNED => size_owned m
  | ALL => size_all m
  | GLOBAL => size_global m
  end.
End IndexMap.

(** ** The pattern object *)

(** What the pattern reads from its communicator. *)
Module MPI.
Record Comm : Type := mk { size : Z; rank : Z }.
End MPI.

Record SparsityPattern : Type := mkSP {
  _mpi_comm : MPI.Comm;
  _index_maps : IndexMap.t * IndexMap.t;
  _diagonal : list DSet.t;
  _off_diagonal : list DSet.t;
  _non_local : list Z;
  _full_rows : DSet.t
}.

Definition set_diagonal (f : list DSet.t → list DSet.t) (s : SparsityPattern) :=
  mkSP (_mpi_comm s) (_index_maps s) (f (_diagonal s)) (_off_diagonal s)
       (_non_local s) (_full_rows s).

Definition set_off_diagonal (f : list DSet.t → list DSet.t) (s : SparsityPattern) :=
  mkSP (_mpi_comm s) (_index_maps s) (_diagonal s) (f (_off_diagonal s))
       (_non_local s) (_full_rows s).

Definition set_non_local (f : list Z → list Z) (s : SparsityPattern) :=
  mkSP (_mpi_comm s) (_index_maps s) (_diagonal s) (_off_diagonal s)
       (f (_non_local s)) (_full_rows s).

Definition set_full_rows (f : DSet.t → DSet.t) (s : SparsityPattern) :=
  mkSP (_mpi_comm s) (_index_maps s) (_diagonal s) (_off_diagonal s)
       (_non_local s) (f (_full_rows s)).

Definition set_index_maps (ms : IndexMap.t * IndexMap.t) (s : SparsityPattern) :=
  mkSP (_mpi_comm s) ms (_diagonal s) (_off_diagonal s)
       (_non_local s) (_full_rows s).

Abbreviation SP := (M SparsityPattern).

(** [v.size()] *)
Definition vsize {A} (v : list A) : Z := Z.of_nat (length v).

(** An index is inside a vector. *)
Definition inside {A} (i : Z) (v : list A) : bool :=
  bool_decide (0 ≤ i < vsize v).

(** [v[i].insert(x)] on a vector of sets, for [i] inside. *)
Definition row_insert (i x : Z) (v : list DSet.t) : list DSet.t :=
  alter (DSet.insert x) (Z.to_nat i) v.

(** [_diagonal[i].insert(first, last)] *)
Definition diagonal_insert_range (i : Z) (xs : list Z) : SP unit := λ s,
  if inside i (_diagonal s)
  then (Ok tt, set_diagonal (alter (DSet.insert_range xs) (Z.to_nat i)) s)
  else (Abort, s).

(** [_diagonal[i].insert(x)] *)
Definition diagonal_insert (i x : Z) : SP unit := λ s,
  if inside i (_diagonal s)
  then (Ok tt, set_diagonal (row_insert i x) s)
  else (Abort, s).

(** [_off_diagonal[i].insert(x)] *)
Definition off_diagonal_insert (i x : Z) : SP unit := λ s,
  if inside i (_off_diagonal s)
  then (Ok tt, set_off_diagonal (row_insert i x) s)
  else (Abort, s).

(** [v.resize(v.size() + n)] with empty sets. *)
Definition resize_by (n : Z) (v : list DSet.t) : list DSet.t :=
  v ++ replicate (Z.to_nat n) [].

(** The constructor from a communicator and a pair of index maps. *)
Definition SparsityPattern_new (comm : MPI.Comm)
    (index_maps : IndexMap.t * IndexMap.t) : SparsityPattern :=
  let local_size0 :=
    IndexMap.block_size index_maps.1
    * IndexMap.size index_maps.1 IndexMap.OWNED in
  mkSP comm index_maps
       (resize_by local_size0 []) (resize_by local_size0 []) [] [].

(** ** Insertion *)

(** The type of the [row_map] and [col_map] closures.  They read the
    index map only; the one in [insert_global] carries an [assert]. *)
Definition index_fn : Type := Z → IndexMap.t → outcome Z.

(** The body of the sequential loop of [insert_entries], at loop counter
    [i] and row [i_index]; [s0] is the pattern on entry. *)
Definition insert_row_sequential (s0 : SparsityPattern) (map_j : list Z)
    (i i_index : Z) : SP unit :=
  let has_full_rows := bool_decide (0 < DSet.size (_full_rows s0)) in
  s ← get;
  assert (bool_decide (i_index < vsize (_diagonal s)));;
  if negb has_full_rows || negb (DSet.find i (_full_rows s0)) then
    diagonal_insert_range i_index (to_size_t <$> map_j)
  else mret tt.

(** Store local entry in diagonal or off-diagonal block.  The column
    [J] and the bounds it is compared with are [la_index_t] in the
    source (lines 291-293); they are written as their values. *)
Definition insert_local_entry (s0 : SparsityPattern) (col_map : index_fn)
    (I j_index : Z) : SP unit :=
  let index_map1 := (_index_maps s0).2 in
  let bs1 := IndexMap.block_size index_map1 in
  let local_range1 := IndexMap.local_range index_map1 in
  J ← lift (col_map j_index index_map1);
  if bool_decide (bs1 * local_range1.1 ≤ J)
     && bool_decide (J < bs1 * local_range1.2)
  then
    s ← get;
    assert (bool_decide (I < vsize (_diagonal s)));;
    diagonal_insert I (to_size_t J)
  else
    s ← get;
    assert (bool_decide (I < vsize (_off_diagonal s)));;
    off_diagonal_insert I (to_size_t J).

(** Store non-local entry (communicated later during apply()). *)
Definition insert_non_local_entry (s0 : SparsityPattern) (col_map : index_fn)
    (I j_index : Z) : SP unit :=
  let index_map1 := (_index_maps s0).2 in
  J ← lift (col_map j_index index_map1);
  modify (set_non_local (λ b, b ++ [to_size_t I]));;
  modify (set_non_local (λ b, b ++ [to_size_t J])).

(** The body of the parallel loop of [insert_entries] at row [i_index]. *)
Definition insert_row_parallel (s0 : SparsityPattern) (map_j : list Z)
    (row_map col_map : index_fn) (i_index : Z) : SP unit :=
  let index_map0 := (_index_maps s0).1 in
  let bs0 := IndexMap.block_size index_map0 in
  let local_size0 := bs0 * IndexMap.size index_map0 IndexMap.OWNED in
  let has_full_rows := bool_decide (0 < DSet.size (_full_rows s0)) in
  I ← lift (row_map i_index index_map0);
  (* Full rows are stored separately *)
  if has_full_rows && DSet.find (to_size_t I) (_full_rows s0) then
    mret tt
  else if bool_decide (I < local_size0) then
    for_each (insert_local_entry s0 col_map I) map_j
  else
    for_each (insert_non_local_entry s0 col_map I) map_j.

Definition insert_entries (rows cols : list Z) (row_map col_map : index_fn)
  : SP unit :=
  s0 ← get;
  let map_i := rows in
  let map_j := cols in
  if bool_decide (MPI.size (_mpi_comm s0) = 1) then
    (* Sequential mode, do simple insertion if not full row *)
    for_index (insert_row_sequential s0 map_j) 0 map_i
  else
    (* Parallel mode, use either diagonal, off_diagonal, non_local or
       full_rows *)
    for_each (insert_row_parallel s0 map_j row_map col_map) map_i.

Definition insert_global (rows cols : list Z) : SP unit :=
  let row_map : index_fn := λ i_index index_map0,
    let bs := IndexMap.block_size index_map0 in
    if bool_decide (bs * (IndexMap.local_range index_map0).1 ≤ to_size_t i_index)
       && bool_decide (to_size_t i_index < bs * (IndexMap.local_range index_map0).2)
    then Ok (i_index - bs * (IndexMap.local_range index_map0).1)
    else Abort in
  let col_map : index_fn := λ j_index index_map1, Ok j_index in
  insert_entries rows cols row_map col_map.

(** The column map of [insert_local] divides by the block size of the
    column index map, which is positive, and returns the sum as an
    [la_index_t], written as its value. *)
Definition insert_local (rows cols : list Z) : SP unit :=
  let row_map : index_fn := λ i_index index_map0, Ok i_index in
  let col_map : index_fn := λ j_index index_map1,
    let component := Z.rem j_index (IndexMap.block_size index_map1) in
    let index := Z.quot j_index (IndexMap.block_size index_map1) in
    Ok (IndexMap.local_to_global index_map1 index + component) in
  insert_entries rows cols row_map col_map.

Definition insert_local_global (rows cols : list Z) : SP unit :=
  let row_map : index_fn := λ i_index index_map0, Ok i_index in
  let col_map : index_fn := λ j_index index_map1, Ok j_index in
  insert_entries rows cols row_map col_map.

Definition insert_full_rows_local (rows : list Z) : SP unit :=
  s0 ← get;
  let bs0 := IndexMap.block_size (_index_maps s0).1 in
  let ghosted_size0 := bs0 * IndexMap.size (_index_maps s0).1 IndexMap.ALL in
  for_each (λ r,
    assert (bool_decide (r < ghosted_size0));;
    modify (set_full_rows (DSet.insert r))) rows.

(** ** Reporting *)

(** [local_range(dim)]: the owned range of dimension [dim] in element
    units.  The argument is a [std::size_t]. *)
Definition local_range (dim : Z) (s : SparsityPattern) : outcome (Z * Z) :=
  if bool_decide (dim < 2) then
    let m := if bool_decide (dim = 0) then (_index_maps s).1
             else (_index_maps s).2 in
    let bs := IndexMap.block_size m in
    let lrange := IndexMap.local_range m in
    Ok (bs * lrange.1, bs * lrange.2)
  else Abort.

(** [index_map(dim)] *)
Definition index_map (dim : Z) (s : SparsityPattern) : outcome IndexMap.t :=
  if bool_decide (dim < 2) then
    Ok (if bool_decide (dim = 0) then (_index_maps s).1
        else (_index_maps s).2)
  else Abort.

Definition num_nonzeros (s : SparsityPattern) : Z :=
  let nz := 0 in
  (* Contribution from diagonal and off-diagonal *)
  let nz := foldl (λ nz slice, nz + DSet.size slice) nz (_diagonal s) in
  let nz := foldl (λ nz slice, nz + DSet.size slice) nz (_off_diagonal s) in
  (* Contribution from full rows *)
  let bs0 := IndexMap.block_size (_index_maps s).1 in
  let local_size0 := bs0 * IndexMap.size (_index_maps s).1 IndexMap.OWNED in
  let bs1 := IndexMap.block_size (_index_maps s).2 in
  let ncols := bs1 * IndexMap.size (_index_maps s).2 IndexMap.GLOBAL in
  foldl (λ nz full_row,
           if bool_decide (full_row < local_size0) then nz + ncols else nz)
        nz (_full_rows s).

(** [a[i] = x] on an Eigen array of 32-bit integers. *)
Definition assign (i x : Z) : M (list Z) unit := λ a,
  if inside i a then (Ok tt, <[Z.to_nat i := to_int32 x]> a) else (Abort, a).

Definition num_nonzeros_diagonal (s : SparsityPattern) : outcome (list Z) :=
  let num_nonzeros := (λ slice, to_int32 (DSet.size slice)) <$> _diagonal s in
  (* Get number of nonzeros per full row *)
  if bool_decide (0 < DSet.size (_full_rows s)) then
    let bs0 := IndexMap.block_size (_index_maps s).1 in
    let local_size0 := bs0 * IndexMap.size (_index_maps s).1 IndexMap.OWNED in
    let bs1 := IndexMap.block_size (_index_maps s).2 in
    let ncols := bs1 * IndexMap.size (_index_maps s).2 IndexMap.OWNED in
    exec (for_each (λ row,
            if bool_decide (row < local_size0) then assign row ncols
            else mret tt) (_full_rows s)) num_nonzeros
  else Ok num_nonzeros.

Definition num_nonzeros_off_diagonal (s : SparsityPattern) : outcome (list Z) :=
  (* Return if there is no off-diagonal *)
  if bool_decide (_off_diagonal s = []) then Ok []
  else
    let num_nonzeros :=
      (λ slice, to_int32 (DSet.size slice)) <$> _off_diagonal s in
    if bool_decide (0 < DSet.size (_full_rows s)) then
      let bs0 := IndexMap.block_size (_index_maps s).1 in
      let local_size0 := bs0 * IndexMap.size (_index_maps s).1 IndexMap.OWNED in
      let bs1 := IndexMap.block_size (_index_maps s).2 in
      let ncols := bs1 * IndexMap.size (_index_maps s).2 IndexMap.GLOBAL
                   - bs1 * IndexMap.size (_index_maps s).2 IndexMap.OWNED in
      exec (for_each (λ row,
              if bool_decide (row < local_size0) then assign row ncols
              else mret tt) (_full_rows s)) num_nonzeros
    else Ok num_nonzeros.

(** [a += b] on Eigen arrays of 32-bit integers: the arrays have the
    same size, and a sum that leaves the 32-bit range is undefined. *)
Definition array_add (a b : list Z) : outcome (list Z) :=
  if bool_decide (length a = length b)
     && forallb (λ x, bool_decide (to_int32 x = x)) (zip_with Z.add a b)
  then Ok (zip_with Z.add a b)
  else Abort.

Definition num_local_nonzeros (s : SparsityPattern) : outcome (list Z) :=
  match num_nonzeros_diagonal s with
  | Ok num_nonzeros =>
      if negb (bool_decide (_off_diagonal s = [])) then
        match num_nonzeros_off_diagonal s with
        | Ok num_nonzeros_off_diag =>
            array_add num_nonzeros num_nonzeros_off_diag
        | Throw w => Throw w
        | Abort => Abort
        end
      else Ok num_nonzeros
  | Throw w => Throw w
  | Abort => Abort
  end.

(** [SparsityPattern::Type] *)
Inductive PatternType := sorted | unsorted.

(** [v[row].push_back(J)] for every [J] of [Js], after
    [assert(v[row].size() == 0)]. *)
Definition fill_row (row : Z) (Js : list Z) : M (list (list Z)) unit := λ v,
  match v !! Z.to_nat row with
  | Some r =>
      if bool_decide (0 ≤ row) && bool_decide (r = [])
      then (Ok tt, <[Z.to_nat row := r ++ Js]> v)
      else (Abort, v)
  | None => (Abort, v)
  end.

Definition diagonal_pattern (type : PatternType) (s : SparsityPattern)
  : outcome (list (list Z)) :=
  let v := _diagonal s in
  let v := match type with
           | sorted => merge_sort Z.le <$> v
           | unsorted => v
           end in
  if bool_decide (0 < DSet.size (_full_rows s)) then
    let bs0 := IndexMap.block_size (_index_maps s).1 in
    let local_size0 := bs0 * IndexMap.size (_index_maps s).1 IndexMap.OWNED in
    let bs1 := IndexMap.block_size (_index_maps s).2 in
    let range1 := IndexMap.local_range (_index_maps s).2 in
    exec (for_each (λ row,
            if bool_decide (local_size0 ≤ row) then mret tt
            else fill_row row (seqZ (bs1 * range1.1)
                                    (bs1 * range1.2 - bs1 * range1.1)))
          (_full_rows s)) v
  else Ok v.

Definition off_diagonal_pattern (type : PatternType) (s : SparsityPattern)
  : outcome (list (list Z)) :=
  let v := _off_diagonal s in
  let v := match type with
           | sorted => merge_sort Z.le <$> v
           | unsorted => v
           end in
  if bool_decide (0 < DSet.size (_full_rows s)) then
    let bs0 := IndexMap.block_size (_index_maps s).1 in
    let local_size0 := bs0 * IndexMap.size (_index_maps s).1 IndexMap.OWNED in
    let bs1 := IndexMap.block_size (_index_maps s).2 in
    let range1 := IndexMap.local_range (_index_maps s).2 in
    let N1 := bs1 * IndexMap.size (_index_maps s).2 IndexMap.GLOBAL in
    exec (for_each (λ row,
            if bool_decide (local_size0 ≤ row) then mret tt
            else fill_row row (seqZ 0 (bs1 * range1.1)
                               ++ seqZ (bs1 * range1.2) (N1 - bs1 * range1.2)))
          (_full_rows s)) v
  else Ok v.

(** ** Finalisation *)

(** [non_local_send[p].push_back(x)] *)
Definition send_push (p x : Z) : M (list (list Z)) unit := λ b,
  if inside p b then (Ok tt, alter (λ q, q ++ [x]) (Z.to_nat p) b)
  else (Abort, b).

(** [a[i]] on an Eigen array. *)
Definition at_ {S} (a : list Z) (i : Z) : M S Z := λ s,
  match a !! Z.to_nat i with
  | Some x => if bool_decide (0 ≤ i) then (Ok x, s) else (Abort, s)
  | None => (Abort, s)
  end.

(** The body of the loop of [apply] that resolves a buffered pair
    ([i_index], [J]) to the process that owns its row; the state is
    [non_local_send]. *)
Definition resolve_entry (s : SparsityPattern) (i_index J : Z)
  : M (list (list Z)) unit :=
  let bs0 := IndexMap.block_size (_index_maps s).1 in
  let local_range0 := IndexMap.local_range (_index_maps s).1 in
  let local_size0 := bs0 * IndexMap.size (_index_maps s).1 IndexMap.OWNED in
  let offset0 := bs0 * local_range0.1 in
  let num_processes := MPI.size (_mpi_comm s) in
  let proc_number := MPI.rank (_mpi_comm s) in
  let off_process_owner := IndexMap.ghost_owners (_index_maps s).1 in
  let local_to_global := IndexMap.ghosts (_index_maps s).1 in
  let dim_block_size := IndexMap.block_size (_index_maps s).1 in
  (* Figure out which process owns the row *)
  assert (bool_decide (local_size0 ≤ i_index));;
  assert (bool_decide (dim_block_size ≠ 0));;
  let i_offset :=
    to_int32 (to_size_t (i_index - local_size0) `div` dim_block_size) in
  assert (bool_decide (i_offset < vsize off_process_owner));;
  p0 ← at_ off_process_owner i_offset;
  let p := to_size_t p0 in
  assert (bool_decide (p < num_processes));;
  assert (bool_decide (p ≠ proc_number));;
  (* Get global I index *)
  I ← (if bool_decide (i_index < local_size0) then mret (i_index + offset0)
       else
         let tmp := to_size_t (i_index - local_size0) in
         let i_node := Z.quot (to_int32 tmp) (to_int32 dim_block_size) in
         let i_component := Z.rem (to_int32 tmp) (to_int32 dim_block_size) in
         I_node ← at_ local_to_global i_node;
         mret (dim_block_size * I_node + i_component));
  (* Buffer local/global index pair to send *)
  send_push p (to_size_t I);;
  send_push p J.

(** The loop over the non-local buffer. *)
Fixpoint resolve_non_local (s : SparsityPattern) (buf : list Z)
  : M (list (list Z)) unit :=
  match buf with
  | [] => mret tt
  | [_] => abort
  | i_index :: J :: rest =>
      resolve_entry s i_index J;; resolve_non_local s rest
  end.

(** The value of [non_local_send] when the loop is over. *)
Definition non_local_send (s : SparsityPattern) : outcome (list (list Z)) :=
  exec (resolve_non_local s (_non_local s))
       (replicate (Z.to_nat (MPI.size (_mpi_comm s))) []).

Definition illegal_entry (I : Z) (local_range0 : Z * Z) : string :=
  "Received illegal sparsity pattern entry for row/column "
  +:+ pretty I +:+ ", not in range [" +:+ pretty local_range0.1 +:+ ", "
  +:+ pretty local_range0.2 +:+ "]".

(** The body of the loop of [apply] over the received pairs: the global
    row [I] and column [J].  The source takes both as [la_index_t]
    (lines 529-530) and converts the upper bound of the rows (line 533)
    and the bounds of the columns (lines 546-547) to it; they are
    written as their values. *)
Definition insert_received_entry (I J : Z) : SP unit :=
  s ← get;
  let bs0 := IndexMap.block_size (_index_maps s).1 in
  let bs1 := IndexMap.block_size (_index_maps s).2 in
  let local_range0 := IndexMap.local_range (_index_maps s).1 in
  let local_range1 := IndexMap.local_range (_index_maps s).2 in
  let offset0 := bs0 * local_range0.1 in
  (* Sanity check *)
  (if bool_decide (I < local_range0.1)
      || bool_decide (bs0 * local_range0.2 ≤ I)
   then throw (illegal_entry I local_range0)
   else mret tt);;
  (* Get local I index *)
  let i_index := to_size_t (I - offset0) in
  (* Insert in diagonal or off-diagonal block *)
  if bool_decide (bs1 * local_range1.1 ≤ J)
     && bool_decide (J < bs1 * local_range1.2)
  then
    assert (bool_decide (i_index < vsize (_diagonal s)));;
    diagonal_insert i_index (to_size_t J)
  else
    assert (bool_decide (i_index < vsize (_off_diagonal s)));;
    off_diagonal_insert i_index (to_size_t J).

(** The loop of [apply] that inserts the received pairs. *)
Fixpoint insert_received (non_local_received : list Z) : SP unit :=
  match non_local_received with
  | [] => mret tt
  | [_] => abort
  | r :: J :: rest => insert_received_entry r J;; insert_received rest
  end.

(** [apply].  What [MPI::all_to_all] hands back depends on the other
    processes; it is the argument [all_to_all], from this process's
    outgoing buffers to its aggregated inbound buffer. *)
Definition apply (all_to_all : list (list Z) → list Z) : SP unit :=
  s0 ← get;
  (* Communicate non-local blocks if any *)
  (if bool_decide (1 < MPI.size (_mpi_comm s0)) then
     assert (bool_decide (vsize (_non_local s0) `mod` 2 = 0));;
     non_local_send ← lift (non_local_send s0);
     let non_local_received := all_to_all non_local_send in
     assert (bool_decide (vsize non_local_received `mod` 2 = 0));;
     insert_received non_local_received
   else mret tt);;
  (* Clear non-local entries *)
  modify (set_non_local (λ _, [])).

(** *** The collective step *)

(** Modelled from the spec: [MPI::all_to_all] ([dolfin/common/MPI.h])
    is not part of the sources at hand.  The spec describes it as a
    variable-length all-to-all exchange that takes one outgoing buffer per
    destination rank and returns one aggregated inbound buffer; process
    [q] receives, in the order of the source ranks, what each process
    addressed to [q]. *)
Definition all_to_all (sent : list (list (list Z))) (q : nat) : list Z :=
  mjoin ((λ out, out !!! q) <$> sent).

(** What a process hands to the exchange. *)
Definition outgoing (s : SparsityPattern) : list (list Z) :=
  if bool_decide (1 < MPI.size (_mpi_comm s)) then
    match non_local_send s with Ok out => out | _ => [] end
  else [].

(** Every process of the communicator calls [apply]; the list holds the
    processes in rank order. *)
Definition apply_all (procs : list SparsityPattern)
  : list (outcome unit * SparsityPattern) :=
  let sent := outgoing <$> procs in
  imap (λ q s, apply (λ _, all_to_all sent q) s) procs.

(** ** The block composer *)

(** [v[i]] on a [std::vector]. *)
Definition vat {S A} (v : list A) (i : Z) : M S A := λ s,
  match v !! Z.to_nat i with
  | Some x => if bool_decide (0 ≤ i) then (Ok x, s) else (Abort, s)
  | None => (Abort, s)
  end.

(** The object under construction before its index maps are set: empty
    vectors, and a placeholder for the two null pointers. *)
Definition null_index_map : IndexMap.t :=
  IndexMap.mk 0 (0, 0) 0 0 0 [] [] (λ _, 0).

Definition under_construction (comm : MPI.Comm) : SparsityPattern :=
  mkSP comm (null_index_map, null_index_map) [] [] [] [].

Definition not_finalised : string :=
  "Sub-sparsity pattern has not been finalised (apply needs to be called)".

Section merge.
(** [fem::get_global_index(cmaps, col, c)] and the constructor
    [common::IndexMap(comm, local_size, ghosts, block_size)] are
    declared outside this file. *)
Variable get_global_index : list IndexMap.t → Z → Z → Z.
Variable IndexMap_new : MPI.Comm → Z → list Z → Z → IndexMap.t.

(** The first loop: the summed local row sizes, over block rows. *)
Fixpoint row_sizes (patterns : list (list SparsityPattern))
    (row_global_offset row_local_size : Z) : SP (Z * Z) :=
  match patterns with
  | [] => mret (row_global_offset, row_local_size)
  | prow :: rest =>
      p ← vat prow 0;
      let local_range := IndexMap.local_range (_index_maps p).1 in
      row_sizes rest (row_global_offset + local_range.1)
                (row_local_size + (local_range.2 - local_range.1))
  end.

(** The second loop: the column maps and summed local column sizes,
    over the block columns of the first block row. *)
Fixpoint col_sizes (prow : list SparsityPattern)
    (cmaps : list IndexMap.t) (col_process_offset col_local_size : Z)
  : list IndexMap.t * Z * Z :=
  match prow with
  | [] => (cmaps, col_process_offset, col_local_size)
  | p :: rest =>
      let local_range := IndexMap.local_range (_index_maps p).2 in
      col_sizes rest (cmaps ++ [(_index_maps p).2])
                (col_process_offset + local_range.1)
                (col_local_size + (local_range.2 - local_range.1))
  end.

(** The body of the loop over the block columns of a block row. *)
Definition merge_block (distributed : bool) (cmaps : list IndexMap.t)
    (row_local_offset : Z) (col : Z) (p : SparsityPattern) : SP unit :=
  (if bool_decide (_non_local p ≠ []) then throw not_finalised
   else mret tt);;
  for_index (λ k edges0,
    (* Diagonal block *)
    for_each (λ c,
      let c_new := get_global_index cmaps col c in
      diagonal_insert (k + row_local_offset) c_new) edges0;;
    (* Off-diagonal block *)
    if distributed then
      edges1 ← vat (_off_diagonal p) k;
      for_each (λ c,
        let c_new := get_global_index cmaps col c in
        off_diagonal_insert (k + row_local_offset) c_new) edges1
    else mret tt) 0 (_diagonal p).

(** The loop over block rows. *)
Fixpoint merge_rows (distributed : bool) (cmaps : list IndexMap.t)
    (row_local_offset : Z) (patterns : list (list SparsityPattern))
  : SP unit :=
  match patterns with
  | [] => mret tt
  | prow :: rest =>
      (* Increase storage for nodes *)
      p0 ← vat prow 0;
      let row_size := IndexMap.size (_index_maps p0).1 IndexMap.OWNED in
      assert (bool_decide (row_size = vsize (_diagonal p0)));;
      modify (set_diagonal (resize_by row_size));;
      (if distributed then
         assert (bool_decide (row_size = vsize (_off_diagonal p0)));;
         modify (set_off_diagonal (resize_by row_size))
       else mret tt);;
      (* Iterate over block columns of current block row *)
      for_index (merge_block distributed cmaps row_local_offset) 0 prow;;
      (* Increment local row offset *)
      merge_rows distributed cmaps (row_local_offset + row_size) rest
  end.

(** The body of the merge constructor, run on the object under
    construction. *)
Definition merge_body (comm : MPI.Comm)
    (patterns : list (list SparsityPattern)) : SP unit :=
  let distributed := bool_decide (1 < MPI.size comm) in
  '(row_global_offset, row_local_size) ← row_sizes patterns 0 0;
  prow0 ← vat patterns 0;
  let '(cmaps, col_process_offset, col_local_size) :=
    col_sizes prow0 [] 0 0 in
  (* Iterate over block rows *)
  merge_rows distributed cmaps 0 patterns;;
  (* Initialise common::IndexMaps for merged pattern *)
  p00 ← vat prow0 0;
  let ghosts : list Z := [] in
  modify (set_index_maps
            (IndexMap_new (_mpi_comm p00) row_local_size ghosts 1,
             IndexMap_new (_mpi_comm p00) col_local_size ghosts 1)).

(** The merge constructor: the outcome, and the object as the body
    leaves it. *)
Definition SparsityPattern_merge (comm : MPI.Comm)
    (patterns : list (list SparsityPattern))
  : outcome unit * SparsityPattern :=
  merge_body comm patterns (under_construction comm).
End merge.

(** Modelled from the spec: [fem::get_global_index] ([dolfin/fem/utils.h])
    is not part of the sources at hand.  The spec has the block composer
    re-base a column index of block column [col] by the cumulative column
    block-offset, resolved through the column index maps; on a single
    process that offset is the number of column elements of the block
    columns before [col]. *)
Definition get_global_index_serial (cmaps : list IndexMap.t) (col c : Z) : Z :=
  c + foldl (λ off m, off + IndexMap.block_size m
                             * IndexMap.size m IndexMap.OWNED)
            0 (take (Z.to_nat col) cmaps).

(** Modelled from the spec: the constructor of [common::IndexMap]
    ([dolfin/common/IndexMap.h]) is not part of the sources at hand.  The
    spec has it take the communication context, the local owned size, the
    ghost list and the block size; on a single process the owned range is
    the whole index space. *)
Definition IndexMap_new_serial (comm : MPI.Comm) (local_size : Z)
    (ghosts : list Z) (block_size : Z) : IndexMap.t :=
  IndexMap.mk block_size (0, local_size) local_size
              (local_size + vsize ghosts) local_size ghosts []
              (λ i, if bool_decide (i < local_size) then i
                    else ghosts !!! Z.to_nat (i - local_size)).

(** * Scenarios and specification-side definitions *)

(** An index map of a single process that owns [n] nodes of block size
    [bs]. *)
Definition serial_map (bs n : Z) : IndexMap.t :=
  IndexMap.mk bs (0, n) n n n [] [] (λ i, i).

(** A fresh pattern on one process. *)
Definition serial_pattern (m n : Z) : SparsityPattern :=
  SparsityPattern_new (MPI.mk 1 0) (serial_map 1 m, serial_map 1 n).

(** Two processes that own the nodes [0,2) and [2,4) of a space of four
    nodes of block size one; process 0 sees node 3, owned by process 1,
    as its ghost (local index 2). *)
Definition map_rank0 : IndexMap.t :=
  IndexMap.mk 1 (0, 2) 2 3 4 [3] [1]
              (λ i, if bool_decide (i < 2) then i else 3).

Definition map_rank1 : IndexMap.t :=
  IndexMap.mk 1 (2, 4) 2 2 4 [] [] (λ i, 2 + i).

Definition pattern_rank0 : SparsityPattern :=
  SparsityPattern_new (MPI.mk 2 0) (map_rank0, map_rank0).

Definition pattern_rank1 : SparsityPattern :=
  SparsityPattern_new (MPI.mk 2 1) (map_rank1, map_rank1).

(** The second of two processes, owning node 1 of two nodes of block
    size two: its rows are the elements [2,4). *)
Definition map_blocked : IndexMap.t :=
  IndexMap.mk 2 (1, 2) 1 1 2 [] [] (λ i, 1 + i).

Definition pattern_blocked : SparsityPattern :=
  SparsityPattern_new (MPI.mk 2 1) (map_blocked, map_blocked).

(** The owned row element range [block_size0 * range_start,
    block_size0 * range_end) of a pattern. *)
Definition owns_row (s : SparsityPattern) (I : Z) : Prop :=
  let m := (_index_maps s).1 in
  IndexMap.block_size m * (IndexMap.local_range m).1 ≤ I
  < IndexMap.block_size m * (IndexMap.local_range m).2.

(** The owned column element range. *)
Definition owns_col (s : SparsityPattern) (J : Z) : Prop :=
  let m := (_index_maps s).2 in
  IndexMap.block_size m * (IndexMap.local_range m).1 ≤ J
  < IndexMap.block_size m * (IndexMap.local_range m).2.

(** The sum of the set sizes of a block. *)
Definition sum_sizes (v : list DSet.t) : Z :=
  foldr (λ slice acc, DSet.size slice + acc) 0 v.

(** The pattern's index-map quantities, in element units. *)
Definition local_size0 (s : SparsityPattern) : Z :=
  IndexMap.block_size (_index_maps s).1
  * IndexMap.size (_index_maps s).1 IndexMap.OWNED.

Definition owned_cols (s : SparsityPattern) : Z :=
  IndexMap.block_size (_index_maps s).2
  * IndexMap.size (_index_maps s).2 IndexMap.OWNED.

Definition global_cols (s : SparsityPattern) : Z :=
  IndexMap.block_size (_index_maps s).2
  * IndexMap.size (_index_maps s).2 IndexMap.GLOBAL.

(** A full row that is locally owned. *)
Definition owned_full_row (s : SparsityPattern) (r : Z) : Prop :=
  r ∈ _full_rows s ∧ r < local_size0 s.

Global Instance owned_full_row_dec s r : Decision (owned_full_row s r).
Proof. unfold owned_full_row. apply _. Defined.

(** The number of locally owned full rows. *)
Definition num_owned_full_rows (s : SparsityPattern) : Z :=
  vsize (filter (λ r, r < local_size0 s) (_full_rows s)).

(** A number can be stored in a 32-bit signed integer unchanged. *)
Definition fits_int32 (z : Z) : Prop := - 2 ^ 31 ≤ z < 2 ^ 31.

(** Every locally owned full row has a place in the arrays of per-row
    counts, and all the counts fit their 32-bit entries. *)
Record counts_storable (s : SparsityPattern) : Prop := {
  full_row_stored r :
    owned_full_row s r →
    0 ≤ r < vsize (_diagonal s)
    ∧ (_off_diagonal s = [] ∨ r < vsize (_off_diagonal s));
  diagonal_fits slice : slice ∈ _diagonal s → fits_int32 (DSet.size slice);
  off_diagonal_fits slice :
    slice ∈ _off_diagonal s → fits_int32 (DSet.size slice);
  owned_cols_fit : fits_int32 (owned_cols s);
  unowned_cols_fit : fits_int32 (global_cols s - owned_cols s)
}.

(** A pattern of two owned rows with row 0 marked full, on the first of
    two processes that own three columns each. *)
Definition pattern_counts : SparsityPattern :=
  mkSP (MPI.mk 2 0)
       (IndexMap.mk 1 (0, 2) 2 2 4 [] [] (λ i, i),
        IndexMap.mk 1 (0, 3) 3 3 6 [] [] (λ i, i))
       [[]; [0; 2]] [[]; [4]] [] [0].

(** A process that owns one row and 3000000000 columns: the pattern the
    constructor builds, with its row marked full. *)
Definition pattern_wide : SparsityPattern :=
  (insert_full_rows_local [0]
     (SparsityPattern_new (MPI.mk 1 0)
        (IndexMap.mk 1 (0, 1) 1 1 1 [] [] (λ i, i),
         IndexMap.mk 1 (0, 3000000000) 3000000000 3000000000 3000000000
                     [] [] (λ i, i)))).2.

(** Every process of a collective step ended normally, in the states
    [finals]. *)
Definition all_ok (results : list (outcome unit * SparsityPattern))
    (finals : list SparsityPattern) : Prop :=
  results = (λ s, (Ok tt, s)) <$> finals.

(** Two processes before the collective step: process 0 has buffered an
    entry for its ghost row, local row 2. *)
Definition exchange_procs : list SparsityPattern :=
  [(insert_local_global [2] [2] pattern_rank0).2; pattern_rank1].

Definition exchange_finals : list SparsityPattern :=
  snd <$> apply_all exchange_procs.

(** ** Entries *)

(** Column [c] is in the explicit set of row [r] of a block. *)
Definition entry (v : list DSet.t) (r c : Z) : Prop :=
  0 ≤ r ∧ ∃ row, v !! Z.to_nat r = Some row ∧ c ∈ row.

(** A sequence of insertion calls, each with its rows and its columns. *)
Definition calls : Type := list (list Z * list Z).

(** The (row, column) pairs a sequence of calls inserts: every row of a
    call paired with every column of that call. *)
Definition inserted (cs : calls) : list (Z * Z) :=
  rc ← cs; r ← rc.1; c ← rc.2; [(r, c)].



(** What the sequential loop of [insert_entries] does to the diagonal
    block when no row is full. *)
Definition sequential_rows (rows cs : list Z) (d : list DSet.t)
  : list DSet.t :=
  foldl (λ d r, alter (DSet.insert_range cs) (Z.to_nat r) d) d rows.


(** The calls are made one after the other through [insert_global]. *)
Definition insert_global_calls (cs : calls) : SP unit :=
  for_each (λ rc, insert_global rc.1 rc.2) cs.


(** ** The non-local buffer *)


(** A row index found in the full-row set. *)
Definition is_full (s : SparsityPattern) (I : Z) : bool :=
  bool_decide (0 < DSet.size (_full_rows s))
  && DSet.find (to_size_t I) (_full_rows s).

(** What a parallel insertion pushes onto the non-local buffer: for each
    row whose mapped index [I] is neither full nor in the owned block,
    and each column, the mapped row [I] and the mapped column [J]. *)
Definition non_local_pairs (s : SparsityPattern) (row_map col_map : index_fn)
    (rows cols : list Z) : list Z :=
  r ← rows;
  match row_map r (_index_maps s).1 with
  | Ok i =>
      let I := i in
      if is_full s I || bool_decide (I < local_size0 s) then []
      else
        c ← cols;
        match col_map c (_index_maps s).2 with
        | Ok J => [to_size_t I; to_size_t J]
        | _ => []
        end
  | _ => []
  end.

(** The row and column closures of [insert_local_global]. *)
Definition identity_map : index_fn := λ i _, Ok i.

(** ** Growth of the stored blocks *)

(** [s'] is [s] with the entries [D] added to the diagonal block and
    the entries [O] added to the off-diagonal block: same communicator,
    index maps and full rows, same numbers of rows, sets still without
    repetition. *)
Record extends_by (s s' : SparsityPattern) (D O : Z → Z → Prop) : Prop := {
  ext_comm : _mpi_comm s' = _mpi_comm s;
  ext_maps : _index_maps s' = _index_maps s;
  ext_full : _full_rows s' = _full_rows s;
  ext_diag_length : length (_diagonal s') = length (_diagonal s);
  ext_off_length : length (_off_diagonal s') = length (_off_diagonal s);
  ext_diag_NoDup : Forall NoDup (_diagonal s) → Forall NoDup (_diagonal s');
  ext_off_NoDup :
    Forall NoDup (_off_diagonal s) → Forall NoDup (_off_diagonal s');
  ext_diag r c : entry (_diagonal s') r c ↔ entry (_diagonal s) r c ∨ D r c;
  ext_off r c :
    entry (_off_diagonal s') r c ↔ entry (_off_diagonal s) r c ∨ O r c
}.

(** No entries. *)
Definition none : Z → Z → Prop := λ _ _, False.

(** The single entry ([i], [x]). *)
Definition just (i x : Z) : Z → Z → Prop := λ r c, r = i ∧ c = x.

(** ** Grids of sub-patterns *)

(** A block row has a first block, and every block of the row has one
    row of storage, in each of its blocks, for each node the row index
    map of the first block owns.  The merge constructor asserts this of
    the first block only (lines 82 and 86) and reads the rows of the
    other blocks of the row by index. *)
Definition block_row_wf (distributed : bool) (prow : list SparsityPattern)
  : Prop :=
  ∃ p0, prow !! 0%nat = Some p0
        ∧ ∀ p, p ∈ prow →
            vsize (_diagonal p)
            = IndexMap.size (_index_maps p0).1 IndexMap.OWNED
            ∧ (distributed = true →
               vsize (_off_diagonal p)
               = IndexMap.size (_index_maps p0).1 IndexMap.OWNED).





(** Two finalised blocks on one process, of two rows and of three and two
    columns. *)
Definition block_A : SparsityPattern :=
  (insert_global_calls [([0], [0; 2]); ([1], [1])] (serial_pattern 2 3)).2.

Definition block_B : SparsityPattern :=
  (insert_global_calls [([0], [1]); ([1], [0; 1])] (serial_pattern 2 2)).2.

(** A finalised block on one process with [m] rows and [n] columns of
    block size one. *)
Definition serial_block (m n : Z) (p : SparsityPattern) : Prop :=
  _index_maps p = (serial_map 1 m, serial_map 1 n)
  ∧ vsize (_diagonal p) = m
  ∧ _non_local p = [].

(** Blocks of a 2x2 grid. *)
Definition block_C : SparsityPattern :=
  (insert_global_calls [([0], [2])] (serial_pattern 1 3)).2.

Definition block_D : SparsityPattern :=
  (insert_global_calls [([0], [0])] (serial_pattern 1 2)).2.

(** A block on one process whose row index map has block size two: one
    node, two rows. *)
Definition block_wide : SparsityPattern :=
  (insert_global_calls [([0; 1], [0])]
     (SparsityPattern_new (MPI.mk 1 0) (serial_map 2 1, serial_map 1 1))).2.

(** ** Runs of several processes *)

(** An insertion through one of the three entry points. *)
Inductive op : Type :=
  | Insert_global (rows cols : list Z)
  | Insert_local (rows cols : list Z)
  | Insert_local_global (rows cols : list Z).

Definition op_rows (o : op) : list Z :=
  match o with
  | Insert_global rows _ | Insert_local rows _
  | Insert_local_global rows _ => rows
  end.

Definition op_cols (o : op) : list Z :=
  match o with
  | Insert_global _ cols | Insert_local _ cols
  | Insert_local_global _ cols => cols
  end.

Definition run_op (o : op) : SP unit :=
  match o with
  | Insert_global rows cols => insert_global rows cols
  | Insert_local rows cols => insert_local rows cols
  | Insert_local_global rows cols => insert_local_global rows cols
  end.

Definition run_ops (os : list op) : SP unit := for_each run_op os.

(** The start of the owned row elements of a pattern. *)
Definition offset0 (s : SparsityPattern) : Z :=
  IndexMap.block_size (_index_maps s).1
  * (IndexMap.local_range (_index_maps s).1).1.

(** The number of row elements of a pattern, ghosts included. *)
Definition ghosted_size0 (s : SparsityPattern) : Z :=
  IndexMap.block_size (_index_maps s).1
  * (IndexMap.size (_index_maps s).1 IndexMap.OWNED
     + vsize (IndexMap.ghosts (_index_maps s).1)).

(** The local row a row argument of an operation stands for, and the
    global column a column argument stands for. *)
Definition mapped_row (s : SparsityPattern) (o : op) (r : Z) : Z :=
  match o with
  | Insert_global _ _ => r - offset0 s
  | _ => r
  end.

Definition mapped_col (s : SparsityPattern) (o : op) (c : Z) : Z :=
  let m := (_index_maps s).2 in
  match o with
  | Insert_local _ _ =>
      IndexMap.local_to_global m (Z.quot c (IndexMap.block_size m))
      + Z.rem c (IndexMap.block_size m)
  | _ => c
  end.

(** The (local row, global column) pairs of a sequence of operations of
    a process. *)
Definition mapped (s : SparsityPattern) (os : list op) : list (Z * Z) :=
  o ← os; r ← op_rows o; c ← op_cols o;
  [(mapped_row s o r, mapped_col s o c)].

(** A list of pairs laid out flat, as the buffers hold them. *)
Definition flat (l : list (Z * Z)) : list Z := p ← l; [p.1; p.2].

(** The pairs of a process that fall on ghost rows. *)
Definition ghost_pairs (s : SparsityPattern) (os : list op) : list (Z * Z) :=
  filter (λ p, local_size0 s ≤ p.1) (mapped s os).

(** The owner and the global row element of a ghost row, read from the
    ghost tables of the row index map. *)
Definition ghost_slot (s : SparsityPattern) (I : Z) : nat :=
  Z.to_nat ((I - local_size0 s) `div` IndexMap.block_size (_index_maps s).1).

Definition ghost_owner (s : SparsityPattern) (I : Z) : Z :=
  IndexMap.ghost_owners (_index_maps s).1 !!! ghost_slot s I.

Definition ghost_global (s : SparsityPattern) (I : Z) : Z :=
  IndexMap.block_size (_index_maps s).1
  * (IndexMap.ghosts (_index_maps s).1 !!! ghost_slot s I)
  + (I - local_size0 s) `mod` IndexMap.block_size (_index_maps s).1.

(** The global row element of any local row of a process. *)
Definition to_global (s : SparsityPattern) (I : Z) : Z :=
  if bool_decide (I < local_size0 s) then I + offset0 s
  else ghost_global s I.

(** What a single process would be asked to insert for an operation of
    a process of the distributed run: the same entries by their global
    rows and columns. *)
Definition global_call (s : SparsityPattern) (o : op) : list Z * list Z :=
  ((λ r, to_global s (mapped_row s o r)) <$> op_rows o,
   mapped_col s o <$> op_cols o).

Definition global_calls (procs : list SparsityPattern) (opss : list (list op))
  : calls :=
  mjoin (zip_with (λ s os, global_call s <$> os) procs opss).

(** The single-process pattern over the whole row space. *)
Definition serial_reference (bs0 N0 : Z) (cmap : IndexMap.t)
  : SparsityPattern :=
  SparsityPattern_new (MPI.mk 1 0) (serial_map bs0 N0, cmap).

(** Column [C] is stored for the global row [R] on a process. *)
Definition stored (s : SparsityPattern) (R C : Z) : Prop :=
  entry (_diagonal s) (R - offset0 s) C
  ∨ entry (_off_diagonal s) (R - offset0 s) C.

(** A process of the layout: a fresh pattern of rank [q] among [n]
    processes; its row index map has block size [bs0], owns a range of
    the [N0] nodes, and names for each ghost node a process other than
    itself. *)
Record process_wf (bs0 N0 n : Z) (q : nat) (s : SparsityPattern) : Prop := {
  pw_fresh : s = SparsityPattern_new (MPI.mk n (Z.of_nat q)) (_index_maps s);
  pw_bs : IndexMap.block_size (_index_maps s).1 = bs0;
  pw_range :
    0 ≤ (IndexMap.local_range (_index_maps s).1).1
    ≤ (IndexMap.local_range (_index_maps s).1).2
    ∧ (IndexMap.local_range (_index_maps s).1).2 ≤ N0;
  pw_owned :
    IndexMap.size (_index_maps s).1 IndexMap.OWNED
    = (IndexMap.local_range (_index_maps s).1).2
      - (IndexMap.local_range (_index_maps s).1).1;
  pw_owners :
    length (IndexMap.ghost_owners (_index_maps s).1)
    = length (IndexMap.ghosts (_index_maps s).1);
  pw_fits : ghosted_size0 s < 2 ^ 31
}.

(** The layout of a distributed run: at least two processes, with
    disjoint owned ranges, each ghost node lying in the range owned by
    the process named as its owner. *)
Record row_layout (bs0 N0 : Z) (procs : list SparsityPattern) : Prop := {
  lay_multi : 1 < vsize procs < 2 ^ 31;
  lay_bs : 0 < bs0;
  lay_fits : bs0 * N0 < 2 ^ 31;
  lay_proc q s : procs !! q = Some s → process_wf bs0 N0 (vsize procs) q s;
  lay_disjoint q q' s s' :
    procs !! q = Some s → procs !! q' = Some s' → q ≠ q' →
    (IndexMap.local_range (_index_maps s).1).2
    ≤ (IndexMap.local_range (_index_maps s').1).1
    ∨ (IndexMap.local_range (_index_maps s').1).2
      ≤ (IndexMap.local_range (_index_maps s).1).1;
  lay_ghost q s (j : nat) g :
    procs !! q = Some s →
    IndexMap.ghosts (_index_maps s).1 !! j = Some g →
    ∃ o so, IndexMap.ghost_owners (_index_maps s).1 !! j = Some (Z.of_nat o)
            ∧ o ≠ q ∧ procs !! o = Some so
            ∧ (IndexMap.local_range (_index_maps so).1).1 ≤ g
              < (IndexMap.local_range (_index_maps so).1).2
}.

(** The arguments of an operation are in range: a row of
    [insert_global] is an owned global row, a row of the two other entry
    points is a local row, owned or ghost; a column stands for a global
    column that fits [std::size_t]. *)
Definition op_in_range (s : SparsityPattern) (o : op) : Prop :=
  Forall (λ r, match o with
               | Insert_global _ _ =>
                   offset0 s ≤ r < offset0 s + local_size0 s
               | _ => 0 ≤ r < ghosted_size0 s
               end) (op_rows o)
  ∧ Forall (λ c, 0 ≤ mapped_col s o c < 2 ^ 64) (op_cols o).

(** The entries a process stores for its own rows while it inserts: the
    pairs on owned rows, by the ownership of the column. *)
Definition own_entries (owned : bool) (s : SparsityPattern) (os : list op)
  : Z → Z → Prop :=
  λ r c, (r, c) ∈ mapped s os ∧ r < local_size0 s
         ∧ (if owned then owns_col s c else ¬ owns_col s c).

(** A pattern of a process on its way from the fresh pattern [p]: same
    communicator and index maps, no full rows, one row of storage for
    each owned row element. *)
Record evolved (p s : SparsityPattern) : Prop := {
  ev_comm : _mpi_comm s = _mpi_comm p;
  ev_maps : _index_maps s = _index_maps p;
  ev_full : _full_rows s = [];
  ev_diag : vsize (_diagonal s) = local_size0 p;
  ev_off : vsize (_off_diagonal s) = local_size0 p
}.

(** What a process addresses to process [q] for its pairs on ghost rows:
    the pairs whose row is owned by [q], by their global rows. *)
Definition sent_to (s : SparsityPattern) (gl : list (Z * Z)) (q : nat)
  : list (Z * Z) :=
  (λ p, (ghost_global s p.1, p.2))
    <$> filter (λ p, ghost_owner s p.1 = Z.of_nat q) gl.

(** What process [q] receives in the exchange, as pairs. *)
Definition received_pairs (procs : list SparsityPattern)
    (opss : list (list op)) (q : nat) : list (Z * Z) :=
  mjoin (zip_with (λ p os, sent_to p (ghost_pairs p os) q) procs opss).

(** The patterns of the processes after their insertions, and after the
    collective [apply]. *)
Definition after_insertions (procs : list SparsityPattern)
    (opss : list (list op)) : list SparsityPattern :=
  zip_with (λ p os, (run_ops os p).2) procs opss.

Definition after_apply (procs : list SparsityPattern)
    (opss : list (list op)) : list SparsityPattern :=
  snd <$> apply_all (after_insertions procs opss).

(** Some process of the run inserts column [C] into the row whose
    global row element is [R]. *)
Definition global_entry (procs : list SparsityPattern)
    (opss : list (list op)) (R C : Z) : Prop :=
  ∃ (i : nat) p os I,
    procs !! i = Some p ∧ opss !! i = Some os
    ∧ (I, C) ∈ mapped p os ∧ R = to_global p I.

(** A run of the two processes [pattern_rank0] and [pattern_rank1]:
    process 0 inserts into its owned row 0 and into its ghost row, local
    row 2; process 1 inserts into its owned global row 3. *)
Definition run_procs : list SparsityPattern := [pattern_rank0; pattern_rank1].

Definition run_opss : list (list op) :=
  [[Insert_local_global [0; 2] [1; 2]]; [Insert_global [3] [0]]].

(** ** What the mutating members keep *)

(** [s'] keeps what [s] has: the communicator, the index maps and the
    full-row set are the same, both blocks have the same number of rows,
    each row set of [s] is the front of the same row set of [s'] (nothing
    is removed or reordered), and row sets without repetition stay so. *)
Record keeps (s s' : SparsityPattern) : Prop := {
  keeps_comm : _mpi_comm s' = _mpi_comm s;
  keeps_maps : _index_maps s' = _index_maps s;
  keeps_full : _full_rows s' = _full_rows s;
  keeps_diag : Forall2 prefix (_diagonal s) (_diagonal s');
  keeps_off : Forall2 prefix (_off_diagonal s) (_off_diagonal s');
  keeps_diag_NoDup :
    Forall NoDup (_diagonal s) → Forall NoDup (_diagonal s');
  keeps_off_NoDup :
    Forall NoDup (_off_diagonal s) → Forall NoDup (_off_diagonal s')
}.

(** The same, and the non-local buffer only grows at its end. *)
Definition keeps_appending (s s' : SparsityPattern) : Prop :=
  keeps s s' ∧ _non_local s `prefix_of` _non_local s'.

(** The same, and the non-local buffer is untouched. *)
Definition keeps_buffer (s s' : SparsityPattern) : Prop :=
  keeps s s' ∧ _non_local s' = _non_local s.

(** ** Full rows *)

(** The bound [insert_full_rows_local] asserts of its rows: the number
    of row elements of the row index map, ghosts included. *)
Definition full_rows_bound (s : SparsityPattern) : Z :=
  IndexMap.block_size (_index_maps s).1
  * IndexMap.size (_index_maps s).1 IndexMap.ALL.

(** The first of two processes; it owns rows 0 and 1 and has marked its
    row 1 full. *)
Definition pattern_marked : SparsityPattern :=
  set_full_rows (λ _, [1]) pattern_rank0.

(** ** The owned row range *)

(** Both blocks have one row of storage for each owned row element, as
    the constructor leaves them. *)
Record rows_allocated (s : SparsityPattern) : Prop := {
  alloc_diag : vsize (_diagonal s) = local_size0 s;
  alloc_off : vsize (_off_diagonal s) = local_size0 s
}.

(** The row index map owns as many nodes as its range is long, and the
    range in element units fits a signed 64-bit index. *)
Record range0_consistent (s : SparsityPattern) : Prop := {
  range0_owned :
    IndexMap.size (_index_maps s).1 IndexMap.OWNED
    = (IndexMap.local_range (_index_maps s).1).2
      - (IndexMap.local_range (_index_maps s).1).1;
  range0_lower : 0 ≤ offset0 s;
  range0_upper : offset0 s + local_size0 s < 2 ^ 63
}.

(** A row argument fits a signed index of at most 64 bits. *)
Definition fits_index (r : Z) : Prop := - 2 ^ 63 ≤ r < 2 ^ 63.

(** ** Rows that hold given columns *)

(** Row [r] of the diagonal block holds every column of [xs]. *)
Definition covered (xs : list Z) (s : SparsityPattern) (r : Z) : Prop :=
  0 ≤ r ∧ ∃ row, _diagonal s !! Z.to_nat r = Some row ∧ xs ⊆ row.

(** ** Per-row counts and patterns *)

(** The sum of an array of counts. *)
Definition sum_counts (a : list Z) : Z := foldr Z.add 0 a.

(** The full-row set has no repetition, and every locally owned full row
    is a row of both blocks with empty explicit sets: what
    [diagonal_pattern] and [off_diagonal_pattern] assert of it. *)
Record full_rows_empty (s : SparsityPattern) : Prop := {
  full_NoDup : NoDup (_full_rows s);
  full_diag r :
    owned_full_row s r → 0 ≤ r ∧ _diagonal s !! Z.to_nat r = Some [];
  full_off r : owned_full_row s r → _off_diagonal s !! Z.to_nat r = Some []
}.

(** The sum of the two counts of every row fits a 32-bit entry. *)
Definition row_totals_fit (s : SparsityPattern) : Prop :=
  fits_int32 (global_cols s)
  ∧ ∀ (r : nat) d o,
      _diagonal s !! r = Some d → _off_diagonal s !! r = Some o →
      fits_int32 (DSet.size d + DSet.size o).

(** A stored row as a pattern of the given type hands it out. *)
Definition arranged (type : PatternType) (row : list Z) : list Z :=
  match type with
  | sorted => merge_sort Z.le row
  | unsorted => row
  end.

(** The column index map owns as many nodes as its range is long, and
    the owned column elements lie among the global column elements. *)
Record range1_consistent (s : SparsityPattern) : Prop := {
  range1_owned :
    IndexMap.size (_index_maps s).2 IndexMap.OWNED
    = (IndexMap.local_range (_index_maps s).2).2
      - (IndexMap.local_range (_index_maps s).2).1;
  range1_lower :
    0 ≤ IndexMap.block_size (_index_maps s).2
        * (IndexMap.local_range (_index_maps s).2).1;
  range1_order :
    IndexMap.block_size (_index_maps s).2
    * (IndexMap.local_range (_index_maps s).2).1
    ≤ IndexMap.block_size (_index_maps s).2
      * (IndexMap.local_range (_index_maps s).2).2;
  range1_upper :
    IndexMap.block_size (_index_maps s).2
    * (IndexMap.local_range (_index_maps s).2).2
    ≤ global_cols s
}.

(** What a pattern of the given type hands out for a stored row: the
    row itself, or its columns in ascending order. *)
Definition hands_out (type : PatternType) (row prow : list Z) : Prop :=
  match type with
  | sorted => prow ≡ₚ row ∧ StronglySorted Z.lt prow
  | unsorted => prow = row
  end.

(** The pattern [pattern_counts] with its row 1, which holds columns,
    marked full instead of its row 0. *)
Definition pattern_full_stored : SparsityPattern :=
  set_full_rows (λ _, [1]) pattern_counts.

(** ** What the non-local buffer holds *)

(** The buffer [b] holds whole pairs whose rows are not below [n]. *)
Definition ghost_buffer (n : Z) (b : list Z) : Prop :=
  ∃ pairs, b = flat pairs ∧ Forall (λ p, n ≤ p.1) pairs.

(** The buffer of a pattern holds whole pairs on rows that are not
    owned: what [apply] asserts of it. *)
Definition buffer_on_ghost_rows (s : SparsityPattern) : Prop :=
  ghost_buffer (local_size0 s) (_non_local s).

(** The buffer of [s'] holds such pairs if the buffer of [s] does. *)
Definition keeps_ghost_buffer (n : Z) (s s' : SparsityPattern) : Prop :=
  ghost_buffer n (_non_local s) → ghost_buffer n (_non_local s').

(** ** Which block holds which column *)

(** With the column ranges of [s0]: the diagonal block [d] holds owned
    columns only and the off-diagonal block [o] holds none of them. *)
Definition split_by (s0 : SparsityPattern) (d o : list DSet.t) : Prop :=
  ∀ r c, (entry d r c → owns_col s0 c) ∧ (entry o r c → ¬ owns_col s0 c).

Definition blocks_split (s : SparsityPattern) : Prop :=
  split_by s (_diagonal s) (_off_diagonal s).

(** The blocks of [s'] are split by the column ranges of [s0] if those
    of [s] are. *)
Definition keeps_split (s0 s s' : SparsityPattern) : Prop :=
  split_by s0 (_diagonal s) (_off_diagonal s)
  → split_by s0 (_diagonal s') (_off_diagonal s').

(** [la_index_t] is [int], 32 bits wide.  The index maps of [s] fit it:
    their block sizes are positive, and the bounds of the owned column
    element range are kept by their conversion to [la_index_t] (lines
    292-293 and 546-547). *)
Record maps_fit (s : SparsityPattern) : Prop := {
  fit_bs0 : 0 < IndexMap.block_size (_index_maps s).1;
  fit_bs1 : 0 < IndexMap.block_size (_index_maps s).2;
  fit_lower :
    fits_int32 (IndexMap.block_size (_index_maps s).2
                * (IndexMap.local_range (_index_maps s).2).1);
  fit_upper :
    fits_int32 (IndexMap.block_size (_index_maps s).2
                * (IndexMap.local_range (_index_maps s).2).2)
}.

(** The test of lines 292-293 and 546-547 with its conversions written
    out: the bounds, products in [std::size_t], are converted to
    [la_index_t], and [J] is the [la_index_t] made of [c], the value the
    column map returns (line 291) or the received value (line 530). *)
Definition owns_col_la_index (s : SparsityPattern) (c : Z) : bool :=
  let m := (_index_maps s).2 in
  let J := to_int32 c in
  bool_decide
    (to_int32 (to_size_t (IndexMap.block_size m * (IndexMap.local_range m).1))
     ≤ J)
  && bool_decide
       (J < to_int32 (to_size_t (IndexMap.block_size m
                                 * (IndexMap.local_range m).2))).

(** A column argument stands for a global column that is not negative
    and fits [la_index_t], the type of the column the column map
    returns (line 291). *)
Definition cols_in_range (s : SparsityPattern) (o : op) : Prop :=
  Forall (λ c, 0 ≤ mapped_col s o c < 2 ^ 31) (op_cols o).

(** The off-diagonal block and the buffer are untouched. *)
Definition keeps_off_diagonal (s s' : SparsityPattern) : Prop :=
  _off_diagonal s' = _off_diagonal s ∧ _non_local s' = _non_local s.

(** The same for a computation that reads the column ranges from the
    pattern it runs on: the index maps stay those of [s0]. *)
Definition keeps_split_maps (s0 s s' : SparsityPattern) : Prop :=
  _index_maps s = _index_maps s0 →
  _index_maps s' = _index_maps s0 ∧ keeps_split s0 s s'.

(** What an exchange hands back are values that fit [la_index_t]: the
    conversions of lines 529-530 keep them. *)
Definition hands_back_la_index (oracle : list (list Z) → list Z) : Prop :=
  ∀ out, Forall (λ x, 0 ≤ x < 2 ^ 31) (oracle out).

(** ** What the merge constructor leaves out *)

(** [s'] has the communicator, the full-row set and the buffer of [s],
    its row sets have no repetition if those of [s] have none, and,
    unless [distributed], it has the off-diagonal block of [s]. *)
Record keeps_marks (distributed : bool) (s s' : SparsityPattern) : Prop := {
  marks_comm : _mpi_comm s' = _mpi_comm s;
  marks_full : _full_rows s' = _full_rows s;
  marks_buffer : _non_local s' = _non_local s;
  marks_diag_NoDup :
    Forall NoDup (_diagonal s) → Forall NoDup (_diagonal s');
  marks_off_NoDup :
    Forall NoDup (_off_diagonal s) → Forall NoDup (_off_diagonal s');
  marks_off : distributed = false → _off_diagonal s' = _off_diagonal s
}.

(** A block of two rows on one process with its row 1 marked full. *)
Definition block_marked : SparsityPattern :=
  mkSP (MPI.mk 1 0) (serial_map 1 2, serial_map 1 2)
       [[0]; [1]] [[]; []] [] [1].

(** ** What [apply] asserts of a buffered row *)

(** The place of a buffered row in the ghost tables, as [apply]
    computes it. *)
Definition row_slot (s : SparsityPattern) (I : Z) : Z :=
  to_int32 (to_size_t (I - local_size0 s)
            `div` IndexMap.block_size (_index_maps s).1).

(** The row [I] is not owned, and its place in the ghost tables names as
    its owner another process of the communicator. *)
Definition sendable (s : SparsityPattern) (I : Z) : Prop :=
  local_size0 s ≤ I
  ∧ ∃ owner, 0 ≤ row_slot s I
      ∧ IndexMap.ghost_owners (_index_maps s).1 !! Z.to_nat (row_slot s I)
        = Some owner
      ∧ to_size_t owner < MPI.size (_mpi_comm s)
      ∧ to_size_t owner ≠ MPI.rank (_mpi_comm s).

(** ** The life of a pattern *)

(** What holds of a pattern on more than one process from its
    construction on: its blocks have one row for each owned row element,
    their row sets have no repetition and are split by the owned column
    range, and the buffer holds whole pairs on rows that are not
    owned. *)
Record pattern_inv (s : SparsityPattern) : Prop := {
  inv_rows : rows_allocated s;
  inv_diag : Forall NoDup (_diagonal s);
  inv_off : Forall NoDup (_off_diagonal s);
  inv_split : blocks_split s;
  inv_buffer : buffer_on_ghost_rows s
}.

(** The arguments of an operation fit [la_index_t]: the rows as they
    are, the columns as global columns. *)
Definition op_fits (s : SparsityPattern) (o : op) : Prop :=
  Forall fits_int32 (op_rows o) ∧ cols_in_range s o.

(** * Properties *)

(** ** Machine integers and sets *)

Lemma to_size_t_small z : 0 ≤ z < 2 ^ 64 → to_size_t z = z.
Proof. intros. unfold to_size_t. by apply Z.mod_small. Qed.

Lemma to_int32_small z : - 2 ^ 31 ≤ z < 2 ^ 31 → to_int32 z = z.
Proof. intros. unfold to_int32. rewrite Z.mod_small; lia. Qed.

Lemma DSet_elem_of_insert x y s : y ∈ DSet.insert x s ↔ y = x ∨ y ∈ s.
Proof.
  unfold DSet.insert, DSet.find. case_bool_decide as Hx.
  - split; [by right | intros [->|]; done].
  - rewrite elem_of_app, list_elem_of_singleton. tauto.
Qed.

Lemma DSet_NoDup_insert x s : NoDup s → NoDup (DSet.insert x s).
Proof.
  intros Hs. unfold DSet.insert, DSet.find. case_bool_decide as Hx; [done|].
  apply NoDup_app. split_and!; [done| |apply NoDup_singleton].
  intros y Hy ->%list_elem_of_singleton. done.
Qed.

Lemma DSet_elem_of_insert_range xs y s :
  y ∈ DSet.insert_range xs s ↔ y ∈ xs ∨ y ∈ s.
Proof.
  unfold DSet.insert_range. revert s.
  induction xs as [|x xs IH]; intros s; simpl.
  - rewrite elem_of_nil. tauto.
  - rewrite IH, DSet_elem_of_insert, elem_of_cons. tauto.
Qed.

Lemma DSet_NoDup_insert_range xs s :
  NoDup s → NoDup (DSet.insert_range xs s).
Proof.
  unfold DSet.insert_range. revert s.
  induction xs as [|x xs IH]; intros s Hs; simpl; [done|].
  by apply IH, DSet_NoDup_insert.
Qed.

(** ** Running a computation *)

Section run.
Context {S : Type}.
Implicit Types s : S.

Lemma run_bind {A B} (m : M S A) (f : A → M S B) s :
  (m ≫= f) s = match m s with
                | (Ok a, s') => f a s'
                | (Throw w, s') => (Throw w, s')
                | (Abort, s') => (Abort, s')
                end.
Proof. reflexivity. Qed.

Lemma run_bind_ok {A B} (m : M S A) (f : A → M S B) s a s' :
  m s = (Ok a, s') → (m ≫= f) s = f a s'.
Proof. intros H. by rewrite run_bind, H. Qed.

Lemma run_ret {A} (a : A) s : (mret a : M S A) s = (Ok a, s).
Proof. reflexivity. Qed.

Lemma run_get s : (get : M S S) s = (Ok s, s).
Proof. reflexivity. Qed.

Lemma run_modify (g : S → S) s : modify g s = (Ok tt, g s).
Proof. reflexivity. Qed.

Lemma run_assert_true s : (assert true : M S unit) s = (Ok tt, s).
Proof. reflexivity. Qed.

Lemma run_assert_false s : (assert false : M S unit) s = (Abort, s).
Proof. reflexivity. Qed.

Lemma run_lift {A} (o : outcome A) s : (lift o : M S A) s = (o, s).
Proof. reflexivity. Qed.

Lemma run_throw {A} w s : (throw w : M S A) s = (Throw w, s).
Proof. reflexivity. Qed.

Lemma for_each_nil {A} (body : A → M S unit) s :
  for_each body [] s = (Ok tt, s).
Proof. reflexivity. Qed.

Lemma for_each_cons {A} (body : A → M S unit) x xs s :
  for_each body (x :: xs) s = (body x ;; for_each body xs) s.
Proof. reflexivity. Qed.

Lemma for_each_app {A} (body : A → M S unit) xs ys s :
  for_each body (xs ++ ys) s = (for_each body xs ;; for_each body ys) s.
Proof.
  revert s. induction xs as [|x xs IH]; intros s; simpl.
  - by rewrite run_bind, run_ret.
  - rewrite !run_bind. destruct (body x s) as [[[]| |] s1]; [|done..].
    by rewrite IH, run_bind.
Qed.

(** A loop whose body leaves the state alone leaves the state alone. *)
Lemma for_each_skip {A} (body : A → M S unit) xs s :
  (∀ x, x ∈ xs → body x s = (Ok tt, s)) → for_each body xs s = (Ok tt, s).
Proof.
  induction xs as [|x xs IH]; intros H; [done|].
  rewrite for_each_cons. erewrite run_bind_ok; [|apply H, elem_of_cons; auto].
  apply IH. intros y Hy. apply H, elem_of_cons; auto.
Qed.

Lemma for_index_skip {A} (body : Z → A → M S unit) i0 xs s :
  (∀ i x, body i x s = (Ok tt, s)) → for_index body i0 xs s = (Ok tt, s).
Proof.
  intros H. revert i0. induction xs as [|x xs IH]; intros i0; [done|].
  simpl. erewrite run_bind_ok; [|apply H]. apply IH.
Qed.
End run.

Global Opaque M_bind M_ret.

Create Rewrite HintDb run.
#[global] Hint Rewrite @run_ret @run_get @run_modify @run_assert_true
  @run_assert_false @run_lift @run_throw @for_each_nil : run.

Ltac case_inside :=
  match goal with |- context [inside ?i ?v] => destruct (inside i v) end.

Ltac run_simpl :=
  repeat first [ rewrite run_bind
               | progress autorewrite with run
               | progress cbv beta iota ].

(** One step of a computation whose head is a primitive. *)
Ltac run_step :=
  rewrite run_bind; autorewrite with run; cbv beta iota.

(** ** Full rows and insertion (C3) *)

(** In parallel mode a row found in the full-row set is skipped: the
    lookup uses the mapped row index [I]. *)
Lemma insert_entries_parallel_skips_full rows cols row_map col_map s :
  MPI.size (_mpi_comm s) ≠ 1 →
  (∀ r, r ∈ rows → ∃ I, row_map r (_index_maps s).1 = Ok I
                        ∧ to_size_t I ∈ _full_rows s) →
  insert_entries rows cols row_map col_map s = (Ok tt, s).
Proof.
  intros Hsz Hrows. unfold insert_entries. run_step.
  rewrite bool_decide_eq_false_2 by done.
  apply for_each_skip. intros r Hr.
  destruct (Hrows r Hr) as (I & HI & Hfull).
  unfold insert_row_parallel. rewrite HI. run_step.
  assert (0 < DSet.size (_full_rows s)) as Hpos.
  { unfold DSet.size. destruct (_full_rows s); [by apply elem_of_nil in Hfull|].
    simpl. lia. }
  rewrite bool_decide_eq_true_2 by done.
  unfold DSet.find. rewrite bool_decide_eq_true_2 by done. done.
Qed.

(** C3, at the failing input.  On one process the pattern of two rows has
    its row 1 marked full and then receives [insert_global] with
    rows [1] and columns [0]: the sequential branch looks up the loop
    counter 0, not the row 1, in the full-row set, and row 1 of the
    diagonal block receives column 0. *)
Theorem C3_sequential_insert_into_full_row :
  ∃ s', (insert_full_rows_local [1] ;; insert_global [1] [0])
          (serial_pattern 2 2) = (Ok tt, s')
        ∧ 1 ∈ _full_rows s'
        ∧ _diagonal s' !! 1%nat = Some [0].
Proof.
  eexists. split; [vm_compute; reflexivity|].
  split; [|reflexivity]. simpl. apply list_elem_of_singleton. done.
Qed.

(** ** The sanity check of [apply] (C4) *)

(** A received pair raises the exception exactly when its row is below
    the start of the local range in node units, or at or beyond its end
    in element units. *)
Lemma insert_received_entry_throws I J s :
  let m := (_index_maps s).1 in
  (∃ w, (insert_received_entry I J s).1 = Throw w)
  ↔ I < (IndexMap.local_range m).1
    ∨ IndexMap.block_size m * (IndexMap.local_range m).2 ≤ I.
Proof.
  intros m. unfold insert_received_entry. run_step.
  destruct (bool_decide (I < _)) eqn:Hlo; simpl.
  { apply bool_decide_eq_true_1 in Hlo. run_step.
    split; [by left|]. intros _. by eexists. }
  apply bool_decide_eq_false_1 in Hlo.
  destruct (bool_decide (_ ≤ I)) eqn:Hhi.
  { apply bool_decide_eq_true_1 in Hhi. run_step.
    split; [by right|]. intros _. by eexists. }
  apply bool_decide_eq_false_1 in Hhi. run_step.
  split; [|fold m in Hhi, Hlo; lia].
  intros [w Hw]. exfalso. revert Hw.
  unfold assert, diagonal_insert, off_diagonal_insert.
  destruct (_ && _); rewrite run_bind;
    destruct (bool_decide _); autorewrite with run; try done;
    destruct (inside _ _); done.
Qed.

(** C4, at the failing input.  The process owns the row elements [2,4)
    (node 1, block size 2) and receives the pair (1, 0).  Row 1 is not
    owned, yet no exception is raised: the lower bound of the check is
    the range start in node units, 1.  The local row index is then
    computed below zero as an unsigned number and the insertion falls
    outside the storage. *)
Theorem C4_unowned_row_not_rejected :
  ¬ owns_row pattern_blocked 1
  ∧ insert_received_entry 1 0 pattern_blocked = (Abort, pattern_blocked)
  ∧ apply (λ _, [1; 0]) pattern_blocked = (Abort, pattern_blocked).
Proof.
  split; [unfold owns_row; simpl; lia|].
  split; vm_compute; reflexivity.
Qed.

(** ** Received entries and full rows (C10) *)

Lemma insert_received_entry_full_rows f I J s :
  insert_received_entry I J (set_full_rows f s)
  = ((insert_received_entry I J s).1,
     set_full_rows f (insert_received_entry I J s).2).
Proof.
  unfold insert_received_entry. run_step. rewrite (run_bind _ _ s).
  autorewrite with run. cbv beta iota. simpl _index_maps.
  destruct (_ || _); autorewrite with run; [done|].
  destruct (_ && _); rewrite !run_bind; simpl _diagonal; simpl _off_diagonal;
    unfold assert, diagonal_insert, off_diagonal_insert;
    destruct (bool_decide _); run_simpl; try done.
  all: simpl _diagonal; simpl _off_diagonal; case_inside; done.
Qed.

(** The insertion of received pairs never reads the full-row set: it
    commutes with any change of that set. *)
Lemma insert_received_full_rows f recv s :
  insert_received recv (set_full_rows f s)
  = ((insert_received recv s).1, set_full_rows f (insert_received recv s).2).
Proof.
  revert s. induction recv as [recv IH] using (induction_ltof1 _ length).
  unfold ltof in IH. intros s.
  destruct recv as [|I [|J rest]]; [done..|].
  cbn [insert_received]. rewrite !run_bind, insert_received_entry_full_rows.
  destruct (insert_received_entry I J s) as [[[]| |] s1]; simpl; [|done..].
  apply IH. simpl. lia.
Qed.

(** C10.  Process 1 marks its local row 1 (global row 3) full; process 0
    reaches that row as its ghost, local row 2, and inserts column 2
    there.  After the exchange the explicit diagonal set of the full row
    on process 1 holds column 2, and [diagonal_pattern] stops at its
    assertion that the row is empty.  In general the insertion of
    received pairs does not depend on the full-row set. *)
Theorem C10_received_entry_lands_in_full_row :
  (∀ f recv s,
     insert_received recv (set_full_rows f s)
     = ((insert_received recv s).1,
        set_full_rows f (insert_received recv s).2))
  ∧ ∃ s0 s1 f0 f1,
      insert_local_global [2] [2] pattern_rank0 = (Ok tt, s0)
      ∧ insert_full_rows_local [1] pattern_rank1 = (Ok tt, s1)
      ∧ apply_all [s0; s1] = [(Ok tt, f0); (Ok tt, f1)]
      ∧ 1 ∈ _full_rows f1
      ∧ _diagonal f1 !! 1%nat = Some [2]
      ∧ diagonal_pattern sorted f1 = Abort.
Proof.
  split; [apply insert_received_full_rows|].
  do 4 eexists. split_and!.
  - vm_compute; reflexivity.
  - vm_compute; reflexivity.
  - vm_compute; reflexivity.
  - simpl. apply list_elem_of_singleton. done.
  - reflexivity.
  - vm_compute; reflexivity.
Qed.

(** ** Nonzero counts (C7) *)

Lemma foldl_add_sizes (v : list DSet.t) (a : Z) :
  foldl (λ nz slice, nz + DSet.size slice) a v = a + sum_sizes v.
Proof.
  revert a. induction v as [|slice v IH]; intros a; simpl; [lia|].
  rewrite IH. unfold sum_sizes. simpl. lia.
Qed.

Lemma foldl_add_full_rows (F : list Z) (ls0 ncols a : Z) :
  foldl (λ nz full_row, if bool_decide (full_row < ls0) then nz + ncols else nz)
        a F
  = a + ncols * vsize (filter (λ r, r < ls0) F).
Proof.
  revert a. induction F as [|r F IH]; intros a; simpl; [unfold vsize; simpl; lia|].
  rewrite IH, filter_cons. case_bool_decide; case_decide; try done;
    unfold vsize; simpl; lia.
Qed.

(** The loop over the full rows of the per-row count functions. *)
Lemma exec_assign_full_rows (F : list Z) (ls0 ncols : Z) (a : list Z) :
  (∀ r, r ∈ F → r < ls0 → 0 ≤ r < vsize a) →
  ∃ a', exec (for_each (λ row, if bool_decide (row < ls0)
                               then assign row ncols else mret tt) F) a
        = Ok a'
        ∧ length a' = length a
        ∧ ∀ i : nat, a' !! i
            = if bool_decide (Z.of_nat i ∈ F ∧ Z.of_nat i < ls0)
              then (λ _, to_int32 ncols) <$> a !! i else a !! i.
Proof.
  revert a. induction F as [|r F IH]; intros a Hin.
  { exists a. split_and!; [done..|]. intros i.
    rewrite bool_decide_eq_false_2; [done|]. rewrite elem_of_nil. tauto. }
  unfold exec. rewrite for_each_cons, run_bind.
  assert (∃ a1, (if bool_decide (r < ls0) then assign r ncols else mret tt) a
                = (Ok tt, a1) ∧ length a1 = length a
                ∧ ∀ i : nat, a1 !! i
                    = if bool_decide (Z.of_nat i = r ∧ r < ls0)
                      then (λ _, to_int32 ncols) <$> a !! i else a !! i)
    as (a1 & -> & Hlen1 & Hlk1).
  { case_bool_decide as Hr.
    - unfold assign, inside. rewrite bool_decide_eq_true_2
        by (apply Hin; [apply elem_of_cons; auto|done]).
      eexists. split_and!; [done|by rewrite length_insert|].
      intros i. case_bool_decide as Hi.
      + destruct Hi as [<- _]. rewrite Nat2Z.id.
        destruct (a !! i) eqn:Hai; simpl.
        * apply list_lookup_insert_eq. by eapply lookup_lt_Some.
        * apply lookup_ge_None. rewrite length_insert.
          by apply lookup_ge_None.
      + apply list_lookup_insert_ne. intros <-.
        destruct (Hin r) as [? _]; [apply elem_of_cons; auto|done|].
        apply Hi. split; [lia|done].
    - exists a. rewrite run_ret. split_and!; [done..|]. intros i.
      rewrite bool_decide_eq_false_2; [done|tauto]. }
  destruct (IH a1) as (a' & Hex & Hlen & Hlk).
  { intros r' Hr' Hlt. unfold vsize. rewrite Hlen1. apply Hin; [|done].
    apply elem_of_cons; auto. }
  exists a'. unfold exec in Hex. split_and!; [done|congruence|].
  intros i. rewrite Hlk, Hlk1.
  destruct (a !! i); simpl; repeat case_bool_decide;
    rewrite ?elem_of_cons in *; try done;
    exfalso; intuition (subst; eauto; lia).
Qed.

Lemma full_rows_empty_not_owned s r :
  ¬ 0 < DSet.size (_full_rows s) → ¬ owned_full_row s r.
Proof.
  intros Hsz [Hr _]. apply Hsz. unfold DSet.size.
  destruct (_full_rows s); [by apply elem_of_nil in Hr|]. simpl. lia.
Qed.

(** C7.  For every pattern [num_nonzeros] is the sum of the diagonal-set
    sizes, the off-diagonal-set sizes and, for each locally owned full
    row, the number of global column elements.  The per-row arrays of
    [num_nonzeros_diagonal] and [num_nonzeros_off_diagonal] hold 32-bit
    integers: for patterns whose counts fit them, and whose owned full
    rows are rows of the blocks, the entry of a row is the size of its
    explicit set, except that a locally owned full row has the number of
    owned column elements, respectively of global minus owned column
    elements. *)
Theorem C7_nonzero_counts s :
  num_nonzeros s
  = sum_sizes (_diagonal s) + sum_sizes (_off_diagonal s)
    + global_cols s * num_owned_full_rows s
  ∧ (counts_storable s →
     (∃ d, num_nonzeros_diagonal s = Ok d
           ∧ length d = length (_diagonal s)
           ∧ ∀ (r : nat) slice, _diagonal s !! r = Some slice →
               d !! r = Some (if decide (owned_full_row s (Z.of_nat r))
                              then owned_cols s else DSet.size slice))
     ∧ (∃ o, num_nonzeros_off_diagonal s = Ok o
           ∧ length o = length (_off_diagonal s)
           ∧ ∀ (r : nat) slice, _off_diagonal s !! r = Some slice →
               o !! r = Some (if decide (owned_full_row s (Z.of_nat r))
                              then global_cols s - owned_cols s
                              else DSet.size slice))).
Proof.
  split; [|intros [Hstored Hdfit Hofit Hown Hunown]; split].
  - unfold num_nonzeros. rewrite foldl_add_full_rows, !foldl_add_sizes.
    unfold global_cols, num_owned_full_rows, local_size0.
    rewrite Z.add_0_l. reflexivity.
  - unfold num_nonzeros_diagonal. case_bool_decide as Hsz.
    + edestruct (exec_assign_full_rows (_full_rows s) (local_size0 s)
                   (owned_cols s)) as (d & Hd & Hlen & Hlk); last first.
      { exists d. split; [exact Hd|]. split.
        - by rewrite Hlen, length_fmap.
        - intros r slice Hr. rewrite Hlk, list_lookup_fmap, Hr. simpl.
          unfold owned_full_row.
          case_bool_decide; case_decide; try done;
            f_equal; apply to_int32_small; [apply Hown|].
          apply Hdfit. by eapply list_elem_of_lookup_2. }
      intros r Hr Hlt. unfold vsize. rewrite length_fmap.
      by apply Hstored.
    + eexists. split; [done|]. split; [by rewrite length_fmap|].
      intros r slice Hr. rewrite list_lookup_fmap, Hr. simpl.
      rewrite decide_False by by apply full_rows_empty_not_owned.
      f_equal. apply to_int32_small, Hdfit. by eapply list_elem_of_lookup_2.
  - unfold num_nonzeros_off_diagonal. case_bool_decide as Hnil.
    { exists []. rewrite Hnil. split_and!; [done..|]. intros r slice Hr.
      by rewrite lookup_nil in Hr. }
    case_bool_decide as Hsz.
    + edestruct (exec_assign_full_rows (_full_rows s) (local_size0 s)
                   (global_cols s - owned_cols s)) as (o & Ho & Hlen & Hlk);
        last first.
      { exists o. split; [exact Ho|]. split.
        - by rewrite Hlen, length_fmap.
        - intros r slice Hr. rewrite Hlk, list_lookup_fmap, Hr. simpl.
          unfold owned_full_row.
          case_bool_decide; case_decide; try done;
            f_equal; apply to_int32_small; [apply Hunown|].
          apply Hofit. by eapply list_elem_of_lookup_2. }
      intros r Hr Hlt. unfold vsize. rewrite length_fmap.
      destruct (Hstored r) as [? [?|?]]; [done|done|]. unfold vsize in *. lia.
    + eexists. split; [done|]. split; [by rewrite length_fmap|].
      intros r slice Hr. rewrite list_lookup_fmap, Hr. simpl.
      rewrite decide_False by by apply full_rows_empty_not_owned.
      f_equal. apply to_int32_small, Hofit. by eapply list_elem_of_lookup_2.
Qed.

Lemma C7_nonzero_counts_witness :
  num_nonzeros pattern_counts
  = sum_sizes (_diagonal pattern_counts)
    + sum_sizes (_off_diagonal pattern_counts)
    + global_cols pattern_counts * num_owned_full_rows pattern_counts
  ∧ (∃ d, num_nonzeros_diagonal pattern_counts = Ok d
          ∧ length d = length (_diagonal pattern_counts)
          ∧ ∀ (r : nat) slice, _diagonal pattern_counts !! r = Some slice →
              d !! r = Some (if decide (owned_full_row pattern_counts (Z.of_nat r))
                             then owned_cols pattern_counts
                             else DSet.size slice))
  ∧ (∃ o, num_nonzeros_off_diagonal pattern_counts = Ok o
          ∧ length o = length (_off_diagonal pattern_counts)
          ∧ ∀ (r : nat) slice, _off_diagonal pattern_counts !! r = Some slice →
              o !! r = Some (if decide (owned_full_row pattern_counts (Z.of_nat r))
                             then global_cols pattern_counts
                                  - owned_cols pattern_counts
                             else DSet.size slice)).
Proof.
  destruct (C7_nonzero_counts pattern_counts) as [Hsum Hrows].
  split; [exact Hsum|]. apply Hrows.
  split; unfold fits_int32, owned_full_row; simpl.
  - intros r [->%list_elem_of_singleton _]. vm_compute. intuition congruence.
  - intros slice Hs. repeat (apply elem_of_cons in Hs as [->|Hs]);
      [vm_compute; intuition congruence..|by apply elem_of_nil in Hs].
  - intros slice Hs. repeat (apply elem_of_cons in Hs as [->|Hs]);
      [vm_compute; intuition congruence..|by apply elem_of_nil in Hs].
  - vm_compute. intuition congruence.
  - vm_compute. intuition congruence.
Defined.

(** On a process that owns 3000000000 column elements, the one owned
    row, marked full, is counted by [num_nonzeros_diagonal] as
    -1294967296: the count does not fit the 32-bit entry it is stored
    in. *)
Lemma C7_full_row_count_wraps :
  owned_full_row pattern_wide 0
  ∧ _diagonal pattern_wide = [[]]
  ∧ owned_cols pattern_wide = 3000000000
  ∧ num_nonzeros_diagonal pattern_wide = Ok [-1294967296]
  ∧ ¬ ∃ d, num_nonzeros_diagonal pattern_wide = Ok d
           ∧ d !! 0%nat = Some (owned_cols pattern_wide).
Proof.
  split_and!; [|reflexivity..|].
  - unfold owned_full_row. split; [by left|]. vm_compute. intuition congruence.
  - intros (d & Hd & H0).
    assert (d = [-1294967296]) as -> by (vm_compute in Hd; congruence).
    vm_compute in H0. congruence.
Qed.

(** ** Finalisation twice (C9) *)

Lemma set_non_local_empty s :
  _non_local s = [] → set_non_local (λ _, []) s = s.
Proof. destruct s. simpl. by intros ->. Qed.

(** [apply] ends normally only through its last statement, the clearing
    of the buffer. *)
Lemma apply_clears oracle s s' :
  apply oracle s = (Ok tt, s') → _non_local s' = [].
Proof.
  unfold apply. run_step. rewrite run_bind.
  match goal with |- context [match ?m s with _ => _ end] =>
    destruct (m s) as [[[]| |] s1] end; [|done..].
  rewrite run_modify. by intros [= <-].
Qed.

Lemma non_local_send_empty s :
  _non_local s = [] →
  non_local_send s = Ok (replicate (Z.to_nat (MPI.size (_mpi_comm s))) []).
Proof. unfold non_local_send. by intros ->. Qed.

(** With an empty buffer and nothing received, [apply] changes nothing. *)
Lemma apply_nothing oracle s :
  _non_local s = [] →
  oracle (replicate (Z.to_nat (MPI.size (_mpi_comm s))) []) = [] →
  apply oracle s = (Ok tt, s).
Proof.
  intros Hbuf Hrecv. unfold apply. run_step. case_bool_decide.
  - rewrite Hbuf, non_local_send_empty by done. run_simpl.
    rewrite Hrecv. run_simpl. simpl. run_simpl.
    by rewrite set_non_local_empty.
  - run_simpl. by rewrite set_non_local_empty.
Qed.

Lemma outgoing_empty s q : _non_local s = [] → outgoing s !!! q = [].
Proof.
  intros Hbuf. unfold outgoing. case_bool_decide; [|done].
  rewrite non_local_send_empty by done.
  destruct (decide (q < Z.to_nat (MPI.size (_mpi_comm s))))%nat.
  - by rewrite lookup_total_replicate_2.
  - rewrite list_lookup_total_alt, lookup_ge_None_2; [done|].
    rewrite length_replicate. lia.
Qed.

Lemma all_to_all_empty procs q :
  Forall (λ s, _non_local s = []) procs →
  all_to_all (outgoing <$> procs) q = [].
Proof.
  unfold all_to_all. induction 1 as [|s procs Hs _ IH]; [done|].
  rewrite !fmap_cons, outgoing_empty by done. exact IH.
Qed.

(** C9.  When every process returns from [apply], every non-local buffer
    is empty, and a second collective [apply] returns on every process
    with the pattern (diagonal sets, off-diagonal sets, full-row set and
    buffer) unchanged. *)
Theorem C9_apply_twice procs finals :
  all_ok (apply_all procs) finals →
  Forall (λ s, _non_local s = []) finals
  ∧ all_ok (apply_all finals) finals.
Proof.
  unfold all_ok. intros Hok.
  assert (Forall (λ s, _non_local s = []) finals) as Hempty.
  { apply Forall_lookup. intros q f Hf.
    assert (apply_all procs !! q = Some (Ok tt, f)) as Hq
      by by rewrite Hok, list_lookup_fmap, Hf.
    unfold apply_all in Hq. rewrite list_lookup_imap in Hq.
    destruct (procs !! q) as [p|]; [|done]. simpl in Hq.
    injection Hq as Hq. by eapply apply_clears. }
  split; [done|].
  unfold apply_all. apply list_eq. intros q.
  rewrite list_lookup_imap, list_lookup_fmap.
  destruct (finals !! q) as [f|] eqn:Hf; [|done]. simpl. f_equal.
  apply apply_nothing.
  - by eapply Forall_lookup_1 in Hempty.
  - by apply all_to_all_empty.
Qed.

Lemma C9_apply_twice_witness :
  Forall (λ s, _non_local s = []) exchange_finals
  ∧ all_ok (apply_all exchange_finals) exchange_finals.
Proof.
  apply (C9_apply_twice exchange_procs exchange_finals).
  vm_compute. reflexivity.
Defined.

(** ** Blocks as sets of entries *)

Lemma entry_alter (f : DSet.t → DSet.t) (P : Z → Prop) i v r c :
  0 ≤ i →
  (∀ row x, x ∈ f row ↔ x ∈ row ∨ P x) →
  entry (alter f (Z.to_nat i) v) r c
  ↔ entry v r c ∨ (r = i ∧ i < vsize v ∧ P c).
Proof.
  intros Hi Hf. unfold entry, vsize.
  destruct (decide (0 ≤ r)) as [Hr|Hr]; [|intuition lia].
  destruct (decide (r = i)) as [->|Hne].
  - rewrite list_lookup_alter_eq. destruct (v !! Z.to_nat i) as [row|] eqn:Hrow.
    + apply lookup_lt_Some in Hrow as Hlt. simpl. split.
      * intros (_ & row' & [= <-] & Hc). apply Hf in Hc as [Hc|Hc].
        -- left. eauto.
        -- right. split_and!; [done|lia|done].
      * intros [(_ & row' & [= <-] & Hc)|(_ & _ & Hc)];
          (split; [done|]); eexists; (split; [done|]); apply Hf; auto.
    + apply lookup_ge_None in Hrow. simpl. split.
      * by intros (_ & row' & [=] & _).
      * intros [(_ & row' & [=] & _)|(_ & Hlt & _)]. lia.
  - rewrite list_lookup_alter_ne by lia. tauto.
Qed.

Lemma entry_row_insert i x v r c :
  0 ≤ i →
  entry (row_insert i x v) r c ↔ entry v r c ∨ (r = i ∧ i < vsize v ∧ c = x).
Proof.
  intros Hi. unfold row_insert.
  apply (entry_alter _ (λ c, c = x)); [done|].
  intros row y. rewrite DSet_elem_of_insert. tauto.
Qed.

Lemma Forall_NoDup_alter (f : DSet.t → DSet.t) i (v : list DSet.t) :
  (∀ row, NoDup row → NoDup (f row)) →
  Forall NoDup v → Forall NoDup (alter f i v).
Proof.
  intros Hf Hv. apply Forall_lookup. intros j row.
  destruct (decide (j = i)) as [->|Hne].
  - rewrite list_lookup_alter_eq. destruct (v !! i) eqn:Hvi; [|done].
    intros [= <-]. apply Hf. by eapply Forall_lookup_1 in Hv.
  - rewrite list_lookup_alter_ne by done. intros Hj.
    by eapply Forall_lookup_1 in Hv.
Qed.

Lemma entry_sequential_rows rows cs v r c :
  Forall (λ r, 0 ≤ r < vsize v) rows →
  entry (sequential_rows rows cs v) r c
  ↔ entry v r c ∨ (r ∈ rows ∧ c ∈ cs).
Proof.
  unfold sequential_rows. revert v.
  induction rows as [|i rows IH]; intros v Hrows; simpl.
  { rewrite elem_of_nil. tauto. }
  apply Forall_cons in Hrows as [Hi Hrows].
  rewrite IH.
  - rewrite (entry_alter _ (λ c, c ∈ cs)), elem_of_cons; [|lia|].
    + intuition lia.
    + intros row x. rewrite DSet_elem_of_insert_range. tauto.
  - eapply Forall_impl; [done|]. unfold vsize. intros ?.
    by rewrite length_alter.
Qed.

Lemma length_sequential_rows rows cs v :
  length (sequential_rows rows cs v) = length v.
Proof.
  unfold sequential_rows. revert v.
  induction rows as [|i rows IH]; intros v; simpl; [done|].
  by rewrite IH, length_alter.
Qed.

Lemma NoDup_sequential_rows rows cs v :
  Forall NoDup v → Forall NoDup (sequential_rows rows cs v).
Proof.
  unfold sequential_rows. revert v.
  induction rows as [|i rows IH]; intros v Hv; simpl; [done|].
  apply IH, Forall_NoDup_alter; [|done].
  intros row. apply DSet_NoDup_insert_range.
Qed.

(** ** Insertion on one process (C2) *)

Lemma run_sequential_loop s0 cols rows i0 s :
  _full_rows s0 = [] →
  Forall (λ r, 0 ≤ r < vsize (_diagonal s)) rows →
  for_index (insert_row_sequential s0 cols) i0 rows s
  = (Ok tt, set_diagonal (sequential_rows rows (to_size_t <$> cols)) s).
Proof.
  intros Hfull. revert i0 s.
  induction rows as [|r rows IH]; intros i0 s Hrows.
  { by destruct s. }
  apply Forall_cons in Hrows as [Hr Hrows].
  cbn [for_index]. rewrite run_bind.
  assert (insert_row_sequential s0 cols i0 r s
          = (Ok tt, set_diagonal
                      (alter (DSet.insert_range (to_size_t <$> cols))
                             (Z.to_nat r)) s)) as ->.
  { unfold insert_row_sequential. run_step.
    rewrite (bool_decide_eq_true_2 (r < _)) by lia. run_simpl.
    rewrite Hfull. simpl.
    unfold diagonal_insert_range, inside.
    by rewrite bool_decide_eq_true_2 by lia. }
  rewrite IH; [done|]. simpl.
  eapply Forall_impl; [done|]. unfold vsize. intros ?.
  by rewrite length_alter.
Qed.

Lemma run_insert_global_sequential rows cols s :
  MPI.size (_mpi_comm s) = 1 →
  _full_rows s = [] →
  Forall (λ r, 0 ≤ r < vsize (_diagonal s)) rows →
  insert_global rows cols s
  = (Ok tt, set_diagonal (sequential_rows rows (to_size_t <$> cols)) s).
Proof.
  intros Hsz Hfull Hrows. unfold insert_global, insert_entries. run_step.
  rewrite bool_decide_eq_true_2 by done.
  by apply run_sequential_loop.
Qed.

Lemma elem_of_inserted (cs : calls) r c :
  (r, c) ∈ inserted cs ↔ ∃ rc, rc ∈ cs ∧ r ∈ rc.1 ∧ c ∈ rc.2.
Proof.
  unfold inserted. rewrite list_elem_of_bind. split.
  - intros (rc & Hrc & Hin). exists rc. split; [done|].
    apply list_elem_of_bind in Hrc as (r' & Hr' & Hr).
    apply list_elem_of_bind in Hr' as (c' & Hc' & Hc).
    apply list_elem_of_singleton in Hc' as [= -> ->]. done.
  - intros (rc & Hin & Hr & Hc). exists rc. split; [|done].
    apply list_elem_of_bind. exists r. split; [|done].
    apply list_elem_of_bind. exists c. split; [|done].
    by apply list_elem_of_singleton.
Qed.

Lemma inserted_cons rc (cs : calls) r c :
  (r, c) ∈ inserted (rc :: cs)
  ↔ (r ∈ rc.1 ∧ c ∈ rc.2) ∨ (r, c) ∈ inserted cs.
Proof.
  rewrite !elem_of_inserted. split.
  - intros (rc' & [->|Hin]%elem_of_cons & Hr & Hc); [by left|].
    right. eauto.
  - intros [[Hr Hc]|(rc' & Hin & Hr & Hc)].
    + exists rc. rewrite elem_of_cons. auto.
    + exists rc'. rewrite elem_of_cons. auto.
Qed.

(** A sequence of calls on one process with no full rows: the run ends
    normally, only the diagonal block changes, and its entries are the
    old ones and the inserted pairs, as [std::size_t] columns. *)
Lemma run_insert_global_calls (cs : calls) s :
  MPI.size (_mpi_comm s) = 1 →
  _full_rows s = [] →
  Forall (λ rc, Forall (λ r, 0 ≤ r < vsize (_diagonal s)) rc.1) cs →
  ∃ d, insert_global_calls cs s = (Ok tt, set_diagonal (λ _, d) s)
       ∧ length d = length (_diagonal s)
       ∧ (Forall NoDup (_diagonal s) → Forall NoDup d)
       ∧ ∀ r c, entry d r c
           ↔ entry (_diagonal s) r c
             ∨ ∃ c', (r, c') ∈ inserted cs ∧ c = to_size_t c'.
Proof.
  unfold insert_global_calls. revert s.
  induction cs as [|rc cs IH]; intros s Hsz Hfull Hrows.
  { exists (_diagonal s). split_and!; [by destruct s|done..|].
    intros r c. split; [auto|]. intros [?|(c' & Hc' & _)]; [done|].
    by apply elem_of_inserted in Hc' as (rc & Hrc%elem_of_nil & _). }
  apply Forall_cons in Hrows as [Hrc Hrows].
  rewrite for_each_cons, run_bind, run_insert_global_sequential by done.
  set (d1 := sequential_rows rc.1 (to_size_t <$> rc.2) (_diagonal s)).
  destruct (IH (set_diagonal (λ _, d1) s)) as (d & Hrun & Hlen & Hnd & Hent);
    [done|done|..].
  { simpl. eapply Forall_impl; [done|]. intros rc' Hrc'. simpl in *.
    eapply Forall_impl; [done|]. intros r. unfold vsize, d1.
    by rewrite length_sequential_rows. }
  exists d. split_and!.
  - exact Hrun.
  - rewrite Hlen. simpl. apply length_sequential_rows.
  - intros Hs. apply Hnd. simpl. by apply NoDup_sequential_rows.
  - intros r c. rewrite Hent. simpl. unfold d1.
    rewrite entry_sequential_rows by done.
    setoid_rewrite inserted_cons. setoid_rewrite list_elem_of_fmap.
    split.
    + intros [[?|(Hr & c' & -> & Hc')]|(c' & Hin & ->)]; eauto 8.
    + intros [?|(c' & [[Hr Hc']|Hin] & ->)]; eauto 8.
Qed.




Lemma sum_sizes_empty n : sum_sizes (replicate n []) = 0.
Proof.
  induction n as [|n IH]; [done|]. unfold sum_sizes in *.
  cbn [replicate foldr]. by rewrite IH.
Qed.

Lemma entry_empty n r c : ¬ entry (replicate n []) r c.
Proof.
  intros (_ & row & Hrow & Hc). apply lookup_replicate in Hrow as [-> _].
  by apply elem_of_nil in Hc.
Qed.





(** ** What the non-local buffer holds (C8) *)

Lemma insert_local_entry_buffer s0 col_map I c s s' :
  insert_local_entry s0 col_map I c s = (Ok tt, s') →
  _non_local s' = _non_local s.
Proof.
  unfold insert_local_entry. rewrite run_bind, run_lift.
  destruct (col_map _ _) as [J| |]; [|done..].
  destruct (_ && _); run_simpl;
    destruct (bool_decide _); run_simpl; try done;
    unfold diagonal_insert, off_diagonal_insert; case_inside; try done;
    by intros [= <-].
Qed.

Lemma insert_local_entries_buffer s0 col_map I cols s s' :
  for_each (insert_local_entry s0 col_map I) cols s = (Ok tt, s') →
  _non_local s' = _non_local s.
Proof.
  revert s. induction cols as [|c cols IH]; intros s.
  { rewrite for_each_nil. by intros [= <-]. }
  rewrite for_each_cons, run_bind.
  destruct (insert_local_entry _ _ _ _ _) as [[[]| |] s1] eqn:H1; [|done..].
  intros H2. rewrite (IH _ H2). by eapply insert_local_entry_buffer.
Qed.

Lemma insert_non_local_entries_buffer s0 col_map I cols s s' :
  for_each (insert_non_local_entry s0 col_map I) cols s = (Ok tt, s') →
  _non_local s'
  = _non_local s
    ++ (c ← cols; match col_map c (_index_maps s0).2 with
                  | Ok J => [to_size_t I; to_size_t J]
                  | _ => []
                  end).
Proof.
  revert s. induction cols as [|c cols IH]; intros s.
  { rewrite for_each_nil. intros [= <-]. by rewrite app_nil_r. }
  rewrite for_each_cons, run_bind, bind_cons.
  unfold insert_non_local_entry at 1.
  rewrite run_bind, run_lift.
  destruct (col_map _ _) as [J| |]; [|done..]. run_simpl.
  intros H2. rewrite (IH _ H2). simpl.
  by rewrite <- !app_assoc.
Qed.

Lemma insert_rows_parallel_buffer s0 row_map col_map rows cols s s' :
  for_each (insert_row_parallel s0 cols row_map col_map) rows s = (Ok tt, s') →
  _non_local s' = _non_local s ++ non_local_pairs s0 row_map col_map rows cols.
Proof.
  unfold non_local_pairs. revert s.
  induction rows as [|r rows IH]; intros s.
  { rewrite for_each_nil. intros [= <-]. by rewrite app_nil_r. }
  rewrite for_each_cons, run_bind, bind_cons.
  destruct (insert_row_parallel _ _ _ _ _ _) as [[[]| |] s1] eqn:H1; [|done..].
  intros H2. rewrite (IH _ H2), app_assoc. f_equal.
  revert H1. unfold insert_row_parallel. rewrite run_bind, run_lift.
  destruct (row_map _ _) as [I| |]; [|done..].
  fold (is_full s0 I). fold (local_size0 s0).
  destruct (is_full s0 I); simpl.
  { rewrite run_ret. intros [= <-]. by rewrite app_nil_r. }
  case_bool_decide.
  - intros ->%insert_local_entries_buffer. by rewrite app_nil_r.
  - apply insert_non_local_entries_buffer.
Qed.




(** ** Growth of the stored blocks *)

Lemma extends_by_refl s : extends_by s s none none.
Proof. split; try done; unfold none; tauto. Qed.

Lemma extends_by_trans s1 s2 s3 D1 O1 D2 O2 :
  extends_by s1 s2 D1 O1 → extends_by s2 s3 D2 O2 →
  extends_by s1 s3 (λ r c, D1 r c ∨ D2 r c) (λ r c, O1 r c ∨ O2 r c).
Proof.
  intros [] []. split; try congruence; try tauto.
  - intros r c. rewrite ext_diag1, ext_diag0. tauto.
  - intros r c. rewrite ext_off1, ext_off0. tauto.
Qed.

Lemma extends_by_iff s s' D O D' O' :
  (∀ r c, D r c ↔ D' r c) → (∀ r c, O r c ↔ O' r c) →
  extends_by s s' D O → extends_by s s' D' O'.
Proof.
  intros HD HO []. split; try done.
  - intros r c. rewrite ext_diag0, HD. done.
  - intros r c. rewrite ext_off0, HO. done.
Qed.

Lemma run_diagonal_insert i x s :
  0 ≤ i < vsize (_diagonal s) →
  ∃ s', diagonal_insert i x s = (Ok tt, s')
        ∧ _non_local s' = _non_local s
        ∧ extends_by s s' (just i x) none.
Proof.
  intros Hi. unfold diagonal_insert, inside.
  rewrite bool_decide_eq_true_2 by done. eexists. split; [done|].
  split; [done|].
  split; simpl; try done.
  - unfold row_insert. by rewrite length_alter.
  - apply Forall_NoDup_alter, DSet_NoDup_insert.
  - intros r c. rewrite entry_row_insert by lia. unfold just.
    intuition lia.
  - unfold none. tauto.
Qed.

Lemma run_off_diagonal_insert i x s :
  0 ≤ i < vsize (_off_diagonal s) →
  ∃ s', off_diagonal_insert i x s = (Ok tt, s')
        ∧ _non_local s' = _non_local s
        ∧ extends_by s s' none (just i x).
Proof.
  intros Hi. unfold off_diagonal_insert, inside.
  rewrite bool_decide_eq_true_2 by done. eexists. split; [done|].
  split; [done|].
  split; simpl; try done.
  - unfold row_insert. by rewrite length_alter.
  - apply Forall_NoDup_alter, DSet_NoDup_insert.
  - unfold none. tauto.
  - intros r c. rewrite entry_row_insert by lia. unfold just.
    intuition lia.
Qed.

(** A loop whose body grows the blocks grows them by the union of what
    the bodies add; [Pre] is what the bodies need of the pattern. *)
Lemma for_index_extends {A} (body : Z → A → SP unit)
    (D O : Z → A → Z → Z → Prop) (Pre : SparsityPattern → Prop) xs i0 s :
  (∀ (j : nat) x s, xs !! j = Some x → Pre s →
     ∃ s', body (i0 + Z.of_nat j) x s = (Ok tt, s')
           ∧ _non_local s' = _non_local s
           ∧ extends_by s s' (D (i0 + Z.of_nat j) x) (O (i0 + Z.of_nat j) x)
           ∧ Pre s') →
  Pre s →
  ∃ s', for_index body i0 xs s = (Ok tt, s')
        ∧ _non_local s' = _non_local s
        ∧ extends_by s s'
            (λ r c, ∃ (j : nat) x, xs !! j = Some x ∧ D (i0 + Z.of_nat j) x r c)
            (λ r c, ∃ (j : nat) x, xs !! j = Some x ∧ O (i0 + Z.of_nat j) x r c)
        ∧ Pre s'.
Proof.
  revert i0 s. induction xs as [|x xs IH]; intros i0 s Hbody Hpre.
  { exists s. split_and!; [done..| |done].
    eapply extends_by_iff, extends_by_refl; unfold none; intros r c;
      (split; [done|]); by intros (j & y & [=] & _). }
  cbn [for_index]. rewrite run_bind.
  destruct (Hbody 0%nat x s) as (s1 & H1 & Hnl1 & Hext1 & Hpre1); [done..|].
  change (Z.of_nat 0) with 0 in H1, Hext1. rewrite Z.add_0_r in H1, Hext1.
  rewrite H1.
  destruct (IH (i0 + 1) s1) as (s' & -> & Hnl & Hext & Hpre'); [|done|].
  { intros j y s2 Hy Hs2. destruct (Hbody (S j) y s2) as (s3 & ?); [done..|].
    exists s3. by replace (i0 + 1 + Z.of_nat j) with (i0 + Z.of_nat (S j))
      by lia. }
  exists s'. split_and!; [done|congruence| |done].
  eapply extends_by_iff, extends_by_trans; [..|exact Hext1|exact Hext];
    intros r c; simpl.
  - split.
    + intros [HD|(j & y & Hy & HD)].
      * exists 0%nat, x. change (Z.of_nat 0) with 0.
        by rewrite Z.add_0_r.
      * exists (S j), y. split; [done|].
        by replace (i0 + Z.of_nat (S j)) with (i0 + 1 + Z.of_nat j) by lia.
    + intros ([|j] & y & Hy & HD).
      * left. injection Hy as ->. change (Z.of_nat 0) with 0 in HD.
        by rewrite Z.add_0_r in HD.
      * right. exists j, y. split; [done|].
        by replace (i0 + Z.of_nat (S j)) with (i0 + 1 + Z.of_nat j) in HD
          by lia.
  - split.
    + intros [HD|(j & y & Hy & HD)].
      * exists 0%nat, x. change (Z.of_nat 0) with 0.
        by rewrite Z.add_0_r.
      * exists (S j), y. split; [done|].
        by replace (i0 + Z.of_nat (S j)) with (i0 + 1 + Z.of_nat j) by lia.
    + intros ([|j] & y & Hy & HD).
      * left. injection Hy as ->. change (Z.of_nat 0) with 0 in HD.
        by rewrite Z.add_0_r in HD.
      * right. exists j, y. split; [done|].
        by replace (i0 + Z.of_nat (S j)) with (i0 + 1 + Z.of_nat j) in HD
          by lia.
Qed.

(** The same for a loop whose bodies may also touch the buffer. *)
Lemma for_each_grows {A} (body : A → SP unit)
    (D O : A → Z → Z → Prop) (Pre : SparsityPattern → Prop) xs s :
  (∀ x s, x ∈ xs → Pre s →
     ∃ s', body x s = (Ok tt, s') ∧ extends_by s s' (D x) (O x) ∧ Pre s') →
  Pre s →
  ∃ s', for_each body xs s = (Ok tt, s')
        ∧ extends_by s s' (λ r c, ∃ x, x ∈ xs ∧ D x r c)
                          (λ r c, ∃ x, x ∈ xs ∧ O x r c)
        ∧ Pre s'.
Proof.
  revert s. induction xs as [|x xs IH]; intros s Hbody Hpre.
  { exists s. split_and!; [done| |done].
    eapply extends_by_iff, extends_by_refl; unfold none; intros r c;
      (split; [done|]); by intros (y & ?%elem_of_nil & _). }
  rewrite for_each_cons, run_bind.
  destruct (Hbody x s) as (s1 & -> & Hext1 & Hpre1);
    [apply elem_of_cons; auto|done|].
  destruct (IH s1) as (s' & -> & Hext & Hpre'); [|done|].
  { intros y s2 Hy. apply Hbody, elem_of_cons. auto. }
  exists s'. split_and!; [done| |done].
  eapply extends_by_iff, extends_by_trans; [..|exact Hext1|exact Hext];
    intros r c; simpl; setoid_rewrite elem_of_cons; split.
  - intros [?|(y & ? & ?)]; eauto.
  - intros (y & [->|?] & ?); eauto.
  - intros [?|(y & ? & ?)]; eauto.
  - intros (y & [->|?] & ?); eauto.
Qed.

Lemma for_each_extends {A} (body : A → SP unit)
    (D O : A → Z → Z → Prop) (Pre : SparsityPattern → Prop) xs s :
  (∀ x s, x ∈ xs → Pre s →
     ∃ s', body x s = (Ok tt, s')
           ∧ _non_local s' = _non_local s
           ∧ extends_by s s' (D x) (O x) ∧ Pre s') →
  Pre s →
  ∃ s', for_each body xs s = (Ok tt, s')
        ∧ _non_local s' = _non_local s
        ∧ extends_by s s' (λ r c, ∃ x, x ∈ xs ∧ D x r c)
                          (λ r c, ∃ x, x ∈ xs ∧ O x r c)
        ∧ Pre s'.
Proof.
  intros Hbody Hpre.
  destruct (for_each_grows body D O
              (λ s', Pre s' ∧ _non_local s' = _non_local s) xs s)
    as (s' & Hrun & Hext & Hpre' & Hnl); [|done|by exists s'].
  intros x s1 Hx [Hpre1 Hnl1].
  destruct (Hbody x s1 Hx Hpre1) as (s2 & ? & ? & ? & ?).
  exists s2. split_and!; [done..|congruence].
Qed.

Lemma run_diagonal_inserts (g : Z → Z) i xs s :
  0 ≤ i < vsize (_diagonal s) →
  ∃ s', for_each (λ c, diagonal_insert i (g c)) xs s = (Ok tt, s')
        ∧ _non_local s' = _non_local s
        ∧ extends_by s s' (λ r c, r = i ∧ ∃ c0, c0 ∈ xs ∧ c = g c0) none.
Proof.
  intros Hi.
  destruct (for_each_extends (λ c, diagonal_insert i (g c))
              (λ x, just i (g x)) (λ _, none)
              (λ s', vsize (_diagonal s') = vsize (_diagonal s)) xs s)
    as (s' & Hrun & Hnl & Hext & _); [|done|].
  { intros x s1 _ Hlen.
    destruct (run_diagonal_insert i (g x) s1) as (s2 & ? & ? & Hext);
      [lia|].
    exists s2. split_and!; [done..|].
    unfold vsize in *. destruct Hext. lia. }
  exists s'. split_and!; [done..|].
  eapply extends_by_iff; [| |exact Hext]; unfold just, none; intros r c.
  - split; [intros (x & ? & -> & ->); eauto|intros (-> & x & ? & ->); eauto].
  - split; [by intros (? & _ & [])|done].
Qed.

Lemma run_off_diagonal_inserts (g : Z → Z) i xs s :
  0 ≤ i < vsize (_off_diagonal s) →
  ∃ s', for_each (λ c, off_diagonal_insert i (g c)) xs s = (Ok tt, s')
        ∧ _non_local s' = _non_local s
        ∧ extends_by s s' none (λ r c, r = i ∧ ∃ c0, c0 ∈ xs ∧ c = g c0).
Proof.
  intros Hi.
  destruct (for_each_extends (λ c, off_diagonal_insert i (g c))
              (λ _, none) (λ x, just i (g x))
              (λ s', vsize (_off_diagonal s') = vsize (_off_diagonal s)) xs s)
    as (s' & Hrun & Hnl & Hext & _); [|done|].
  { intros x s1 _ Hlen.
    destruct (run_off_diagonal_insert i (g x) s1) as (s2 & ? & ? & Hext);
      [lia|].
    exists s2. split_and!; [done..|].
    unfold vsize in *. destruct Hext. lia. }
  exists s'. split_and!; [done..|].
  eapply extends_by_iff; [| |exact Hext]; unfold just, none; intros r c.
  - split; [by intros (? & _ & [])|done].
  - split; [intros (x & ? & -> & ->); eauto|intros (-> & x & ? & ->); eauto].
Qed.

Lemma run_vat {S A} (v : list A) i x (s : S) :
  0 ≤ i → v !! Z.to_nat i = Some x → vat v i s = (Ok x, s).
Proof.
  intros Hi Hx. unfold vat. rewrite Hx. by rewrite bool_decide_eq_true_2.
Qed.

(** ** The block composer (C5, C6) *)

Section merge_facts.
Context (get_global_index : list IndexMap.t → Z → Z → Z).
Context (IndexMap_new : MPI.Comm → Z → list Z → Z → IndexMap.t).

(** The entries a finalised block adds to the composite. *)
Lemma run_merge_block distributed cmaps off col p s :
  _non_local p = [] →
  0 ≤ off →
  off + vsize (_diagonal p) ≤ vsize (_diagonal s) →
  (distributed = true →
   vsize (_diagonal p) ≤ vsize (_off_diagonal p)
   ∧ off + vsize (_diagonal p) ≤ vsize (_off_diagonal s)) →
  ∃ s', merge_block get_global_index distributed cmaps off col p s
        = (Ok tt, s')
        ∧ _non_local s' = _non_local s
        ∧ extends_by s s'
            (λ r c, ∃ c0, entry (_diagonal p) (r - off) c0
                          ∧ c = get_global_index cmaps col c0)
            (λ r c, distributed = true
                    ∧ r - off < vsize (_diagonal p)
                    ∧ ∃ c0, entry (_off_diagonal p) (r - off) c0
                            ∧ c = get_global_index cmaps col c0).
Proof.
  intros Hfin Hoff Hd Ho. unfold merge_block.
  rewrite bool_decide_eq_false_2 by (by intros []). run_step.
  set (body := λ k edges0, _).
  destruct (for_index_extends body
    (λ k edges0 r c, r = k + off
       ∧ ∃ c0, c0 ∈ edges0 ∧ c = get_global_index cmaps col c0)
    (λ k (_ : DSet.t) r c, distributed = true ∧ r = k + off
       ∧ ∃ edges1 c0, _off_diagonal p !! Z.to_nat k = Some edges1
                      ∧ c0 ∈ edges1 ∧ c = get_global_index cmaps col c0)
    (λ s', vsize (_diagonal s') = vsize (_diagonal s)
           ∧ vsize (_off_diagonal s') = vsize (_off_diagonal s))
    (_diagonal p) 0 s) as (s' & Hrun & Hnl & Hext & _); [|done|].
  { intros j edges0 s1 Hj [Hl1 Hl2]. rewrite Z.add_0_l.
    apply lookup_lt_Some in Hj as Hlt. unfold body.
    destruct (run_diagonal_inserts (get_global_index cmaps col)
                (Z.of_nat j + off) edges0 s1)
      as (s2 & Hr2 & Hnl2 & Hext2); [unfold vsize in *; lia|].
    rewrite run_bind, Hr2.
    destruct distributed.
    - destruct Ho as [Ho1 Ho2]; [done|].
      destruct (_off_diagonal p !! j) as [edges1|] eqn:Hj1; last first.
      { apply lookup_ge_None in Hj1. unfold vsize in *. lia. }
      rewrite run_bind, (run_vat _ _ edges1)
        by (by rewrite ?Nat2Z.id; try lia).
      destruct (run_off_diagonal_inserts (get_global_index cmaps col)
                  (Z.of_nat j + off) edges1 s2)
        as (s3 & Hr3 & Hnl3 & Hext3).
      { destruct Hext2. unfold vsize in *. lia. }
      exists s3. split_and!; [done|congruence| |..].
      + eapply extends_by_iff, extends_by_trans;
          [..|exact Hext2|exact Hext3]; unfold none; intros r c; simpl.
        * tauto.
        * rewrite Nat2Z.id. split.
          -- intros [[]|(-> & c0 & ? & ->)]. eauto 8.
          -- intros (_ & -> & e & c0 & He & ? & ->). right.
             split; [done|]. exists c0. split; [|done]. congruence.
      + destruct Hext2, Hext3. unfold vsize in *. lia.
      + destruct Hext2, Hext3. unfold vsize in *. lia.
    - rewrite run_ret. exists s2. split_and!; [done..| | |].
      + eapply extends_by_iff; [| |exact Hext2]; unfold none; intros r c.
        * done.
        * split; [done|]. by intros [[=] _].
      + destruct Hext2. unfold vsize in *. lia.
      + destruct Hext2. unfold vsize in *. lia. }
  exists s'. split_and!; [done..|].
  eapply extends_by_iff; [| |exact Hext]; intros r c; unfold entry.
  - split.
    + intros (j & edges0 & Hj & -> & c0 & Hc0 & ->). exists c0.
      split; [|done]. split; [lia|]. exists edges0.
      by replace (Z.to_nat (0 + Z.of_nat j + off - off)) with j by lia.
    + intros (c0 & (Hr & edges0 & Hj & Hc0) & ->).
      exists (Z.to_nat (r - off)), edges0. split; [done|].
      split; [lia|]. eauto.
  - split.
    + intros (j & e0 & Hj & Hdist & -> & edges1 & c0 & Hj1 & Hc0 & ->).
      apply lookup_lt_Some in Hj. split; [done|].
      split; [unfold vsize; lia|]. exists c0. split; [|done].
      split; [lia|]. exists edges1.
      split; [|done]. rewrite <- Hj1. f_equal. lia.
    + intros (Hdist & Hlt & c0 & (Hr & edges1 & Hj1 & Hc0) & ->).
      destruct (_diagonal p !! Z.to_nat (r - off)) as [edges0|] eqn:Hj.
      2:{ apply lookup_ge_None in Hj. unfold vsize in *. lia. }
      exists (Z.to_nat (r - off)), edges0. split; [done|].
      split; [done|]. split; [lia|]. exists edges1, c0.
      split; [|done]. rewrite <- Hj1. f_equal. lia.
Qed.

End merge_facts.

Section merge_rows_facts.
Context (get_global_index : list IndexMap.t → Z → Z → Z).
Context (IndexMap_new : MPI.Comm → Z → list Z → Z → IndexMap.t).



(** The blocks of a block row, all finalised. *)
Lemma run_merge_row distributed cmaps off prow n s :
  (∀ p, p ∈ prow → _non_local p = [] ∧ vsize (_diagonal p) = n
                   ∧ (distributed = true → vsize (_off_diagonal p) = n)) →
  0 ≤ off →
  off + n ≤ vsize (_diagonal s) →
  (distributed = true → off + n ≤ vsize (_off_diagonal s)) →
  ∃ s', for_index (merge_block get_global_index distributed cmaps off) 0 prow s
        = (Ok tt, s')
        ∧ _non_local s' = _non_local s
        ∧ extends_by s s'
            (λ r c, ∃ (col : nat) p c0,
               prow !! col = Some p ∧ entry (_diagonal p) (r - off) c0
               ∧ c = get_global_index cmaps (Z.of_nat col) c0)
            (λ r c, distributed = true
               ∧ ∃ (col : nat) p c0,
                   prow !! col = Some p ∧ entry (_off_diagonal p) (r - off) c0
                   ∧ c = get_global_index cmaps (Z.of_nat col) c0).
Proof.
  intros Hwf Hoff Hd Ho.
  destruct (for_index_extends
    (merge_block get_global_index distributed cmaps off)
    (λ col p r c, ∃ c0, entry (_diagonal p) (r - off) c0
                        ∧ c = get_global_index cmaps col c0)
    (λ col p r c, distributed = true ∧ r - off < vsize (_diagonal p)
                  ∧ ∃ c0, entry (_off_diagonal p) (r - off) c0
                          ∧ c = get_global_index cmaps col c0)
    (λ s', vsize (_diagonal s') = vsize (_diagonal s)
           ∧ vsize (_off_diagonal s') = vsize (_off_diagonal s))
    prow 0 s) as (s' & Hrun & Hnl & Hext & _); [|done|].
  { intros col p s1 Hp [Hl1 Hl2].
    destruct (Hwf p) as (Hfin & Hpd & Hpo); [by eapply list_elem_of_lookup_2|].
    destruct (run_merge_block get_global_index distributed cmaps off
                (0 + Z.of_nat col) p s1) as (s2 & ? & ? & Hext);
      [done|done|lia|..].
    { intros Hdist. specialize (Hpo Hdist). specialize (Ho Hdist). lia. }
    exists s2. split_and!; [done..| |]; destruct Hext; unfold vsize in *; lia. }
  exists s'. split_and!; [done..|].
  eapply extends_by_iff; [| |exact Hext]; intros r c.
  - split; [intros (col & p & Hp & c0 & ? & Hc)|
            intros (col & p & c0 & Hp & ? & Hc)];
      rewrite ?Z.add_0_l in *; eauto 8.
  - split.
    + intros (col & p & Hp & Hdist & _ & c0 & ? & Hc).
      rewrite Z.add_0_l in Hc. eauto 8.
    + intros (Hdist & col & p & c0 & Hp & Hent & Hc).
      exists col, p. split; [done|]. split; [done|].
      split; [|exists c0; by rewrite Z.add_0_l].
      destruct (Hwf p) as (_ & Hpd & Hpo); [by eapply list_elem_of_lookup_2|].
      unfold entry in Hent.
      destruct Hent as (? & row & Hrow%lookup_lt_Some & _).
      specialize (Hpo Hdist). unfold vsize in *. lia.
Qed.

End merge_rows_facts.

Lemma entry_resize_by n v r c : entry (resize_by n v) r c ↔ entry v r c.
Proof.
  unfold entry, resize_by. split; intros (Hr & row & Hrow & Hc);
    (split; [done|]); exists row; (split; [|done]).
  - apply lookup_app_Some in Hrow as [?|[_ Hrow]]; [done|].
    apply lookup_replicate in Hrow as [-> _]. by apply elem_of_nil in Hc.
  - by apply lookup_app_l_Some.
Qed.

Lemma length_resize_by n v : 0 ≤ n → vsize (resize_by n v) = vsize v + n.
Proof.
  intros Hn. unfold vsize, resize_by. rewrite length_app, length_replicate.
  lia.
Qed.

Lemma NoDup_resize_by n v : Forall NoDup v → Forall NoDup (resize_by n v).
Proof.
  intros Hv. apply Forall_app. split; [done|].
  apply Forall_replicate. constructor.
Qed.

Section merge_grid_facts.
Context (get_global_index : list IndexMap.t → Z → Z → Z).
Context (IndexMap_new : MPI.Comm → Z → list Z → Z → IndexMap.t).

(** One block row whose blocks are all finalised: the storage grows by
    the rows of the block row, which receive the re-based entries of its
    blocks, and the loop goes on with the next block row. *)
Lemma merge_rows_step distributed cmaps off prow rest s :
  block_row_wf distributed prow →
  (∀ p, p ∈ prow → _non_local p = []) →
  vsize (_diagonal s) = off →
  (distributed = true → vsize (_off_diagonal s) = off) →
  ∃ n s4,
    merge_rows get_global_index distributed cmaps off (prow :: rest) s
    = merge_rows get_global_index distributed cmaps (off + n) rest s4
    ∧ (∀ p, p ∈ prow → vsize (_diagonal p) = n)
    ∧ vsize (_diagonal s4) = off + n
    ∧ (distributed = true → vsize (_off_diagonal s4) = off + n)
    ∧ (distributed = false
       → vsize (_off_diagonal s4) = vsize (_off_diagonal s))
    ∧ _non_local s4 = _non_local s
    ∧ _mpi_comm s4 = _mpi_comm s
    ∧ _full_rows s4 = _full_rows s
    ∧ (Forall NoDup (_diagonal s) → Forall NoDup (_diagonal s4))
    ∧ (∀ r c, entry (_diagonal s4) r c
         ↔ entry (_diagonal s) r c
           ∨ ∃ (col : nat) p c0,
               prow !! col = Some p ∧ entry (_diagonal p) (r - off) c0
               ∧ c = get_global_index cmaps (Z.of_nat col) c0).
Proof.
  intros (p0 & Hp0 & Hwf) Hfin Hd Ho.
  set (n := IndexMap.size (_index_maps p0).1 IndexMap.OWNED) in *.
  assert (p0 ∈ prow) as Hin0 by by eapply list_elem_of_lookup_2.
  assert (0 ≤ n) as Hn.
  { destruct (Hwf p0 Hin0) as [<- _]. unfold vsize. lia. }
  assert (0 ≤ off) as Hoff by (unfold vsize in Hd; lia).
  cbn [merge_rows]. rewrite run_bind, (run_vat _ _ p0) by done.
  fold n. rewrite run_bind.
  rewrite bool_decide_eq_true_2 by (by destruct (Hwf p0 Hin0) as [-> _]).
  rewrite run_assert_true, run_bind, run_modify.
  set (s1 := set_diagonal (resize_by n) s).
  assert (∃ s2,
    (if distributed
     then assert (bool_decide (n = vsize (_off_diagonal p0)));;
          modify (set_off_diagonal (resize_by n))
     else mret ()) s1 = (Ok tt, s2)
    ∧ _diagonal s2 = resize_by n (_diagonal s)
    ∧ (distributed = true → _off_diagonal s2 = resize_by n (_off_diagonal s))
    ∧ (distributed = false → _off_diagonal s2 = _off_diagonal s)
    ∧ _non_local s2 = _non_local s ∧ _mpi_comm s2 = _mpi_comm s
    ∧ _full_rows s2 = _full_rows s) as (s2 & Hs2 & Hd2 & Ho2 & Ho2' & ? & ? & ?).
  { destruct distributed.
    - destruct (Hwf p0 Hin0) as [_ Hpo]. rewrite run_bind.
      rewrite bool_decide_eq_true_2 by (by rewrite Hpo).
      rewrite run_assert_true, run_modify. eexists. by split_and!.
    - rewrite run_ret. exists s1. by split_and!. }
  rewrite run_bind, Hs2.
  destruct (run_merge_row get_global_index distributed cmaps off prow n s2)
    as (s4 & Hrow & Hnl4 & Hext); [|done|..].
  { intros p Hp. destruct (Hwf p Hp). auto. }
  { rewrite Hd2, length_resize_by by done. lia. }
  { intros Hdist. rewrite Ho2, length_resize_by by done.
    specialize (Ho Hdist). lia. }
  rewrite run_bind, Hrow. exists n, s4. destruct Hext.
  split_and!; try congruence.
  - intros p Hp. by destruct (Hwf p Hp).
  - unfold vsize. rewrite ext_diag_length0. fold (vsize (_diagonal s2)).
    rewrite Hd2, length_resize_by by done. lia.
  - intros Hdist. unfold vsize. rewrite ext_off_length0.
    fold (vsize (_off_diagonal s2)).
    rewrite Ho2, length_resize_by by done. specialize (Ho Hdist). lia.
  - intros Hdist. specialize (Ho2' Hdist). unfold vsize. congruence.
  - intros Hs. apply ext_diag_NoDup0. rewrite Hd2. by apply NoDup_resize_by.
  - intros r c. rewrite ext_diag0, Hd2, entry_resize_by. done.
Qed.


End merge_grid_facts.





(** C6, amended.  For finalised sub-patterns on one process whose index
    maps have block size one, of sizes (m1,n1), (m1,n2) / (m2,n1),
    (m2,n2), the merge constructor completes with a pattern of m1+m2 rows
    and n1+n2 columns; row k < m1 of its diagonal block holds the columns
    of row k of block (0,0) and the columns of row k of block (0,1)
    shifted by n1, and row k >= m1 holds those of row k-m1 of blocks
    (1,0) and (1,1) likewise. *)
Theorem C6_merge_2x2 comm m1 m2 n1 n2 A B C D :
  MPI.size comm = 1 →
  serial_block m1 n1 A → serial_block m1 n2 B →
  serial_block m2 n1 C → serial_block m2 n2 D →
  ∃ s, SparsityPattern_merge get_global_index_serial IndexMap_new_serial
         comm [[A; B]; [C; D]] = (Ok tt, s)
       ∧ vsize (_diagonal s) = m1 + m2
       ∧ local_size0 s = m1 + m2
       ∧ global_cols s = n1 + n2
       ∧ (∀ k c, 0 ≤ k < m1 →
            entry (_diagonal s) k c
            ↔ entry (_diagonal A) k c
              ∨ ∃ c0, entry (_diagonal B) k c0 ∧ c = c0 + n1)
       ∧ (∀ k c, m1 ≤ k < m1 + m2 →
            entry (_diagonal s) k c
            ↔ entry (_diagonal C) (k - m1) c
              ∨ ∃ c0, entry (_diagonal D) (k - m1) c0 ∧ c = c0 + n1).
Proof.
  intros Hsz (HmA & HdA & HfA) (HmB & HdB & HfB) (HmC & HdC & HfC)
         (HmD & HdD & HfD).
  assert (0 ≤ m1 ∧ 0 ≤ m2) as [Hm1 Hm2] by (unfold vsize in *; lia).
  unfold SparsityPattern_merge, merge_body.
  rewrite Hsz. change (bool_decide (1 < 1)) with false.
  (* the sizes *)
  cbn [row_sizes]. rewrite !run_bind, (run_vat _ _ A) by done.
  rewrite !run_bind, (run_vat _ _ C), run_ret by done.
  rewrite run_bind, (run_vat _ _ [A; B]) by done.
  cbn [col_sizes]. rewrite HmA, HmB, HmC.
  cbn [fst snd app IndexMap.local_range serial_map].
  set (cmaps := [serial_map 1 n1; serial_map 1 n2]).
  set (s0 := under_construction comm).
  (* the first block row *)
  destruct (merge_rows_step get_global_index_serial false cmaps 0 [A; B]
              [[C; D]] s0)
    as (n & s1 & Hstep1 & Hn1 & Hd1 & _ & Ho1 & _ & _ & _ & _ & He1);
    [| |done..|].
  { exists A. split; [done|]. rewrite HmA. simpl.
    intros p [->|[->|[]%elem_of_nil]%elem_of_cons]%elem_of_cons; done. }
  { intros p [->|[->|[]%elem_of_nil]%elem_of_cons]%elem_of_cons; done. }
  assert (n = m1) as -> by (rewrite <- (Hn1 A), HdA; [done|by left]).
  (* the second block row *)
  destruct (merge_rows_step get_global_index_serial false cmaps (0 + m1)
              [C; D] [] s1)
    as (n & s2 & Hstep2 & Hn2 & Hd2 & _ & Ho2 & _ & _ & _ & _ & He2);
    [| |done..|].
  { exists C. split; [done|]. rewrite HmC. simpl.
    intros p [->|[->|[]%elem_of_nil]%elem_of_cons]%elem_of_cons; done. }
  { intros p [->|[->|[]%elem_of_nil]%elem_of_cons]%elem_of_cons; done. }
  assert (n = m2) as -> by (rewrite <- (Hn2 C), HdC; [done|by left]).
  rewrite run_bind, Hstep1, Hstep2. cbn [merge_rows]. rewrite run_ret.
  rewrite run_bind, (run_vat _ _ A), run_modify by done.
  eexists. split; [done|]. simpl.
  unfold local_size0, global_cols. simpl.
  assert (∀ c, get_global_index_serial cmaps 0 c = c) as Hg0.
  { intros c. unfold get_global_index_serial. simpl. lia. }
  assert (∀ c, get_global_index_serial cmaps 1 c = c + n1) as Hg1.
  { intros c. unfold get_global_index_serial. simpl. lia. }
  split_and!; [lia..| |].
  - intros k c Hk. rewrite He2, He1. split.
    + intros [[Hent|(col & p & c0 & Hp & Hent & ->)]
             |(col & p & c0 & Hp & Hent & ->)].
      * by destruct Hent as (_ & row & [=] & _).
      * rewrite Z.sub_0_r in Hent.
        destruct col as [|[|col]]; [| |done]; injection Hp as <-.
        -- left. by rewrite Hg0.
        -- right. exists c0. by rewrite Hg1.
      * exfalso. unfold entry in Hent. lia.
    + intros [Hent|(c0 & Hent & ->)]; left; right.
      * exists 0%nat, A, c. by rewrite Z.sub_0_r, Hg0.
      * exists 1%nat, B, c0. by rewrite Z.sub_0_r, Hg1.
  - intros k c Hk. rewrite He2, He1. rewrite Z.add_0_l. split.
    + intros [[Hent|(col & p & c0 & Hp & Hent & ->)]
             |(col & p & c0 & Hp & Hent & ->)].
      * by destruct Hent as (_ & row & [=] & _).
      * exfalso. rewrite Z.sub_0_r in Hent.
        destruct col as [|[|col]]; [| |done]; injection Hp as <-;
          destruct Hent as (_ & row & Hrow%lookup_lt_Some & _);
          unfold vsize in *; lia.
      * destruct col as [|[|col]]; [| |done]; injection Hp as <-.
        -- left. by rewrite Hg0.
        -- right. exists c0. by rewrite Hg1.
    + intros [Hent|(c0 & Hent & ->)]; right.
      * exists 0%nat, C, c. by rewrite Hg0.
      * exists 1%nat, D, c0. by rewrite Hg1.
Qed.

Lemma C6_merge_2x2_witness :
  ∃ s, SparsityPattern_merge get_global_index_serial IndexMap_new_serial
         (MPI.mk 1 0) [[block_A; block_B]; [block_C; block_D]] = (Ok tt, s)
       ∧ vsize (_diagonal s) = 2 + 1
       ∧ local_size0 s = 2 + 1
       ∧ global_cols s = 3 + 2
       ∧ (∀ k c, 0 ≤ k < 2 →
            entry (_diagonal s) k c
            ↔ entry (_diagonal block_A) k c
              ∨ ∃ c0, entry (_diagonal block_B) k c0 ∧ c = c0 + 3)
       ∧ (∀ k c, 2 ≤ k < 2 + 1 →
            entry (_diagonal s) k c
            ↔ entry (_diagonal block_C) (k - 2) c
              ∨ ∃ c0, entry (_diagonal block_D) (k - 2) c0 ∧ c = c0 + 3).
Proof.
  apply (C6_merge_2x2 (MPI.mk 1 0) 2 1 3 2 block_A block_B block_C block_D).
  - reflexivity.
  - split_and!; reflexivity.
  - split_and!; reflexivity.
  - split_and!; reflexivity.
  - split_and!; reflexivity.
Defined.

(** C6 as stated fails.  A finalised block on one process whose row
    index map has block size two has two rows for its one owned node;
    the constructor takes the number of owned nodes for the number of
    rows of the block row and stops at its assertion that the two
    agree. *)
Lemma C6_merge_block_size_two :
  vsize (_diagonal block_wide) = 2
  ∧ _non_local block_wide = []
  ∧ (SparsityPattern_merge get_global_index_serial IndexMap_new_serial
       (MPI.mk 1 0) [[block_wide; block_wide]; [block_wide; block_wide]]).1
    = Abort.
Proof. split_and!; vm_compute; reflexivity. Qed.

(** ** Insertion on several processes (C1) *)

Lemma owns_col_bool s J :
  bool_decide (IndexMap.block_size (_index_maps s).2
               * (IndexMap.local_range (_index_maps s).2).1 ≤ J)
  && bool_decide (J < IndexMap.block_size (_index_maps s).2
                      * (IndexMap.local_range (_index_maps s).2).2)
  = bool_decide (owns_col s J).
Proof.
  unfold owns_col. repeat case_bool_decide; simpl; try done; lia.
Qed.

(** A column inserted into a local row. *)
Lemma run_insert_local_entry s0 col_map I c J s :
  col_map c (_index_maps s0).2 = Ok J →
  0 ≤ I < vsize (_diagonal s) → 0 ≤ I < vsize (_off_diagonal s) →
  ∃ s', insert_local_entry s0 col_map I c s = (Ok tt, s')
        ∧ _non_local s' = _non_local s
        ∧ extends_by s s'
            (λ r x, r = I ∧ x = to_size_t J ∧ owns_col s0 J)
            (λ r x, r = I ∧ x = to_size_t J ∧ ¬ owns_col s0 J).
Proof.
  intros HJ Hd Ho. unfold insert_local_entry.
  rewrite run_bind, run_lift, HJ, owns_col_bool.
  case_bool_decide as Hown; run_simpl.
  - rewrite bool_decide_eq_true_2 by lia. run_simpl.
    destruct (run_diagonal_insert I (to_size_t J) s) as (s' & ? & ? & Hext);
      [done|].
    exists s'. split_and!; [done..|].
    eapply extends_by_iff; [| |exact Hext]; unfold just, none; intros r x;
      tauto.
  - rewrite bool_decide_eq_true_2 by lia. run_simpl.
    destruct (run_off_diagonal_insert I (to_size_t J) s)
      as (s' & ? & ? & Hext); [done|].
    exists s'. split_and!; [done..|].
    eapply extends_by_iff; [| |exact Hext]; unfold just, none; intros r x;
      tauto.
Qed.

(** The columns pushed for a non-local row leave the blocks alone. *)
Lemma run_insert_non_local_entries s0 col_map (f_col : Z → Z) I cols s :
  (∀ c, c ∈ cols → col_map c (_index_maps s0).2 = Ok (f_col c)) →
  ∃ s', for_each (insert_non_local_entry s0 col_map I) cols s = (Ok tt, s')
        ∧ extends_by s s' none none.
Proof.
  intros Hcols.
  destruct (for_each_grows (insert_non_local_entry s0 col_map I)
              (λ _, none) (λ _, none) (λ _, True) cols s)
    as (s' & Hrun & Hext & _); [|done|].
  { intros c s1 Hc _. unfold insert_non_local_entry.
    rewrite run_bind, run_lift, Hcols by done. run_simpl.
    eexists. split_and!; [done| |done].
    split; simpl; try done; unfold none; tauto. }
  exists s'. split; [done|].
  eapply extends_by_iff; [| |exact Hext]; unfold none; intros r c;
    (split; [by intros (? & _ & [])|done]).
Qed.

(** A parallel insertion with rows and columns in range: the entries of
    the owned rows are stored, by the ownership of their column. *)
Lemma run_insert_entries_parallel s rows cols row_map col_map
    (f_row f_col : Z → Z) :
  MPI.size (_mpi_comm s) ≠ 1 →
  _full_rows s = [] →
  vsize (_diagonal s) = local_size0 s →
  vsize (_off_diagonal s) = local_size0 s →
  (∀ r, r ∈ rows → row_map r (_index_maps s).1 = Ok (f_row r)
                   ∧ 0 ≤ f_row r) →
  (∀ c, c ∈ cols → col_map c (_index_maps s).2 = Ok (f_col c)) →
  ∃ s', insert_entries rows cols row_map col_map s = (Ok tt, s')
        ∧ extends_by s s'
            (λ r c, ∃ r0 c0, r0 ∈ rows ∧ c0 ∈ cols ∧ r = f_row r0
                             ∧ r < local_size0 s
                             ∧ c = to_size_t (f_col c0)
                             ∧ owns_col s (f_col c0))
            (λ r c, ∃ r0 c0, r0 ∈ rows ∧ c0 ∈ cols ∧ r = f_row r0
                             ∧ r < local_size0 s
                             ∧ c = to_size_t (f_col c0)
                             ∧ ¬ owns_col s (f_col c0)).
Proof.
  intros Hsz Hfull Hd Ho Hrows Hcols. unfold insert_entries. run_step.
  rewrite bool_decide_eq_false_2 by done.
  destruct (for_each_grows (insert_row_parallel s cols row_map col_map)
    (λ r0 r c, ∃ c0, c0 ∈ cols ∧ r = f_row r0 ∧ r < local_size0 s
                     ∧ c = to_size_t (f_col c0) ∧ owns_col s (f_col c0))
    (λ r0 r c, ∃ c0, c0 ∈ cols ∧ r = f_row r0 ∧ r < local_size0 s
                     ∧ c = to_size_t (f_col c0) ∧ ¬ owns_col s (f_col c0))
    (λ s', vsize (_diagonal s') = local_size0 s
           ∧ vsize (_off_diagonal s') = local_size0 s) rows s)
    as (s' & Hrun & Hext & _); [|done|].
  { intros r0 s1 Hr0 [Hd1 Ho1]. destruct (Hrows r0 Hr0) as [HI HI0].
    unfold insert_row_parallel. rewrite run_bind, run_lift, HI, Hfull.
    fold (local_size0 s). simpl.
    case_bool_decide as Hloc.
    - destruct (for_each_extends (insert_local_entry s col_map (f_row r0))
        (λ c0 r c, r = f_row r0 ∧ c = to_size_t (f_col c0)
                   ∧ owns_col s (f_col c0))
        (λ c0 r c, r = f_row r0 ∧ c = to_size_t (f_col c0)
                   ∧ ¬ owns_col s (f_col c0))
        (λ s', vsize (_diagonal s') = local_size0 s
               ∧ vsize (_off_diagonal s') = local_size0 s) cols s1)
        as (s2 & Hrun2 & _ & Hext2 & Hpre2); [|done|].
      { intros c0 s2 Hc0 [Hd2 Ho2].
        destruct (run_insert_local_entry s col_map (f_row r0) c0 (f_col c0)
                    s2) as (s3 & ? & ? & Hext3); [by apply Hcols|lia..|].
        exists s3. split_and!; [done..| |]; destruct Hext3;
          unfold vsize in *; congruence. }
      exists s2. split; [done|]. split; [|done].
      eapply extends_by_iff; [| |exact Hext2]; intros r c; split.
      + intros (c0 & ? & -> & ? & ?). eauto 8.
      + intros (c0 & ? & -> & _ & ? & ?). eauto 8.
      + intros (c0 & ? & -> & ? & ?). eauto 8.
      + intros (c0 & ? & -> & _ & ? & ?). eauto 8.
    - destruct (run_insert_non_local_entries s col_map f_col (f_row r0)
                  cols s1) as (s2 & Hrun2 & Hext2); [done|].
      exists s2. split; [done|]. split.
      + eapply extends_by_iff; [| |exact Hext2]; unfold none; intros r c;
          (split; [done|]); intros (c0 & _ & -> & ? & _); lia.
      + destruct Hext2. unfold vsize in *. lia. }
  exists s'. split; [done|].
  eapply extends_by_iff; [| |exact Hext]; intros r c; split.
  - intros (r0 & ? & c0 & ?). eauto 8.
  - intros (r0 & c0 & ? & ? & ?). eauto 8.
  - intros (r0 & ? & c0 & ?). eauto 8.
  - intros (r0 & c0 & ? & ? & ?). eauto 8.
Qed.

Lemma bind_nil {A B} (f : A → list B) : [] ≫= f = [].
Proof. reflexivity. Qed.

Lemma mapped_cons s o os :
  mapped s (o :: os)
  = (r ← op_rows o; c ← op_cols o; [(mapped_row s o r, mapped_col s o c)])
    ++ mapped s os.
Proof. unfold mapped. by rewrite bind_cons. Qed.

Lemma elem_of_mapped s os r c :
  (r, c) ∈ mapped s os
  ↔ ∃ o r0 c0, o ∈ os ∧ r0 ∈ op_rows o ∧ c0 ∈ op_cols o
               ∧ r = mapped_row s o r0 ∧ c = mapped_col s o c0.
Proof.
  unfold mapped. rewrite list_elem_of_bind. split.
  - intros (o & Hin & Ho). exists o.
    apply list_elem_of_bind in Hin as (r0 & Hin & Hr0).
    apply list_elem_of_bind in Hin as (c0 & Hin & Hc0).
    apply list_elem_of_singleton in Hin as [= -> ->]. eauto 8.
  - intros (o & r0 & c0 & Ho & Hr0 & Hc0 & -> & ->). exists o.
    split; [|done]. apply list_elem_of_bind. exists r0. split; [|done].
    apply list_elem_of_bind. exists c0. split; [|done].
    by apply list_elem_of_singleton.
Qed.

Lemma flat_app l k : flat (l ++ k) = flat l ++ flat k.
Proof. unfold flat. apply bind_app. Qed.

Lemma flat_cons p l : flat (p :: l) = p.1 :: p.2 :: flat l.
Proof. unfold flat. by rewrite bind_cons. Qed.

Lemma ghost_pairs_cons s o os :
  ghost_pairs s (o :: os) = ghost_pairs s [o] ++ ghost_pairs s os.
Proof.
  unfold ghost_pairs. rewrite !mapped_cons, !filter_app.
  unfold mapped. by rewrite bind_nil, filter_nil, app_nil_r.
Qed.

(** The pairs pushed by an operation in range, as the pairs on ghost
    rows. *)
Lemma non_local_pairs_ghost s o row_map col_map :
  _full_rows s = [] →
  (∀ r, r ∈ op_rows o → row_map r (_index_maps s).1 = Ok (mapped_row s o r)
                         ∧ 0 ≤ mapped_row s o r < 2 ^ 64) →
  (∀ c, c ∈ op_cols o → col_map c (_index_maps s).2 = Ok (mapped_col s o c)
                         ∧ 0 ≤ mapped_col s o c < 2 ^ 64) →
  non_local_pairs s row_map col_map (op_rows o) (op_cols o)
  = flat (ghost_pairs s [o]).
Proof.
  intros Hfull Hrows Hcols. unfold ghost_pairs.
  rewrite mapped_cons. unfold mapped. rewrite bind_nil, app_nil_r.
  unfold non_local_pairs.
  induction (op_rows o) as [|r rows IH]; [by rewrite !bind_nil|].
  rewrite !bind_cons, filter_app, flat_app, <- IH; clear IH.
  2:{ intros r' Hr'. apply Hrows, elem_of_cons. auto. }
  f_equal. destruct (Hrows r) as [-> Hr]; [apply elem_of_cons; auto|].
  unfold is_full. rewrite Hfull. simpl.
  induction (op_cols o) as [|c cols IH].
  { rewrite !bind_nil. by case_bool_decide. }
  destruct (Hcols c) as [Hc0 Hc]; [apply elem_of_cons; auto|].
  specialize (IH (λ c' Hc', Hcols c' (proj2 (elem_of_cons _ _ _) (or_intror Hc')))).
  case_bool_decide as Hloc.
  - rewrite bind_cons, filter_app.
    rewrite filter_cons_False, filter_nil by (simpl; lia). done.
  - rewrite !bind_cons, filter_app.
    rewrite filter_cons_True, filter_nil by (simpl; lia).
    rewrite Hc0, flat_app, flat_cons, IH. simpl.
    by rewrite !to_size_t_small by done.
Qed.

(** What is read from a pattern through its index maps only. *)
Lemma mapped_maps s p os :
  _index_maps s = _index_maps p → mapped s os = mapped p os.
Proof.
  intros H. unfold mapped, mapped_row, mapped_col, offset0. by rewrite H.
Qed.

Lemma ghost_pairs_maps s p os :
  _index_maps s = _index_maps p → ghost_pairs s os = ghost_pairs p os.
Proof.
  intros H. unfold ghost_pairs, local_size0.
  by rewrite (mapped_maps s p), H.
Qed.

Lemma process_comm bs0 N0 n q p :
  process_wf bs0 N0 n q p → _mpi_comm p = MPI.mk n (Z.of_nat q).
Proof.
  intros [Hfresh _ _ _ _ _]. destruct p. simpl in Hfresh.
  by injection Hfresh as -> _ _ _ _.
Qed.

Lemma process_evolved bs0 N0 n q p :
  process_wf bs0 N0 n q p → 0 < bs0 → evolved p p ∧ _non_local p = [].
Proof.
  intros [Hfresh Hbs [[? ?] ?] Howned _ _] Hbs0.
  assert (0 ≤ local_size0 p) as Hls.
  { unfold local_size0. rewrite Hbs, Howned. nia. }
  assert (_diagonal p = resize_by (local_size0 p) []
          ∧ _off_diagonal p = resize_by (local_size0 p) []
          ∧ _non_local p = [] ∧ _full_rows p = []) as (Hd & Ho & Hnl & Hfr).
  { destruct p. simpl in Hfresh. unfold local_size0. simpl.
    by injection Hfresh as _ -> -> -> ->. }
  split; [split; try done|done].
  - rewrite Hd, length_resize_by by done. unfold vsize. simpl. lia.
  - rewrite Ho, length_resize_by by done. unfold vsize. simpl. lia.
Qed.

(** One operation of a process of the layout. *)
Lemma run_op_parallel bs0 N0 n q p s o :
  process_wf bs0 N0 n q p → 0 < bs0 → bs0 * N0 < 2 ^ 31 → 1 < n →
  evolved p s → op_in_range p o →
  ∃ s', run_op o s = (Ok tt, s')
        ∧ evolved p s'
        ∧ extends_by s s' (own_entries true p [o]) (own_entries false p [o])
        ∧ _non_local s' = _non_local s ++ flat (ghost_pairs p [o]).
Proof.
  intros Hp Hbs0 Hfit Hn [Hcomm Hmaps Hfull Hd Ho] [Hrows Hcols].
  pose proof (process_comm _ _ _ _ _ Hp) as Hpc.
  destruct Hp as [_ Hbs [[Ha Hab] Hb] Howned _ Hgfit].
  assert (local_size0 s = local_size0 p) as Hls
    by (unfold local_size0; by rewrite Hmaps).
  assert (local_size0 p
          = bs0 * ((IndexMap.local_range (_index_maps p).1).2
                   - (IndexMap.local_range (_index_maps p).1).1)) as Hlsp
    by (unfold local_size0; by rewrite Hbs, Howned).
  assert (0 ≤ offset0 p ∧ offset0 p + local_size0 p ≤ bs0 * N0) as Hoff.
  { unfold offset0. rewrite Hlsp, Hbs. nia. }
  assert (∃ row_map col_map,
    run_op o = insert_entries (op_rows o) (op_cols o) row_map col_map
    ∧ (∀ r, r ∈ op_rows o →
         row_map r (_index_maps s).1 = Ok (mapped_row p o r)
         ∧ 0 ≤ mapped_row p o r < 2 ^ 64)
    ∧ (∀ c, c ∈ op_cols o →
         col_map c (_index_maps s).2 = Ok (mapped_col p o c)
         ∧ 0 ≤ mapped_col p o c < 2 ^ 64))
    as (row_map & col_map & Hrun & Hrm & Hcm).
  { destruct o as [rows cols|rows cols|rows cols]; simpl in Hrows, Hcols;
      do 2 eexists; (split; [reflexivity|]); split.
    - intros r Hr. eapply Forall_forall in Hrows; [|done]. simpl.
      rewrite Hmaps. fold (offset0 p). rewrite to_size_t_small by lia.
      replace (IndexMap.block_size (_index_maps p).1
               * (IndexMap.local_range (_index_maps p).1).2)
        with (offset0 p + local_size0 p)
        by (unfold offset0; rewrite Hlsp, Hbs; lia).
      rewrite !bool_decide_eq_true_2 by lia. simpl. split; [done|lia].
    - intros c Hc. eapply Forall_forall in Hcols; [|done]. done.
    - intros r Hr. eapply Forall_forall in Hrows; [|done]. simpl.
      split; [done|]. unfold ghosted_size0 in *. lia.
    - intros c Hc. eapply Forall_forall in Hcols; [|done]. simpl.
      rewrite Hmaps. done.
    - intros r Hr. eapply Forall_forall in Hrows; [|done]. simpl.
      split; [done|]. unfold ghosted_size0 in *. lia.
    - intros c Hc. eapply Forall_forall in Hcols; [|done]. done. }
  rewrite Hrun.
  destruct (run_insert_entries_parallel s (op_rows o) (op_cols o)
              row_map col_map (mapped_row p o) (mapped_col p o))
    as (s' & Hs' & Hext); [rewrite Hcomm, Hpc; simpl; lia|done|lia|lia|..].
  { intros r Hr. destruct (Hrm r Hr). split; [done|lia]. }
  { intros c Hc. by destruct (Hcm c Hc). }
  exists s'. split; [done|]. split_and!.
  - destruct Hext. split; try congruence.
    + unfold vsize in *. congruence.
    + unfold vsize in *. congruence.
  - eapply extends_by_iff; [| |exact Hext]; intros r c;
      unfold own_entries; rewrite elem_of_mapped, Hls;
      unfold owns_col; rewrite Hmaps; split.
    + intros (r0 & c0 & Hr0 & Hc0 & -> & Hlt & -> & Hown).
      rewrite to_size_t_small by (by destruct (Hcm c0 Hc0)).
      split; [|done]. exists o, r0, c0.
      split_and!; try done; try (by apply list_elem_of_singleton).
    + intros ((o' & r0 & c0 & ->%list_elem_of_singleton & Hr0 & Hc0 & -> & ->)
              & Hlt & Hown).
      exists r0, c0.
      rewrite to_size_t_small by (by destruct (Hcm c0 Hc0)).
      by repeat (split; [done|]).
    + intros (r0 & c0 & Hr0 & Hc0 & -> & Hlt & -> & Hown).
      rewrite to_size_t_small by (by destruct (Hcm c0 Hc0)).
      split; [|done]. exists o, r0, c0.
      split_and!; try done; try (by apply list_elem_of_singleton).
    + intros ((o' & r0 & c0 & ->%list_elem_of_singleton & Hr0 & Hc0 & -> & ->)
              & Hlt & Hown).
      exists r0, c0.
      rewrite to_size_t_small by (by destruct (Hcm c0 Hc0)).
      by repeat (split; [done|]).
  - revert Hs'. unfold insert_entries. run_step.
    rewrite bool_decide_eq_false_2 by (rewrite Hcomm, Hpc; simpl; lia).
    intros ->%insert_rows_parallel_buffer. f_equal.
    rewrite <- (ghost_pairs_maps s p) by done.
    apply non_local_pairs_ghost; [done|..].
    + intros r Hr.
      replace (mapped_row s o r) with (mapped_row p o r)
        by (unfold mapped_row, offset0; by rewrite Hmaps).
      apply (Hrm r Hr).
    + intros c Hc.
      replace (mapped_col s o c) with (mapped_col p o c)
        by (unfold mapped_col; by rewrite Hmaps).
      apply (Hcm c Hc).
Qed.

Lemma own_entries_cons b s o os r c :
  own_entries b s (o :: os) r c
  ↔ own_entries b s [o] r c ∨ own_entries b s os r c.
Proof.
  unfold own_entries. rewrite !(mapped_cons s o), elem_of_app.
  unfold mapped at 2. rewrite bind_nil, app_nil_r. tauto.
Qed.

Lemma own_entries_nil b s r c : ¬ own_entries b s [] r c.
Proof. unfold own_entries, mapped. rewrite bind_nil, elem_of_nil. tauto. Qed.

(** The operations of a process of the layout: they all end normally,
    the entries on owned rows are stored and the entries on ghost rows
    are in the buffer, in the order of insertion. *)
Lemma run_ops_parallel bs0 N0 n q p os s :
  process_wf bs0 N0 n q p → 0 < bs0 → bs0 * N0 < 2 ^ 31 → 1 < n →
  evolved p s → Forall (op_in_range p) os →
  ∃ s', run_ops os s = (Ok tt, s')
        ∧ evolved p s'
        ∧ extends_by s s' (own_entries true p os) (own_entries false p os)
        ∧ _non_local s' = _non_local s ++ flat (ghost_pairs p os).
Proof.
  intros Hp Hbs0 Hfit Hn Hev Hos. revert s Hev. unfold run_ops.
  induction Hos as [|o os Ho Hos IH]; intros s Hev.
  { exists s. split_and!; [done..| |].
    - eapply extends_by_iff, extends_by_refl; unfold none; intros r c;
        (split; [done|]); intros H; by apply own_entries_nil in H.
    - change (flat (ghost_pairs p [])) with (@nil Z).
      by rewrite app_nil_r. }
  rewrite for_each_cons, run_bind.
  destruct (run_op_parallel bs0 N0 n q p s o)
    as (s1 & -> & Hev1 & Hext1 & Hnl1); [done..|].
  destruct (IH s1 Hev1) as (s' & -> & Hev' & Hext & Hnl).
  exists s'. split_and!; [done..| |].
  - eapply extends_by_iff, extends_by_trans; [..|exact Hext1|exact Hext];
      intros r c; symmetry; apply own_entries_cons.
  - rewrite Hnl, Hnl1, (ghost_pairs_cons p o os), flat_app.
    by rewrite <- app_assoc.
Qed.

Lemma run_at {St} (a : list Z) i x (s : St) :
  0 ≤ i → a !! Z.to_nat i = Some x → at_ a i s = (Ok x, s).
Proof.
  intros Hi Hx. unfold at_. rewrite Hx. by rewrite bool_decide_eq_true_2.
Qed.

Lemma run_send_push p x b :
  0 ≤ p < vsize b →
  send_push p x b = (Ok tt, alter (λ q, q ++ [x]) (Z.to_nat p) b).
Proof.
  intros Hp. unfold send_push, inside. by rewrite bool_decide_eq_true_2.
Qed.

(** The ghost row [I] of process [q] of the layout: its slot in the
    ghost tables names an owner other than [q], which owns the global
    row of [I]. *)
Lemma ghost_row_owner bs0 N0 procs q p I :
  row_layout bs0 N0 procs → procs !! q = Some p →
  local_size0 p ≤ I < ghosted_size0 p →
  ∃ (o : nat) po g,
    0 ≤ (I - local_size0 p) `div` bs0 < 2 ^ 31
    ∧ IndexMap.ghost_owners (_index_maps p).1 !! ghost_slot p I
      = Some (Z.of_nat o)
    ∧ IndexMap.ghosts (_index_maps p).1 !! ghost_slot p I = Some g
    ∧ o ≠ q ∧ procs !! o = Some po
    ∧ ghost_global p I = bs0 * g + (I - local_size0 p) `mod` bs0
    ∧ offset0 po ≤ ghost_global p I < offset0 po + local_size0 po
    ∧ 0 ≤ ghost_global p I < 2 ^ 31.
Proof.
  intros Hlay Hq HI.
  destruct (lay_proc _ _ _ Hlay q p Hq)
    as [_ Hbs [[Ha Hab] Hb] Howned Howners Hgfit].
  pose proof (lay_bs _ _ _ Hlay) as Hbs0.
  pose proof (lay_fits _ _ _ Hlay) as Hfit.
  unfold ghosted_size0 in *. rewrite Hbs in *.
  assert (local_size0 p = bs0 * IndexMap.size (_index_maps p).1 IndexMap.OWNED)
    as Hls by (unfold local_size0; by rewrite Hbs).
  set (d := I - local_size0 p) in *.
  set (ng := vsize (IndexMap.ghosts (_index_maps p).1)) in *.
  assert (0 ≤ d < bs0 * ng) as Hd by (unfold d; lia).
  assert (0 ≤ d `div` bs0 < ng) as Hslot.
  { split; [apply Z.div_pos; lia|]. apply Z.div_lt_upper_bound; lia. }
  assert (0 ≤ d `mod` bs0 < bs0) as Hmod by (apply Z.mod_pos_bound; lia).
  assert (ghost_slot p I = Z.to_nat (d `div` bs0)) as Hgs
    by (unfold ghost_slot; by rewrite Hbs).
  destruct (IndexMap.ghosts (_index_maps p).1 !! ghost_slot p I)
    as [g|] eqn:Hg.
  2:{ apply lookup_ge_None in Hg. unfold ng, vsize in *. lia. }
  destruct (lay_ghost _ _ _ Hlay q p _ g Hq Hg)
    as (o & po & Ho & Hne & Hpo & Hrange).
  destruct (lay_proc _ _ _ Hlay o po Hpo)
    as [_ Hbso [[Hao Habo] Hbo] Hownedo _ _].
  assert (ghost_global p I = bs0 * g + d `mod` bs0) as HG.
  { unfold ghost_global. rewrite Hbs.
    by rewrite (list_lookup_total_correct _ _ _ Hg). }
  exists o, po, g. split_and!; try done.
  - lia.
  - assert (d `div` bs0 ≤ d) by (apply Z.div_le_upper_bound; nia).
    assert (d < 2 ^ 31) by nia. lia.
  - rewrite HG. unfold offset0. rewrite Hbso. nia.
  - rewrite HG. unfold offset0, local_size0. rewrite Hbso, Hownedo. nia.
  - rewrite HG. nia.
  - rewrite HG. nia.
Qed.

(** A buffered pair on a ghost row goes to the outgoing buffer of the
    owner of the row, with the global row. *)
Lemma run_resolve_entry bs0 N0 procs q p s I J b :
  row_layout bs0 N0 procs → procs !! q = Some p → evolved p s →
  local_size0 p ≤ I < ghosted_size0 p →
  length b = length procs →
  ∃ o : nat,
    ghost_owner p I = Z.of_nat o
    ∧ (o < length procs)%nat
    ∧ resolve_entry s I J b
      = (Ok tt, alter (λ l, l ++ [J]) o
                  (alter (λ l, l ++ [ghost_global p I]) o b)).
Proof.
  intros Hlay Hq [Hcomm Hmaps _ _ _] HI Hlen.
  destruct (ghost_row_owner bs0 N0 procs q p I)
    as (o & po & g & Hslot & Ho & Hg & Hne & Hpo & HG & _ & HG31); [done..|].
  destruct (lay_proc _ _ _ Hlay q p Hq)
    as [Hfresh Hbs [[Ha Hab] Hb] Howned Howners Hgfit].
  pose proof (process_comm _ _ _ _ _ (lay_proc _ _ _ Hlay q p Hq)) as Hpc.
  pose proof (lay_bs _ _ _ Hlay) as Hbs0.
  pose proof (lay_multi _ _ _ Hlay) as Hmulti. unfold vsize in Hmulti.
  apply lookup_lt_Some in Hpo as Holt.
  exists o. split; [|split; [done|]].
  { unfold ghost_owner. by rewrite (list_lookup_total_correct _ _ _ Ho). }
  assert (local_size0 p = bs0 * IndexMap.size (_index_maps p).1 IndexMap.OWNED)
    as Hls by (unfold local_size0; by rewrite Hbs).
  assert (ghost_slot p I = Z.to_nat ((I - local_size0 p) `div` bs0)) as Hgs
    by (unfold ghost_slot; by rewrite Hbs).
  set (d := I - local_size0 p) in *.
  assert (0 ≤ d < 2 ^ 31) as Hd.
  { unfold d, ghosted_size0 in *. rewrite Hbs in *. split; [lia|].
    assert (0 ≤ vsize (IndexMap.ghosts (_index_maps p).1))
      by (unfold vsize; lia). nia. }
  assert (bs0 < 2 ^ 31) as Hbs31.
  { assert (bs0 ≤ d `div` bs0 * bs0 + bs0) by nia.
    unfold ghosted_size0 in *. rewrite Hbs in *.
    assert (0 < IndexMap.size (_index_maps p).1 IndexMap.OWNED
                + vsize (IndexMap.ghosts (_index_maps p).1)); [|nia].
    unfold d in *. nia. }
  unfold resolve_entry. rewrite Hcomm, Hmaps, Hpc, Hbs. simpl MPI.size.
  simpl MPI.rank. rewrite <- Hls. fold d.
  rewrite run_bind, bool_decide_eq_true_2, run_assert_true by lia.
  rewrite run_bind, bool_decide_eq_true_2, run_assert_true by lia.
  rewrite (to_size_t_small d) by lia.
  rewrite (to_int32_small (d `div` bs0)) by lia.
  assert (d `div` bs0 < vsize (IndexMap.ghost_owners (_index_maps p).1)).
  { apply lookup_lt_Some in Ho. unfold vsize. lia. }
  rewrite run_bind, bool_decide_eq_true_2, run_assert_true by lia.
  rewrite run_bind, (run_at _ _ (Z.of_nat o)) by (by rewrite <- ?Hgs; try lia).
  rewrite (to_size_t_small (Z.of_nat o)) by lia.
  rewrite run_bind, bool_decide_eq_true_2, run_assert_true
    by (unfold vsize; lia).
  rewrite run_bind, bool_decide_eq_true_2, run_assert_true by lia.
  rewrite run_bind, bool_decide_eq_false_2 by lia.
  rewrite (to_int32_small d), (to_int32_small bs0) by lia.
  rewrite Z.quot_div_nonneg, Z.rem_mod_nonneg by lia.
  rewrite run_bind, (run_at _ _ g), run_ret by (by rewrite <- ?Hgs; try lia).
  rewrite <- HG, (to_size_t_small (ghost_global p I)) by lia.
  rewrite run_bind, run_send_push by (unfold vsize; lia).
  rewrite run_send_push by (unfold vsize; rewrite length_alter; lia).
  by rewrite Nat2Z.id.
Qed.

Lemma sent_to_cons s pr gl q :
  sent_to s (pr :: gl) q
  = (if bool_decide (ghost_owner s pr.1 = Z.of_nat q)
     then [(ghost_global s pr.1, pr.2)] else [])
    ++ sent_to s gl q.
Proof.
  unfold sent_to. rewrite filter_cons. case_decide.
  - by rewrite bool_decide_eq_true_2.
  - by rewrite bool_decide_eq_false_2.
Qed.

(** The loop over the buffer of a process of the layout fills the
    outgoing buffers with the pairs by destination. *)
Lemma run_resolve_non_local bs0 N0 procs q p s gl b :
  row_layout bs0 N0 procs → procs !! q = Some p → evolved p s →
  Forall (λ pr, local_size0 p ≤ pr.1 < ghosted_size0 p) gl →
  length b = length procs →
  ∃ b', resolve_non_local s (flat gl) b = (Ok tt, b')
        ∧ length b' = length b
        ∧ ∀ q' : nat, b' !!! q' = b !!! q' ++ flat (sent_to p gl q').
Proof.
  intros Hlay Hq Hev Hgl. revert b.
  induction Hgl as [|[I J] gl HI Hgl IH]; intros b Hlen.
  { exists b. split_and!; [done..|]. intros q'.
    change (flat (sent_to p [] q')) with (@nil Z). by rewrite app_nil_r. }
  rewrite flat_cons. cbn [resolve_non_local fst snd]. rewrite run_bind.
  destruct (run_resolve_entry bs0 N0 procs q p s I J b)
    as (o & Ho & Holt & ->); [done..|].
  destruct (IH (alter (λ l, l ++ [J]) o
                  (alter (λ l, l ++ [ghost_global p I]) o b)))
    as (b' & -> & Hlen' & Hb'); [by rewrite !length_alter|].
  exists b'. split; [done|]. split; [by rewrite Hlen', !length_alter|].
  intros q'. rewrite Hb', sent_to_cons, flat_app. simpl fst. simpl snd.
  rewrite Ho, app_assoc. f_equal.
  destruct (decide (q' = o)) as [->|Hne].
  - rewrite bool_decide_eq_true_2 by done.
    rewrite !list_lookup_total_alter_eq by (rewrite ?length_alter; lia).
    rewrite flat_cons. simpl. by rewrite <- app_assoc.
  - rewrite bool_decide_eq_false_2 by lia.
    rewrite !list_lookup_total_alter_ne by done.
    change (flat []) with (@nil Z). by rewrite app_nil_r.
Qed.

(** A received pair whose row is owned is stored in the row, by the
    ownership of its column. *)
Lemma run_insert_received_entry bs0 N0 n q p s G J :
  process_wf bs0 N0 n q p → 0 < bs0 → evolved p s →
  offset0 p ≤ G < offset0 p + local_size0 p → 0 ≤ J < 2 ^ 64 →
  ∃ s', insert_received_entry G J s = (Ok tt, s')
        ∧ evolved p s'
        ∧ _non_local s' = _non_local s
        ∧ extends_by s s'
            (λ r c, r = G - offset0 p ∧ c = J ∧ owns_col p J)
            (λ r c, r = G - offset0 p ∧ c = J ∧ ¬ owns_col p J).
Proof.
  intros [_ Hbs [[Ha Hab] Hb] Howned _ Hgfit] Hbs0
         [Hcomm Hmaps Hfull Hd Ho] HG HJ.
  assert (local_size0 p
          = bs0 * ((IndexMap.local_range (_index_maps p).1).2
                   - (IndexMap.local_range (_index_maps p).1).1)) as Hlsp
    by (unfold local_size0; by rewrite Hbs, Howned).
  assert (offset0 p = bs0 * (IndexMap.local_range (_index_maps p).1).1)
    as Hoff by (unfold offset0; by rewrite Hbs).
  assert (local_size0 p < 2 ^ 31) as Hls31.
  { unfold ghosted_size0 in Hgfit. rewrite Hbs in Hgfit.
    assert (0 ≤ vsize (IndexMap.ghosts (_index_maps p).1))
      by (unfold vsize; lia).
    unfold local_size0. rewrite Hbs. nia. }
  unfold insert_received_entry. rewrite run_bind, run_get. cbv beta iota zeta.
  rewrite Hmaps, Hbs, <- Hoff.
  rewrite run_bind.
  rewrite (bool_decide_eq_false_2 (G < _)) by nia.
  rewrite (bool_decide_eq_false_2 (_ ≤ G)) by nia.
  change (false || false) with false. cbv iota. rewrite run_ret.
  rewrite (to_size_t_small (G - offset0 p)), (to_size_t_small J) by lia.
  change (bool_decide _ && bool_decide _) with
    (bool_decide (IndexMap.block_size (_index_maps p).2
                  * (IndexMap.local_range (_index_maps p).2).1 ≤ J)
     && bool_decide (J < IndexMap.block_size (_index_maps p).2
                         * (IndexMap.local_range (_index_maps p).2).2)).
  rewrite (owns_col_bool p J).
  case_bool_decide as Hown.
  - rewrite run_bind, bool_decide_eq_true_2, run_assert_true by lia.
    destruct (run_diagonal_insert (G - offset0 p) J s)
      as (s' & -> & Hnl & Hext); [lia|].
    exists s'. split; [done|]. split_and!; [|done|].
    + destruct Hext. split; try congruence; unfold vsize in *; congruence.
    + eapply extends_by_iff; [| |exact Hext]; unfold just, none;
        intros r c; tauto.
  - rewrite run_bind, bool_decide_eq_true_2, run_assert_true by lia.
    destruct (run_off_diagonal_insert (G - offset0 p) J s)
      as (s' & -> & Hnl & Hext); [lia|].
    exists s'. split; [done|]. split_and!; [|done|].
    + destruct Hext. split; try congruence; unfold vsize in *; congruence.
    + eapply extends_by_iff; [| |exact Hext]; unfold just, none;
        intros r c; tauto.
Qed.

(** The received pairs of a process of the layout are all stored. *)
Lemma run_insert_received bs0 N0 n q p s pairs :
  process_wf bs0 N0 n q p → 0 < bs0 → evolved p s →
  Forall (λ pr, offset0 p ≤ pr.1 < offset0 p + local_size0 p
                ∧ 0 ≤ pr.2 < 2 ^ 64) pairs →
  ∃ s', insert_received (flat pairs) s = (Ok tt, s')
        ∧ evolved p s'
        ∧ _non_local s' = _non_local s
        ∧ extends_by s s'
            (λ r c, (r + offset0 p, c) ∈ pairs ∧ owns_col p c)
            (λ r c, (r + offset0 p, c) ∈ pairs ∧ ¬ owns_col p c).
Proof.
  intros Hp Hbs0 Hev Hpairs. revert s Hev.
  induction Hpairs as [|[G J] pairs [HG HJ] Hpairs IH]; intros s Hev.
  { exists s. split_and!; [done..|].
    eapply extends_by_iff, extends_by_refl; unfold none; intros r c;
      (split; [done|]); by intros [?%elem_of_nil _]. }
  rewrite flat_cons. cbn [insert_received fst snd]. rewrite run_bind.
  destruct (run_insert_received_entry bs0 N0 n q p s G J)
    as (s1 & -> & Hev1 & Hnl1 & Hext1); [done..|].
  destruct (IH s1 Hev1) as (s' & -> & Hev' & Hnl & Hext).
  exists s'. split_and!; [done..|congruence|].
  eapply extends_by_iff, extends_by_trans; [..|exact Hext1|exact Hext];
    intros r c; simpl; rewrite elem_of_cons; split.
  - intros [(-> & -> & ?)|[? ?]]; [split; [left; f_equal; lia|done]|auto].
  - intros [[[= <- <-]|?] ?]; [left; split_and!; [lia|done..]|auto].
  - intros [(-> & -> & ?)|[? ?]]; [split; [left; f_equal; lia|done]|auto].
  - intros [[[= <- <-]|?] ?]; [left; split_and!; [lia|done..]|auto].
Qed.

Lemma length_flat l : vsize (flat l) = 2 * vsize l.
Proof.
  unfold vsize. induction l as [|p l IH]; [done|].
  rewrite flat_cons. simpl. lia.
Qed.

Lemma flat_join (L : list (list (Z * Z))) : mjoin (flat <$> L) = flat (mjoin L).
Proof.
  induction L as [|l L IH]; [done|].
  rewrite fmap_cons. simpl. by rewrite IH, flat_app.
Qed.

(** The pairs of a process on ghost rows name ghost rows. *)
Lemma ghost_pairs_in_range bs0 N0 n q p os :
  process_wf bs0 N0 n q p → 0 < bs0 →
  Forall (op_in_range p) os →
  Forall (λ pr, local_size0 p ≤ pr.1 < ghosted_size0 p
                ∧ 0 ≤ pr.2 < 2 ^ 64) (ghost_pairs p os).
Proof.
  intros [_ Hbs [[Ha Hab] Hb] Howned _ _] Hbs0 Hos.
  apply Forall_forall. intros [I J]. unfold ghost_pairs.
  rewrite list_elem_of_filter, elem_of_mapped. simpl.
  intros (HI & o & r0 & c0 & Ho & Hr0 & Hc0 & -> & ->).
  eapply Forall_forall in Hos as [Hrows Hcols]; [|done].
  eapply Forall_forall in Hrows; [|done].
  eapply Forall_forall in Hcols; [|done].
  split; [|done]. split; [done|].
  destruct o; simpl in *; [|lia..].
  assert (0 ≤ vsize (IndexMap.ghosts (_index_maps p).1))
    by (unfold vsize; lia).
  unfold ghosted_size0, local_size0 in *. rewrite Hbs in *. nia.
Qed.

Lemma elem_of_sent_to s gl q G J :
  (G, J) ∈ sent_to s gl q
  ↔ ∃ I, (I, J) ∈ gl ∧ ghost_owner s I = Z.of_nat q ∧ G = ghost_global s I.
Proof.
  unfold sent_to. rewrite list_elem_of_fmap. split.
  - intros ([I J'] & [= -> ->] & [Hown Hin]%list_elem_of_filter). eauto.
  - intros (I & Hin & Hown & ->). exists (I, J). split; [done|].
    by apply list_elem_of_filter.
Qed.

Lemma elem_of_received_pairs procs opss q G J :
  (G, J) ∈ received_pairs procs opss q
  ↔ ∃ (i : nat) p os I,
      procs !! i = Some p ∧ opss !! i = Some os
      ∧ (I, J) ∈ ghost_pairs p os
      ∧ ghost_owner p I = Z.of_nat q ∧ G = ghost_global p I.
Proof.
  unfold received_pairs. rewrite list_elem_of_join. split.
  - intros (l & HGJ & (i & Hl)%list_elem_of_lookup_1).
    apply lookup_zip_with_Some in Hl as (p & os & -> & Hp & Hos).
    apply elem_of_sent_to in HGJ as (I & ? & ? & ?). eauto 10.
  - intros (i & p & os & I & Hp & Hos & Hin & Hown & ->).
    exists (sent_to p (ghost_pairs p os) q). split.
    + apply elem_of_sent_to. eauto.
    + eapply list_elem_of_lookup_2, lookup_zip_with_Some. eauto.
Qed.

(** The outgoing buffers of a process of the layout after its
    insertions. *)
Lemma run_non_local_send bs0 N0 procs q p os mid :
  row_layout bs0 N0 procs → procs !! q = Some p →
  Forall (op_in_range p) os →
  evolved p mid → _non_local mid = flat (ghost_pairs p os) →
  ∃ out, non_local_send mid = Ok out
         ∧ ∀ q' : nat, out !!! q' = flat (sent_to p (ghost_pairs p os) q').
Proof.
  intros Hlay Hq Hos Hev Hbuf.
  pose proof (lay_proc _ _ _ Hlay q p Hq) as Hp.
  pose proof (process_comm _ _ _ _ _ Hp) as Hpc.
  destruct (run_resolve_non_local bs0 N0 procs q p mid (ghost_pairs p os)
              (replicate (length procs) []))
    as (out & Hrun & Hlen & Hout); [done..| |by rewrite length_replicate|].
  { eapply Forall_impl.
    - eapply ghost_pairs_in_range; [done| |done]. apply (lay_bs _ _ _ Hlay).
    - by intros pr [? _]. }
  exists out. unfold non_local_send, exec.
  rewrite (ev_comm _ _ Hev), Hpc, Hbuf. simpl MPI.size. unfold vsize.
  rewrite Nat2Z.id, Hrun. split; [done|]. intros q'. rewrite Hout.
  destruct (decide (q' < length procs)%nat).
  - by rewrite lookup_total_replicate_2.
  - rewrite list_lookup_total_alt, lookup_ge_None_2; [done|].
    rewrite length_replicate. lia.
Qed.

Lemma extends_by_set_non_local g s s' D O :
  extends_by s s' D O → extends_by s (set_non_local g s') D O.
Proof. intros []. by split. Qed.

(** [apply] on a process of the layout that receives pairs on its own
    rows: it ends normally with an empty buffer and the received pairs
    stored. *)
Lemma run_apply bs0 N0 procs q p os mid recv oracle :
  row_layout bs0 N0 procs → procs !! q = Some p →
  Forall (op_in_range p) os →
  evolved p mid → _non_local mid = flat (ghost_pairs p os) →
  (∀ out, oracle out = flat recv) →
  Forall (λ pr, offset0 p ≤ pr.1 < offset0 p + local_size0 p
                ∧ 0 ≤ pr.2 < 2 ^ 64) recv →
  ∃ f, apply oracle mid = (Ok tt, f)
       ∧ evolved p f
       ∧ _non_local f = []
       ∧ extends_by mid f
           (λ r c, (r + offset0 p, c) ∈ recv ∧ owns_col p c)
           (λ r c, (r + offset0 p, c) ∈ recv ∧ ¬ owns_col p c).
Proof.
  intros Hlay Hq Hos Hev Hbuf Horacle Hrecv.
  pose proof (lay_proc _ _ _ Hlay q p Hq) as Hp.
  pose proof (process_comm _ _ _ _ _ Hp) as Hpc.
  pose proof (lay_multi _ _ _ Hlay) as Hmulti.
  destruct (run_non_local_send bs0 N0 procs q p os mid)
    as (out & Hsend & _); [done..|].
  destruct (run_insert_received bs0 N0 (vsize procs) q p mid recv)
    as (s' & Hins & Hev' & Hnl & Hext);
    [done|by apply (lay_bs _ _ _ Hlay)|done..|].
  unfold apply. rewrite run_bind, run_get. cbv beta.
  rewrite (ev_comm _ _ Hev), Hpc. simpl MPI.size.
  rewrite bool_decide_eq_true_2 by lia.
  rewrite !run_bind, Hbuf, length_flat.
  rewrite bool_decide_eq_true_2, run_assert_true
    by (rewrite Z.mul_comm; apply Z.mod_mul; lia).
  rewrite run_bind, Hsend, run_lift, Horacle, length_flat.
  rewrite run_bind, bool_decide_eq_true_2, run_assert_true
    by (rewrite Z.mul_comm; apply Z.mod_mul; lia).
  rewrite Hins, run_modify.
  eexists. split; [done|]. split_and!.
  - destruct Hev'. by split.
  - done.
  - by apply extends_by_set_non_local.
Qed.

(** A process of the layout after its insertions. *)
Lemma process_after_insertions bs0 N0 procs q p os :
  row_layout bs0 N0 procs → procs !! q = Some p →
  Forall (op_in_range p) os →
  ∃ mid, run_ops os p = (Ok tt, mid)
         ∧ evolved p mid
         ∧ extends_by p mid (own_entries true p os) (own_entries false p os)
         ∧ _non_local mid = flat (ghost_pairs p os)
         ∧ ∀ q' : nat,
             outgoing mid !!! q' = flat (sent_to p (ghost_pairs p os) q').
Proof.
  intros Hlay Hq Hos.
  pose proof (lay_proc _ _ _ Hlay q p Hq) as Hp.
  pose proof (lay_bs _ _ _ Hlay) as Hbs0.
  pose proof (lay_multi _ _ _ Hlay) as Hmulti.
  destruct (process_evolved _ _ _ _ _ Hp Hbs0) as [Hev Hnl0].
  destruct (run_ops_parallel bs0 N0 (vsize procs) q p os p)
    as (mid & Hrun & Hev' & Hext & Hnl);
    [done|done|apply (lay_fits _ _ _ Hlay)|lia|done..|].
  rewrite Hnl0 in Hnl. simpl in Hnl.
  destruct (run_non_local_send bs0 N0 procs q p os mid)
    as (out & Hsend & Hout); [done..|].
  exists mid. split_and!; [done..|].
  intros q'. unfold outgoing.
  rewrite (ev_comm _ _ Hev'), (process_comm _ _ _ _ _ Hp). simpl MPI.size.
  rewrite bool_decide_eq_true_2, Hsend by lia. apply Hout.
Qed.

(** What the exchange hands to process [q'] of the layout. *)
Lemma all_to_all_received bs0 N0 procs opss (q' : nat) :
  row_layout bs0 N0 procs →
  Forall2 (λ p os, Forall (op_in_range p) os) procs opss →
  all_to_all (outgoing <$> after_insertions procs opss) q'
  = flat (received_pairs procs opss q').
Proof.
  intros Hlay Hops. unfold all_to_all, received_pairs.
  rewrite <- flat_join. f_equal. apply list_eq. intros i.
  unfold after_insertions.
  rewrite !list_lookup_fmap, !lookup_zip_with.
  destruct (procs !! i) as [p|] eqn:Hp; [|done].
  destruct (opss !! i) as [os|] eqn:Hos; [|done]. simpl. f_equal.
  destruct (process_after_insertions bs0 N0 procs i p os)
    as (mid & Hrun & _ & _ & _ & Hout); [done..| |].
  { exact (Forall2_lookup_lr _ _ _ _ _ _ Hops Hp Hos). }
  by rewrite Hrun.
Qed.

(** What process [q] of the layout receives lies on its own rows. *)
Lemma received_pairs_in_range bs0 N0 procs opss q p :
  row_layout bs0 N0 procs →
  Forall2 (λ p os, Forall (op_in_range p) os) procs opss →
  procs !! q = Some p →
  Forall (λ pr, offset0 p ≤ pr.1 < offset0 p + local_size0 p
                ∧ 0 ≤ pr.2 < 2 ^ 64) (received_pairs procs opss q).
Proof.
  intros Hlay Hops Hq. apply Forall_forall. intros [G J].
  rewrite elem_of_received_pairs.
  intros (i & pi & os & I & Hpi & Hos & Hin & Hown & ->). simpl.
  assert (Forall (op_in_range pi) os) as Hosr
    by exact (Forall2_lookup_lr _ _ _ _ _ _ Hops Hpi Hos).
  pose proof (ghost_pairs_in_range bs0 N0 _ i pi os
                (lay_proc _ _ _ Hlay i pi Hpi) (lay_bs _ _ _ Hlay) Hosr)
    as Hgp.
  eapply Forall_forall in Hgp as [HI HJ]; [|done]. simpl in *.
  destruct (ghost_row_owner bs0 N0 procs i pi I)
    as (o & po & g & _ & Ho & _ & _ & Hpo & _ & Hrange & _); [done..|].
  unfold ghost_owner in Hown.
  rewrite (list_lookup_total_correct _ _ _ Ho) in Hown.
  apply Nat2Z.inj in Hown as ->.
  by replace p with po by congruence.
Qed.

Lemma fresh_blocks comm maps :
  let s := SparsityPattern_new comm maps in
  Forall NoDup (_diagonal s) ∧ Forall NoDup (_off_diagonal s)
  ∧ (∀ r c, ¬ entry (_diagonal s) r c)
  ∧ (∀ r c, ¬ entry (_off_diagonal s) r c).
Proof.
  simpl. unfold resize_by. rewrite app_nil_l.
  split_and!; try (apply Forall_replicate; constructor);
    intros r c; apply entry_empty.
Qed.

(** A process of the layout after the collective [apply]: the entries of
    its blocks are its own entries on owned rows and the received
    entries, by the ownership of the column. *)
Lemma process_after_apply bs0 N0 procs opss q p os :
  row_layout bs0 N0 procs →
  Forall2 (λ p os, Forall (op_in_range p) os) procs opss →
  procs !! q = Some p → opss !! q = Some os →
  ∃ mid f,
    after_insertions procs opss !! q = Some mid
    ∧ run_ops os p = (Ok tt, mid)
    ∧ apply_all (after_insertions procs opss) !! q = Some (Ok tt, f)
    ∧ evolved p f
    ∧ Forall NoDup (_diagonal f) ∧ Forall NoDup (_off_diagonal f)
    ∧ (∀ r c, entry (_diagonal f) r c
         ↔ own_entries true p os r c
           ∨ ((r + offset0 p, c) ∈ received_pairs procs opss q
              ∧ owns_col p c))
    ∧ (∀ r c, entry (_off_diagonal f) r c
         ↔ own_entries false p os r c
           ∨ ((r + offset0 p, c) ∈ received_pairs procs opss q
              ∧ ¬ owns_col p c)).
Proof.
  intros Hlay Hops Hq Hos.
  assert (Forall (op_in_range p) os) as Hosr
    by exact (Forall2_lookup_lr _ _ _ _ _ _ Hops Hq Hos).
  destruct (process_after_insertions bs0 N0 procs q p os)
    as (mid & Hrun & Hev & Hext & Hnl & _); [done..|].
  assert (after_insertions procs opss !! q = Some mid) as Hmid.
  { unfold after_insertions. rewrite lookup_zip_with, Hq, Hos. simpl.
    by rewrite Hrun. }
  destruct (run_apply bs0 N0 procs q p os mid
              (received_pairs procs opss q)
              (λ _, all_to_all (outgoing <$> after_insertions procs opss) q))
    as (f & Hf & Hevf & _ & Hextf); [done..| | |].
  { intros _. by eapply all_to_all_received. }
  { by eapply received_pairs_in_range. }
  exists mid, f.
  pose proof (lay_proc _ _ _ Hlay q p Hq) as [Hfresh _ _ _ _ _].
  destruct (fresh_blocks (MPI.mk (vsize procs) (Z.of_nat q)) (_index_maps p))
    as (Hnd & Hno & He & Heo).
  rewrite <- Hfresh in Hnd, Hno, He, Heo.
  destruct Hext, Hextf. split_and!; try done.
  - unfold apply_all. rewrite list_lookup_imap, Hmid. simpl.
    by rewrite Hf.
  - auto.
  - auto.
  - intros r c. rewrite ext_diag1, ext_diag0. specialize (He r c). tauto.
  - intros r c. rewrite ext_off1, ext_off0. specialize (Heo r c). tauto.
Qed.

Lemma after_lengths procs opss :
  length procs = length opss →
  length (after_insertions procs opss) = length procs
  ∧ length (after_apply procs opss) = length procs.
Proof.
  intros Hlen. unfold after_apply, apply_all, after_insertions.
  rewrite length_fmap, length_imap, length_zip_with. lia.
Qed.

(** Every state of the distributed run, by its rank. *)
Lemma after_apply_lookup bs0 N0 procs opss q f :
  row_layout bs0 N0 procs →
  Forall2 (λ p os, Forall (op_in_range p) os) procs opss →
  after_apply procs opss !! q = Some f →
  ∃ p os,
    procs !! q = Some p ∧ opss !! q = Some os
    ∧ evolved p f
    ∧ Forall NoDup (_diagonal f) ∧ Forall NoDup (_off_diagonal f)
    ∧ (∀ r c, entry (_diagonal f) r c
         ↔ own_entries true p os r c
           ∨ ((r + offset0 p, c) ∈ received_pairs procs opss q
              ∧ owns_col p c))
    ∧ (∀ r c, entry (_off_diagonal f) r c
         ↔ own_entries false p os r c
           ∨ ((r + offset0 p, c) ∈ received_pairs procs opss q
              ∧ ¬ owns_col p c)).
Proof.
  intros Hlay Hops Hf.
  pose proof (Forall2_length _ _ _ Hops) as Hlen.
  destruct (after_lengths procs opss Hlen) as [_ Hlenf].
  apply lookup_lt_Some in Hf as Hlt.
  destruct (lookup_lt_is_Some_2 procs q) as [p Hp]; [lia|].
  destruct (lookup_lt_is_Some_2 opss q) as [os Hos]; [lia|].
  destruct (process_after_apply bs0 N0 procs opss q p os)
    as (mid & f' & _ & _ & Hf' & Hrest); [done..|].
  unfold after_apply in Hf. rewrite list_lookup_fmap, Hf' in Hf.
  injection Hf as <-. by exists p, os.
Qed.

Lemma after_apply_lookup_2 bs0 N0 procs opss q p :
  row_layout bs0 N0 procs →
  Forall2 (λ p os, Forall (op_in_range p) os) procs opss →
  procs !! q = Some p →
  ∃ f, after_apply procs opss !! q = Some f.
Proof.
  intros Hlay Hops Hp.
  pose proof (Forall2_length _ _ _ Hops) as Hlen.
  destruct (after_lengths procs opss Hlen) as [_ Hlenf].
  apply lookup_lt_is_Some_2. apply lookup_lt_Some in Hp. lia.
Qed.

(** The collective [apply] of the layout ends normally everywhere. *)
Lemma apply_all_ok bs0 N0 procs opss :
  row_layout bs0 N0 procs →
  Forall2 (λ p os, Forall (op_in_range p) os) procs opss →
  all_ok (apply_all (after_insertions procs opss)) (after_apply procs opss).
Proof.
  intros Hlay Hops. unfold all_ok, after_apply. apply list_eq. intros q.
  rewrite !list_lookup_fmap.
  destruct (apply_all (after_insertions procs opss) !! q) as [r|] eqn:Hr;
    [|done].
  pose proof (Forall2_length _ _ _ Hops) as Hlen.
  destruct (after_lengths procs opss Hlen) as [Hlenm _].
  apply lookup_lt_Some in Hr as Hlt.
  unfold apply_all in Hlt. rewrite length_imap in Hlt.
  destruct (lookup_lt_is_Some_2 procs q) as [p Hp]; [lia|].
  destruct (lookup_lt_is_Some_2 opss q) as [os Hos]; [lia|].
  destruct (process_after_apply bs0 N0 procs opss q p os)
    as (mid & f' & _ & _ & Hf' & _); [done..|].
  rewrite Hf' in Hr. by injection Hr as <-.
Qed.

(** The owned row range of a process of the layout lies in the row
    space. *)
Lemma owned_range bs0 N0 procs q p :
  row_layout bs0 N0 procs → procs !! q = Some p →
  0 ≤ offset0 p ∧ 0 ≤ local_size0 p
  ∧ offset0 p + local_size0 p ≤ bs0 * N0
  ∧ local_size0 p ≤ ghosted_size0 p
  ∧ offset0 p = bs0 * (IndexMap.local_range (_index_maps p).1).1
  ∧ offset0 p + local_size0 p
    = bs0 * (IndexMap.local_range (_index_maps p).1).2.
Proof.
  intros Hlay Hq.
  destruct (lay_proc _ _ _ Hlay q p Hq)
    as [_ Hbs [[Ha Hab] Hb] Howned _ _].
  pose proof (lay_bs _ _ _ Hlay) as Hbs0.
  assert (0 ≤ vsize (IndexMap.ghosts (_index_maps p).1))
    by (unfold vsize; lia).
  unfold offset0, local_size0, ghosted_size0. rewrite Hbs, Howned.
  split_and!; nia.
Qed.

(** The global row of a local row of a process of the layout, and the
    process that owns it. *)
Lemma to_global_owner bs0 N0 procs q p I :
  row_layout bs0 N0 procs → procs !! q = Some p →
  0 ≤ I < ghosted_size0 p →
  ∃ (o : nat) po,
    procs !! o = Some po
    ∧ offset0 po ≤ to_global p I < offset0 po + local_size0 po
    ∧ (I < local_size0 p → o = q ∧ to_global p I = I + offset0 p)
    ∧ (local_size0 p ≤ I →
       ghost_owner p I = Z.of_nat o ∧ to_global p I = ghost_global p I).
Proof.
  intros Hlay Hq HI. unfold to_global. case_bool_decide as Hloc.
  - exists q, p. split_and!; [done|lia..|done|lia].
  - destruct (ghost_row_owner bs0 N0 procs q p I)
      as (o & po & g & _ & Ho & _ & _ & Hpo & _ & Hrange & _);
      [done|done|lia|].
    exists o, po. split_and!; [done|lia..|lia|].
    intros _. split; [|done]. unfold ghost_owner.
    by rewrite (list_lookup_total_correct _ _ _ Ho).
Qed.

Lemma mapped_row_range bs0 N0 procs q p o r :
  row_layout bs0 N0 procs → procs !! q = Some p →
  op_in_range p o → r ∈ op_rows o →
  0 ≤ mapped_row p o r < ghosted_size0 p.
Proof.
  intros Hlay Hq [Hrows _] Hr.
  destruct (owned_range bs0 N0 procs q p) as (? & ? & ? & ? & _); [done..|].
  eapply Forall_forall in Hrows; [|done].
  destruct o; simpl in *; lia.
Qed.

Lemma elem_of_global_calls procs opss rc :
  rc ∈ global_calls procs opss
  ↔ ∃ (i : nat) p os o,
      procs !! i = Some p ∧ opss !! i = Some os ∧ o ∈ os
      ∧ rc = global_call p o.
Proof.
  unfold global_calls. rewrite list_elem_of_join. split.
  - intros (l & Hrc & (i & Hl)%list_elem_of_lookup_1).
    apply lookup_zip_with_Some in Hl as (p & os & -> & Hp & Hos).
    apply list_elem_of_fmap in Hrc as (o & -> & Ho). eauto 10.
  - intros (i & p & os & o & Hp & Hos & Ho & ->).
    exists (global_call p <$> os). split.
    + by apply list_elem_of_fmap_2.
    + eapply list_elem_of_lookup_2, lookup_zip_with_Some. eauto.
Qed.

(** The single-process run over the global insertions. *)
Lemma serial_run bs0 N0 cmap procs opss :
  row_layout bs0 N0 procs →
  Forall2 (λ p os, Forall (op_in_range p) os) procs opss →
  ∃ ref,
    insert_global_calls (global_calls procs opss)
      (serial_reference bs0 N0 cmap) = (Ok tt, ref)
    ∧ ∀ R C, entry (_diagonal ref) R C ↔ global_entry procs opss R C.
Proof.
  intros Hlay Hops.
  pose proof (lay_bs _ _ _ Hlay) as Hbs0.
  pose proof (lay_multi _ _ _ Hlay) as Hmulti.
  assert (0 ≤ bs0 * N0) as HN.
  { destruct (lookup_lt_is_Some_2 procs 0) as [p Hp];
      [unfold vsize in Hmulti; lia|].
    destruct (owned_range bs0 N0 procs 0 p) as (? & ? & ? & _); [done..|].
    lia. }
  assert (vsize (_diagonal (serial_reference bs0 N0 cmap)) = bs0 * N0)
    as Hrows.
  { simpl. rewrite length_resize_by by done. unfold vsize. simpl. lia. }
  assert (∀ i p os o r0, procs !! i = Some p → opss !! i = Some os →
            o ∈ os → r0 ∈ op_rows o →
            op_in_range p o
            ∧ 0 ≤ to_global p (mapped_row p o r0) < bs0 * N0) as Hrange.
  { intros i p os o r0 Hp Hos Ho Hr0.
    pose proof (Forall2_lookup_lr _ _ _ _ _ _ Hops Hp Hos) as Hosr.
    eapply Forall_forall in Hosr; [|done]. split; [done|].
    destruct (to_global_owner bs0 N0 procs i p (mapped_row p o r0))
      as (o' & po & Hpo & HR & _); [done..|by eapply mapped_row_range|].
    destruct (owned_range bs0 N0 procs o' po) as (? & ? & ? & _); [done..|].
    lia. }
  destruct (run_insert_global_calls (global_calls procs opss)
              (serial_reference bs0 N0 cmap))
    as (d & Hrun & _ & _ & Hent); [done|done|..].
  { apply Forall_forall. intros rc.
    rewrite elem_of_global_calls.
    intros (i & p & os & o & Hp & Hos & Ho & ->).
    unfold global_call. cbn [fst].
    apply Forall_forall. intros R (r0 & -> & Hr0)%list_elem_of_fmap.
    rewrite Hrows. by eapply Hrange. }
  eexists. split; [exact Hrun|]. simpl. intros R C. rewrite Hent.
  destruct (fresh_blocks (MPI.mk 1 0) (serial_map bs0 N0, cmap))
    as (_ & _ & He & _).
  unfold global_entry. split.
  - intros [[]%He|(c' & Hin & ->)].
    apply elem_of_inserted in Hin as (rc & Hrc & HR & Hc').
    apply elem_of_global_calls in Hrc as (i & p & os & o & Hp & Hos & Ho & ->).
    simpl in HR, Hc'.
    apply list_elem_of_fmap in HR as (r0 & -> & Hr0).
    apply list_elem_of_fmap in Hc' as (c0 & -> & Hc0).
    destruct (Hrange i p os o r0) as [[_ Hcols] _]; [done..|].
    eapply Forall_forall in Hcols; [|done].
    rewrite to_size_t_small by done.
    exists i, p, os, (mapped_row p o r0). split_and!; [done..| |done].
    apply elem_of_mapped. eauto 10.
  - intros (i & p & os & I & Hp & Hos & Hin & ->). right.
    apply elem_of_mapped in Hin as (o & r0 & c0 & Ho & Hr0 & Hc0 & -> & ->).
    destruct (Hrange i p os o r0) as [[_ Hcols] _]; [done..|].
    eapply Forall_forall in Hcols; [|done].
    exists (mapped_col p o c0). rewrite to_size_t_small by done.
    split; [|done]. apply elem_of_inserted.
    exists (global_call p o). split_and!.
    + apply elem_of_global_calls. eauto 10.
    + simpl. apply list_elem_of_fmap. eauto.
    + simpl. apply list_elem_of_fmap. eauto.
Qed.

Lemma stored_range p f R C :
  evolved p f → stored f R C →
  offset0 p ≤ R < offset0 p + local_size0 p.
Proof.
  intros [_ Hmaps _ Hd Ho]. unfold stored, entry.
  replace (offset0 f) with (offset0 p) by (unfold offset0; by rewrite Hmaps).
  intros [(? & row & Hrow%lookup_lt_Some & _)
         |(? & row & Hrow%lookup_lt_Some & _)]; unfold vsize in *; lia.
Qed.

(** The entries stored over all processes after the collective [apply]
    are the entries that the processes inserted, by global row. *)
Lemma distributed_entries bs0 N0 procs opss R C :
  row_layout bs0 N0 procs →
  Forall2 (λ p os, Forall (op_in_range p) os) procs opss →
  (∃ q f, after_apply procs opss !! q = Some f ∧ stored f R C)
  ↔ global_entry procs opss R C.
Proof.
  intros Hlay Hops. split.
  - intros (q & f & Hf & Hst).
    destruct (after_apply_lookup bs0 N0 procs opss q f)
      as (p & os & Hp & Hos & Hev & _ & _ & Hd & Ho); [done..|].
    pose proof (stored_range p f R C Hev Hst) as HR.
    assert (offset0 f = offset0 p) as Hoff
      by (unfold offset0; by rewrite (ev_maps _ _ Hev)).
    unfold stored in Hst. rewrite Hoff, Hd, Ho in Hst.
    assert (own_entries true p os (R - offset0 p) C
            ∨ own_entries false p os (R - offset0 p) C
            ∨ (R, C) ∈ received_pairs procs opss q) as [Hown|[Hown|Hrecv]].
    { replace (R - offset0 p + offset0 p) with R in Hst by lia. tauto. }
    + destruct Hown as (Hin & Hlt & _).
      exists q, p, os, (R - offset0 p). split_and!; [done..|].
      unfold to_global. rewrite bool_decide_eq_true_2 by done. lia.
    + destruct Hown as (Hin & Hlt & _).
      exists q, p, os, (R - offset0 p). split_and!; [done..|].
      unfold to_global. rewrite bool_decide_eq_true_2 by done. lia.
    + apply elem_of_received_pairs in Hrecv
        as (i & pi & osi & I & Hpi & Hosi & Hin & _ & ->).
      unfold ghost_pairs in Hin.
      apply list_elem_of_filter in Hin as [HI Hin]. simpl in HI.
      exists i, pi, osi, I. split_and!; [done..|].
      unfold to_global. by rewrite bool_decide_eq_false_2 by lia.
  - intros (i & p & os & I & Hp & Hos & Hin & ->).
    assert (0 ≤ I < ghosted_size0 p) as HI.
    { apply elem_of_mapped in Hin as (o & r0 & c0 & Ho & Hr0 & _ & -> & _).
      eapply mapped_row_range; [done..| |done].
      pose proof (Forall2_lookup_lr _ _ _ _ _ _ Hops Hp Hos) as Hosr.
      by eapply Forall_forall in Hosr. }
    destruct (to_global_owner bs0 N0 procs i p I)
      as (o & po & Hpo & HR & Hloc & Hghost); [done..|].
    destruct (after_apply_lookup_2 bs0 N0 procs opss o po) as [f Hf];
      [done..|].
    destruct (after_apply_lookup bs0 N0 procs opss o f)
      as (po' & oso & Hpo' & Hoso & Hev & _ & _ & Hd & Ho); [done..|].
    replace po' with po in * by congruence.
    exists o, f. split; [done|].
    assert (offset0 f = offset0 po) as Hoff
      by (unfold offset0; by rewrite (ev_maps _ _ Hev)).
    unfold stored. rewrite Hoff, Hd, Ho.
    replace (to_global p I - offset0 po + offset0 po)
      with (to_global p I) by lia.
    destruct (decide (I < local_size0 p)) as [Hlt|Hge].
    + destruct (Hloc Hlt) as [-> HG].
      replace po with p in * by congruence.
      replace oso with os in * by congruence.
      rewrite HG. replace (I + offset0 p - offset0 p) with I by lia.
      unfold own_entries.
      destruct (decide (owns_col p C)); [left|right]; left; done.
    + destruct Hghost as [Hown HG]; [lia|].
      assert ((to_global p I, C) ∈ received_pairs procs opss o) as Hrecv.
      { apply elem_of_received_pairs. exists i, p, os, I.
        split_and!; [done..| |done|done].
        unfold ghost_pairs. apply list_elem_of_filter. split; [simpl; lia|].
        done. }
      destruct (decide (owns_col po C)); [left|right]; right; done.
Qed.

(** C1.  Processes of a layout (disjoint owned row ranges, every ghost
    row owned by the process its index map names) insert through the
    three entry points with arguments in range, entries on ghost rows
    included, and then all call [apply].  Every insertion and every
    [apply] ends normally, and so does the single-process run over the
    same insertions by global row and column.  Column C is stored for
    the global row R on some process, in its diagonal or off-diagonal
    block, exactly when it is stored for row R by the single-process
    run: nothing is lost, nothing is added.  Nothing is duplicated: the
    process is unique, no set repeats a column, and no row holds a
    column in both of its blocks. *)
Theorem C1_exchange_preserves_entries bs0 N0 cmap procs opss :
  row_layout bs0 N0 procs →
  Forall2 (λ p os, Forall (op_in_range p) os) procs opss →
  ∃ ref,
    (∀ q p os, procs !! q = Some p → opss !! q = Some os →
       ∃ mid, after_insertions procs opss !! q = Some mid
              ∧ run_ops os p = (Ok tt, mid))
    ∧ all_ok (apply_all (after_insertions procs opss))
             (after_apply procs opss)
    ∧ insert_global_calls (global_calls procs opss)
        (serial_reference bs0 N0 cmap) = (Ok tt, ref)
    ∧ (∀ R C, (∃ q f, after_apply procs opss !! q = Some f ∧ stored f R C)
              ↔ entry (_diagonal ref) R C)
    ∧ (∀ R C q q' f f',
         after_apply procs opss !! q = Some f →
         after_apply procs opss !! q' = Some f' →
         stored f R C → stored f' R C → q = q')
    ∧ (∀ q f, after_apply procs opss !! q = Some f →
         Forall NoDup (_diagonal f) ∧ Forall NoDup (_off_diagonal f)
         ∧ ∀ r c, ¬ (entry (_diagonal f) r c ∧ entry (_off_diagonal f) r c)).
Proof.
  intros Hlay Hops.
  destruct (serial_run bs0 N0 cmap procs opss) as (ref & Href & Hent);
    [done..|].
  exists ref. split_and!.
  - intros q p os Hp Hos.
    destruct (process_after_apply bs0 N0 procs opss q p os)
      as (mid & f & ? & ? & _); [done..|]. eauto.
  - by eapply apply_all_ok.
  - exact Href.
  - intros R C. rewrite Hent. by eapply distributed_entries.
  - intros R C q q' f f' Hf Hf' Hst Hst'.
    destruct (after_apply_lookup bs0 N0 procs opss q f)
      as (p & os & Hp & _ & Hev & _); [done..|].
    destruct (after_apply_lookup bs0 N0 procs opss q' f')
      as (p' & os' & Hp' & _ & Hev' & _); [done..|].
    pose proof (stored_range p f R C Hev Hst) as HR.
    pose proof (stored_range p' f' R C Hev' Hst') as HR'.
    destruct (owned_range bs0 N0 procs q p) as (_ & _ & _ & _ & Ha & Hb);
      [done..|].
    destruct (owned_range bs0 N0 procs q' p') as (_ & _ & _ & _ & Ha' & Hb');
      [done..|].
    pose proof (lay_bs _ _ _ Hlay) as Hbs0.
    destruct (decide (q = q')) as [|Hne]; [done|]. exfalso.
    destruct (lay_disjoint _ _ _ Hlay q q' p p' Hp Hp' Hne); nia.
  - intros q f Hf.
    destruct (after_apply_lookup bs0 N0 procs opss q f)
      as (p & os & _ & _ & _ & Hnd & Hno & Hd & Ho); [done..|].
    split_and!; [done..|].
    intros r c [Hin Hout]. apply Hd in Hin. apply Ho in Hout.
    unfold own_entries in *. tauto.
Qed.

Lemma C1_exchange_preserves_entries_witness :
  ∃ ref,
    (∀ q p os, run_procs !! q = Some p → run_opss !! q = Some os →
       ∃ mid, after_insertions run_procs run_opss !! q = Some mid
              ∧ run_ops os p = (Ok tt, mid))
    ∧ all_ok (apply_all (after_insertions run_procs run_opss))
             (after_apply run_procs run_opss)
    ∧ insert_global_calls (global_calls run_procs run_opss)
        (serial_reference 1 4 (serial_map 1 4)) = (Ok tt, ref)
    ∧ (∀ R C, (∃ q f, after_apply run_procs run_opss !! q = Some f
                      ∧ stored f R C)
              ↔ entry (_diagonal ref) R C)
    ∧ (∀ R C q q' f f',
         after_apply run_procs run_opss !! q = Some f →
         after_apply run_procs run_opss !! q' = Some f' →
         stored f R C → stored f' R C → q = q')
    ∧ (∀ q f, after_apply run_procs run_opss !! q = Some f →
         Forall NoDup (_diagonal f) ∧ Forall NoDup (_off_diagonal f)
         ∧ ∀ r c, ¬ (entry (_diagonal f) r c ∧ entry (_off_diagonal f) r c)).
Proof.
  apply (C1_exchange_preserves_entries 1 4 (serial_map 1 4)
           run_procs run_opss).
  - split.
    + vm_compute. split; congruence.
    + lia.
    + lia.
    + intros [|[|q]] s [= <-]; split; try reflexivity;
        vm_compute; intuition congruence.
    + intros [|[|q]] [|[|q']] s s' [= <-] [= <-] Hne; try done;
        simpl; lia.
    + intros [|[|q]] s [|j] g [= <-] [= <-].
      exists 1%nat, pattern_rank1. split_and!; try done; simpl; lia.
  - repeat constructor; simpl; vm_compute; intuition congruence.
Defined.

(** * Further properties *)

(** ** Relations kept along a computation, whatever its outcome *)

Section related.
Context {St : Type} (R : St → St → Prop) `{!PreOrder R}.

Lemma bind_related {A B} (m : M St A) (f : A → M St B) s :
  R s (m s).2 → (∀ a s', R s' (f a s').2) → R s ((m ≫= f) s).2.
Proof.
  intros Hm Hf. rewrite run_bind.
  destruct (m s) as [[a| |] s1]; simpl in *; [|done..].
  etrans; [exact Hm|apply Hf].
Qed.

Lemma for_each_related {A} (body : A → M St unit) xs s :
  (∀ x s', R s' (body x s').2) → R s (for_each body xs s).2.
Proof.
  intros Hbody. revert s. induction xs as [|x xs IH]; intros s.
  - reflexivity.
  - rewrite for_each_cons. apply bind_related; [apply Hbody|].
    intros _ s'. apply IH.
Qed.

Lemma for_index_related {A} (body : Z → A → M St unit) i0 xs s :
  (∀ i x s', R s' (body i x s').2) → R s (for_index body i0 xs s).2.
Proof.
  intros Hbody. revert i0 s. induction xs as [|x xs IH]; intros i0 s.
  - reflexivity.
  - cbn [for_index]. apply bind_related; [apply Hbody|].
    intros _ s'. apply IH.
Qed.

Lemma assert_related b s : R s ((assert b : M St unit) s).2.
Proof. destruct b; reflexivity. Qed.

Lemma lift_related {A} (o : outcome A) s : R s ((lift o : M St A) s).2.
Proof. reflexivity. Qed.
End related.

(** ** The blocks only grow *)

Lemma prefix_insert x (row : DSet.t) : row `prefix_of` DSet.insert x row.
Proof.
  unfold DSet.insert. destruct (DSet.find x row); [done|].
  by apply prefix_app_r.
Qed.

Lemma prefix_insert_range xs (row : DSet.t) :
  row `prefix_of` DSet.insert_range xs row.
Proof.
  unfold DSet.insert_range. revert row.
  induction xs as [|x xs IH]; intros row; simpl; [done|].
  etrans; [apply (prefix_insert x)|apply IH].
Qed.

Lemma Forall2_prefix_refl (v : list DSet.t) : Forall2 prefix v v.
Proof. by apply Forall_Forall2_diag, Forall_true. Qed.

Lemma Forall2_prefix_alter (f : DSet.t → DSet.t) i (v : list DSet.t) :
  (∀ row, row `prefix_of` f row) → Forall2 prefix v (alter f i v).
Proof.
  intros Hf. apply Forall2_same_length_lookup_2; [by rewrite length_alter|].
  intros j row row' Hrow. destruct (decide (j = i)) as [->|Hne].
  - rewrite list_lookup_alter_eq, Hrow. intros [= <-]. apply Hf.
  - rewrite list_lookup_alter_ne, Hrow by done. by intros [= <-].
Qed.

Global Instance keeps_preorder : PreOrder keeps.
Proof.
  split.
  - intros s. split; auto using Forall2_prefix_refl.
  - intros s1 s2 s3 [] []. split; try congruence; auto.
    + by etrans.
    + by etrans.
Qed.

Global Instance keeps_appending_preorder : PreOrder keeps_appending.
Proof.
  split.
  - intros s. split; reflexivity.
  - intros s1 s2 s3 [] []. split; etrans; done.
Qed.

Global Instance keeps_buffer_preorder : PreOrder keeps_buffer.
Proof.
  split.
  - intros s. split; reflexivity.
  - intros s1 s2 s3 [] []. split; [etrans; done|congruence].
Qed.

Lemma keeps_buffer_appending s s' : keeps_buffer s s' → keeps_appending s s'.
Proof. intros [? Hb]. split; [done|]. by rewrite Hb. Qed.

Lemma keeps_set_diagonal (f : DSet.t → DSet.t) i s :
  (∀ row, row `prefix_of` f row) → (∀ row, NoDup row → NoDup (f row)) →
  keeps_buffer s (set_diagonal (alter f i) s).
Proof.
  intros Hpre Hnd. split; [|done].
  split; simpl; auto using Forall2_prefix_refl, Forall2_prefix_alter,
    Forall_NoDup_alter.
Qed.

Lemma keeps_set_off_diagonal (f : DSet.t → DSet.t) i s :
  (∀ row, row `prefix_of` f row) → (∀ row, NoDup row → NoDup (f row)) →
  keeps_buffer s (set_off_diagonal (alter f i) s).
Proof.
  intros Hpre Hnd. split; [|done].
  split; simpl; auto using Forall2_prefix_refl, Forall2_prefix_alter,
    Forall_NoDup_alter.
Qed.

Lemma diagonal_insert_keeps i x s :
  keeps_buffer s (diagonal_insert i x s).2.
Proof.
  unfold diagonal_insert. case_inside; [|reflexivity].
  apply keeps_set_diagonal; auto using prefix_insert, DSet_NoDup_insert.
Qed.

Lemma off_diagonal_insert_keeps i x s :
  keeps_buffer s (off_diagonal_insert i x s).2.
Proof.
  unfold off_diagonal_insert. case_inside; [|reflexivity].
  apply keeps_set_off_diagonal; auto using prefix_insert, DSet_NoDup_insert.
Qed.

Lemma diagonal_insert_range_keeps i xs s :
  keeps_buffer s (diagonal_insert_range i xs s).2.
Proof.
  unfold diagonal_insert_range. case_inside; [|reflexivity].
  apply keeps_set_diagonal;
    auto using prefix_insert_range, DSet_NoDup_insert_range.
Qed.

Lemma keeps_set_non_local f s : keeps s (set_non_local f s).
Proof. split; simpl; auto using Forall2_prefix_refl. Qed.

Lemma push_keeps x s :
  keeps_appending s (modify (set_non_local (λ b, b ++ [x])) s).2.
Proof.
  split; [apply keeps_set_non_local|]. simpl. by apply prefix_app_r.
Qed.

(** Steps through a computation built from binds, conditionals and the
    primitives above. *)
Ltac related R :=
  repeat first
    [ apply (bind_related R); [|intros ? ?]
    | apply (assert_related R)
    | apply (lift_related R)
    | reflexivity
    | match goal with
      | |- context [if ?b then _ else _] => destruct b
      end ].

Lemma insert_row_sequential_keeps s0 map_j i i_index s :
  keeps_appending s (insert_row_sequential s0 map_j i i_index s).2.
Proof.
  unfold insert_row_sequential. cbv zeta.
  related keeps_appending;
    apply keeps_buffer_appending, diagonal_insert_range_keeps.
Qed.

Lemma insert_local_entry_keeps s0 col_map I j_index s :
  keeps_appending s (insert_local_entry s0 col_map I j_index s).2.
Proof.
  unfold insert_local_entry. cbv zeta.
  related keeps_appending; apply keeps_buffer_appending;
    auto using diagonal_insert_keeps, off_diagonal_insert_keeps.
Qed.

Lemma insert_non_local_entry_keeps s0 col_map I j_index s :
  keeps_appending s (insert_non_local_entry s0 col_map I j_index s).2.
Proof.
  unfold insert_non_local_entry. cbv zeta.
  related keeps_appending; apply push_keeps.
Qed.

Lemma insert_row_parallel_keeps s0 map_j row_map col_map i_index s :
  keeps_appending s (insert_row_parallel s0 map_j row_map col_map i_index s).2.
Proof.
  unfold insert_row_parallel. cbv zeta.
  related keeps_appending; apply (for_each_related keeps_appending);
    auto using insert_local_entry_keeps, insert_non_local_entry_keeps.
Qed.

Lemma insert_entries_keeps rows cols row_map col_map s :
  keeps_appending s (insert_entries rows cols row_map col_map s).2.
Proof.
  unfold insert_entries. rewrite run_bind, run_get. cbv zeta.
  case_bool_decide.
  - apply (for_index_related keeps_appending).
    auto using insert_row_sequential_keeps.
  - apply (for_each_related keeps_appending).
    auto using insert_row_parallel_keeps.
Qed.

Lemma run_op_keeps (o : op) s : keeps_appending s (run_op o s).2.
Proof.
  destruct o as [rows cols|rows cols|rows cols]; cbn [run_op];
    unfold insert_global, insert_local, insert_local_global; cbv zeta;
    apply insert_entries_keeps.
Qed.

Lemma insertion_keeps_local_size (o : op) s :
  local_size0 (run_op o s).2 = local_size0 s.
Proof.
  destruct (run_op_keeps o s) as [[_ Hmaps _ _ _ _ _] _].
  unfold local_size0. by rewrite Hmaps.
Qed.

(** X1.  Whatever their outcome, a normal return or a failed assertion,
    the three insertion entry points leave the communicator, the index
    maps and the full-row set as they were and keep the number of rows
    of both blocks; every row set and the non-local buffer only grow at
    their end, so that nothing stored is removed or reordered; and row
    sets without repetition stay without repetition. *)
Theorem insertion_keeps_pattern (o : op) s : keeps_appending s (run_op o s).2.
Proof. apply run_op_keeps. Qed.

Lemma insert_received_entry_keeps I J s :
  keeps_buffer s (insert_received_entry I J s).2.
Proof.
  unfold insert_received_entry. rewrite run_bind, run_get. cbv zeta.
  related keeps_buffer;
    auto using diagonal_insert_keeps, off_diagonal_insert_keeps.
Qed.

Lemma insert_received_keeps recv s :
  keeps_buffer s (insert_received recv s).2.
Proof.
  revert s. induction recv as [recv IH] using (induction_ltof1 _ length).
  unfold ltof in IH. intros s.
  destruct recv as [|I [|J rest]]; [reflexivity..|].
  cbn [insert_received]. apply (bind_related keeps_buffer).
  - apply insert_received_entry_keeps.
  - intros _ s'. apply IH. simpl. lia.
Qed.

Lemma apply_keeps oracle s :
  keeps s (apply oracle s).2
  ∧ _non_local (apply oracle s).2
    = match (apply oracle s).1 with Ok _ => [] | _ => _non_local s end.
Proof.
  unfold apply. rewrite run_bind, run_get. cbv zeta.
  set (m := if bool_decide (1 < MPI.size (_mpi_comm s)) then _ else _).
  assert (keeps_buffer s (m s).2) as [Hk Hb].
  { subst m. related keeps_buffer. apply insert_received_keeps. }
  rewrite run_bind. destruct (m s) as [[[]| |] s1]; simpl in *.
  - split; [|done]. etrans; [exact Hk|apply keeps_set_non_local].
  - done.
  - done.
Qed.

(** X2.  Whatever [MPI::all_to_all] hands back and whatever the outcome,
    [apply] leaves the communicator, the index maps and the full-row set
    as they were, keeps the number of rows of both blocks, only appends
    to the row sets and keeps them without repetition.  The non-local
    buffer is empty when [apply] returns; when it stops at an assertion
    or at the exception for an illegal entry, the buffer is as it was. *)
Theorem apply_keeps_pattern oracle s :
  keeps s (apply oracle s).2
  ∧ _non_local (apply oracle s).2
    = match (apply oracle s).1 with Ok _ => [] | _ => _non_local s end.
Proof. apply apply_keeps. Qed.

(** ** Marking full rows *)

Lemma run_mark_rows bound rows s :
  Forall (λ r, r < bound) rows →
  for_each (λ r, assert (bool_decide (r < bound));;
                 modify (set_full_rows (DSet.insert r))) rows s
  = (Ok tt, set_full_rows (DSet.insert_range rows) s).
Proof.
  intros Hrows. revert s. induction Hrows as [|r rows Hr _ IH]; intros s.
  - rewrite for_each_nil. unfold DSet.insert_range. simpl.
    by destruct s.
  - rewrite for_each_cons, !run_bind.
    rewrite bool_decide_eq_true_2 by done. autorewrite with run.
    rewrite IH. by destruct s.
Qed.

Lemma run_mark_rows_abort bound rows s :
  ¬ Forall (λ r, r < bound) rows →
  (for_each (λ r, assert (bool_decide (r < bound));;
                  modify (set_full_rows (DSet.insert r))) rows s).1 = Abort.
Proof.
  revert s. induction rows as [|r rows IH]; intros s Hrows.
  - by destruct Hrows.
  - rewrite for_each_cons, !run_bind. case_bool_decide as Hr.
    + autorewrite with run. apply IH. intros Hrest. apply Hrows.
      by constructor.
    + by autorewrite with run.
Qed.

Lemma run_insert_full_rows_local rows s s' :
  insert_full_rows_local rows s = (Ok tt, s') →
  s' = set_full_rows (DSet.insert_range rows) s.
Proof.
  unfold insert_full_rows_local. rewrite run_bind, run_get. cbv zeta.
  destruct (decide (Forall (λ r, r < IndexMap.block_size (_index_maps s).1
              * IndexMap.size (_index_maps s).1 IndexMap.ALL) rows))
    as [Hrows|Hrows].
  - rewrite run_mark_rows by done. by intros [= <-].
  - pose proof (run_mark_rows_abort _ rows s Hrows) as Habort.
    intros Hrun. by rewrite Hrun in Habort.
Qed.

(** X3.  [insert_full_rows_local] returns normally exactly when every
    row is below the number of row elements of the row index map, ghosts
    included; otherwise it stops at its assertion.  When it returns, the
    full-row set holds what it held and the rows given, still without
    repetition, and nothing else of the pattern has changed. *)
Theorem insert_full_rows_local_marks rows s :
  ((insert_full_rows_local rows s).1 = Ok tt
   ↔ Forall (λ r, r < full_rows_bound s) rows)
  ∧ ((insert_full_rows_local rows s).1 ≠ Ok tt
     → (insert_full_rows_local rows s).1 = Abort)
  ∧ ∀ s', insert_full_rows_local rows s = (Ok tt, s') →
      (∀ r, r ∈ _full_rows s' ↔ r ∈ rows ∨ r ∈ _full_rows s)
      ∧ (NoDup (_full_rows s) → NoDup (_full_rows s'))
      ∧ s' = set_full_rows (λ _, _full_rows s') s.
Proof.
  unfold insert_full_rows_local, full_rows_bound.
  rewrite run_bind, run_get. cbv zeta.
  destruct (decide (Forall (λ r, r < IndexMap.block_size (_index_maps s).1
              * IndexMap.size (_index_maps s).1 IndexMap.ALL) rows))
    as [Hrows|Hrows].
  - rewrite run_mark_rows by done. split_and!; [done|done|].
    intros s' [= <-]. simpl. split_and!.
    + intros r. apply DSet_elem_of_insert_range.
    + apply DSet_NoDup_insert_range.
    + by destruct s.
  - pose proof (run_mark_rows_abort _ rows s Hrows) as Habort.
    split_and!.
    + rewrite Habort. split; [done|]. intros. done.
    + done.
    + intros s' Hrun. rewrite Hrun in Habort. done.
Qed.

Lemma insert_full_rows_local_marks_witness :
  ∃ s', insert_full_rows_local [1] pattern_rank0 = (Ok tt, s')
        ∧ (∀ r, r ∈ _full_rows s' ↔ r ∈ [1] ∨ r ∈ _full_rows pattern_rank0)
        ∧ (NoDup (_full_rows pattern_rank0) → NoDup (_full_rows s'))
        ∧ s' = set_full_rows (λ _, _full_rows s') pattern_rank0.
Proof.
  exists pattern_marked. split; [reflexivity|].
  apply (insert_full_rows_local_marks [1] pattern_rank0). reflexivity.
Defined.

(** X4.  On more than one process a row marked full is skipped by
    [insert_local_global] and [insert_local], which take local rows:
    marking rows and then inserting into the same rows is the same as
    marking them, whatever the columns. *)
Theorem marked_rows_skipped_in_parallel rows cols s :
  MPI.size (_mpi_comm s) ≠ 1 →
  Forall (λ r, 0 ≤ r < 2 ^ 64) rows →
  (insert_full_rows_local rows;; insert_local_global rows cols) s
  = insert_full_rows_local rows s
  ∧ (insert_full_rows_local rows;; insert_local rows cols) s
    = insert_full_rows_local rows s.
Proof.
  intros Hsz Hrows. rewrite !run_bind.
  destruct (insert_full_rows_local rows s) as [[[]| |] s'] eqn:Hrun;
    [|done..].
  apply run_insert_full_rows_local in Hrun as ->.
  split; apply insert_entries_parallel_skips_full; try done.
  all: intros r Hr; exists r; split; [done|].
  all: rewrite to_size_t_small; [apply DSet_elem_of_insert_range; by left|].
  all: by eapply Forall_forall in Hrows.
Qed.

Lemma marked_rows_skipped_in_parallel_witness :
  (insert_full_rows_local [1; 2];; insert_local_global [1; 2] [0; 3])
    pattern_rank0
  = insert_full_rows_local [1; 2] pattern_rank0
  ∧ (insert_full_rows_local [1; 2];; insert_local [1; 2] [0; 3])
      pattern_rank0
    = insert_full_rows_local [1; 2] pattern_rank0.
Proof.
  apply (marked_rows_skipped_in_parallel [1; 2] [0; 3] pattern_rank0).
  - simpl. lia.
  - repeat constructor; lia.
Defined.

(** ** One process *)

(** X5.  On one process [insert_entries] applies neither of its two
    index closures: [insert_global] does not check its rows against the
    owned range and does not shift them, [insert_local] does not map its
    columns through the column index map, and the three entry points do
    the same. *)
Theorem serial_entry_points_coincide rows cols s :
  MPI.size (_mpi_comm s) = 1 →
  insert_local rows cols s = insert_global rows cols s
  ∧ insert_local_global rows cols s = insert_global rows cols s.
Proof.
  intros Hsz. unfold insert_local, insert_local_global, insert_global,
    insert_entries. cbv zeta. rewrite !run_bind, !run_get. cbv beta iota.
  by rewrite !bool_decide_eq_true_2 by done.
Qed.

Lemma serial_entry_points_coincide_witness :
  insert_local [0; 1] [0; 2] (serial_pattern 3 3)
  = insert_global [0; 1] [0; 2] (serial_pattern 3 3)
  ∧ insert_local_global [0; 1] [0; 2] (serial_pattern 3 3)
    = insert_global [0; 1] [0; 2] (serial_pattern 3 3).
Proof.
  apply (serial_entry_points_coincide [0; 1] [0; 2] (serial_pattern 3 3)).
  reflexivity.
Defined.

(** ** Loops that return *)

(** A loop returns when each of its bodies does; [Inv] is what the
    bodies need and keep. *)
Lemma for_each_ok {St A} (Inv : St → Prop) (body : A → M St unit) xs s :
  (∀ x s, x ∈ xs → Inv s → ∃ s', body x s = (Ok tt, s') ∧ Inv s') →
  Inv s → ∃ s', for_each body xs s = (Ok tt, s') ∧ Inv s'.
Proof.
  revert s. induction xs as [|x xs IH]; intros s Hbody Hinv.
  - by exists s.
  - destruct (Hbody x s) as (s1 & H1 & Hinv1); [by left|done|].
    destruct (IH s1) as (s' & Hrun & Hinv'); [|done|].
    { intros y s2 Hy. apply Hbody. by right. }
    exists s'. by rewrite for_each_cons, run_bind, H1.
Qed.

(** A loop whose body returns for the elements with [P] and stops at an
    assertion for the others returns exactly on the lists of elements
    with [P]. *)
Lemma for_each_ok_iff {St A} (Inv : St → Prop) (P : A → Prop)
    `{!∀ x, Decision (P x)} (body : A → M St unit) xs s :
  (∀ x s, x ∈ xs → Inv s → P x → ∃ s', body x s = (Ok tt, s') ∧ Inv s') →
  (∀ x s, x ∈ xs → Inv s → ¬ P x → (body x s).1 = Abort) →
  Inv s →
  ((for_each body xs s).1 = Ok tt ↔ Forall P xs)
  ∧ ((for_each body xs s).1 ≠ Ok tt → (for_each body xs s).1 = Abort).
Proof.
  revert s. induction xs as [|x xs IH]; intros s Hok Hbad Hinv.
  - rewrite for_each_nil. simpl. split; [split; [constructor|done]|done].
  - rewrite for_each_cons, run_bind. destruct (decide (P x)) as [Hx|Hx].
    + destruct (Hok x s) as (s1 & -> & Hinv1); [by left|done..|].
      destruct (IH s1) as [Hiff Hab]; [| |done|].
      { intros y s2 Hy. apply Hok. by right. }
      { intros y s2 Hy. apply Hbad. by right. }
      split; [|done]. rewrite Hiff. split; [by constructor|].
      by intros [_ ?]%Forall_cons.
    + assert ((body x s).1 = Abort) as Hb by (apply Hbad; [by left|done..]).
      destruct (body x s) as [[[]| |] s1]; simpl in Hb; try done.
      simpl. split; [|done]. split; [done|].
      by intros [? _]%Forall_cons.
Qed.

(** ** [insert_global] and the owned range *)

Lemma rows_allocated_keeps s s' :
  keeps s s' → rows_allocated s → rows_allocated s'.
Proof.
  intros [_ Hmaps _ Hd Ho _ _] [Had Hao].
  apply Forall2_length in Hd, Ho. unfold vsize, local_size0 in *.
  split; unfold vsize, local_size0; rewrite Hmaps; lia.
Qed.

Lemma insert_local_entry_keeps_buffer s0 col_map I j_index s :
  keeps_buffer s (insert_local_entry s0 col_map I j_index s).2.
Proof.
  unfold insert_local_entry. cbv zeta.
  related keeps_buffer;
    auto using diagonal_insert_keeps, off_diagonal_insert_keeps.
Qed.

(** The columns of an owned row are stored, whatever they are. *)
Lemma run_insert_local_entries s0 (f_col : Z → Z) I cols s :
  0 ≤ I < vsize (_diagonal s) → 0 ≤ I < vsize (_off_diagonal s) →
  ∃ s', for_each (insert_local_entry s0 (λ j _, Ok (f_col j)) I) cols s
        = (Ok tt, s') ∧ keeps_buffer s s'.
Proof.
  intros Hd Ho.
  destruct (for_each_ok
    (λ s', vsize (_diagonal s') = vsize (_diagonal s)
           ∧ vsize (_off_diagonal s') = vsize (_off_diagonal s))
    (insert_local_entry s0 (λ j _, Ok (f_col j)) I) cols s)
    as (s' & Hrun & _); [|done|].
  { intros c s1 _ [Hd1 Ho1].
    destruct (run_insert_local_entry s0 (λ j _, Ok (f_col j)) I c (f_col c)
                s1) as (s2 & Hrun & _ & Hext); [done|lia..|].
    exists s2. split; [done|]. destruct Hext. unfold vsize in *. lia. }
  exists s'. split; [done|].
  replace s' with (for_each (insert_local_entry s0 (λ j _, Ok (f_col j)) I)
                     cols s).2 by by rewrite Hrun.
  apply (for_each_related keeps_buffer).
  intros. apply insert_local_entry_keeps_buffer.
Qed.

Lemma local_range_0 s :
  local_range 0 s = Ok (offset0 s, offset0 s + local_size0 s) →
  IndexMap.block_size (_index_maps s).1
  * (IndexMap.local_range (_index_maps s).1).2
  = offset0 s + local_size0 s.
Proof. unfold local_range. simpl. by intros [= ?]. Qed.

Lemma range0_local_range s :
  range0_consistent s →
  local_range 0 s = Ok (offset0 s, offset0 s + local_size0 s).
Proof.
  intros [Hown _ _]. unfold local_range, offset0, local_size0.
  rewrite Hown. simpl. do 2 f_equal. lia.
Qed.

(** X6.  On more than one process, on a pattern with its rows allocated
    and a consistent row index map, [insert_global] returns normally
    exactly when every row lies in the owned row range, which is what
    [local_range(0)] returns; otherwise it stops at the assertion of its
    row closure.  The columns do not matter. *)
Theorem insert_global_accepts_owned_rows rows cols s lo hi :
  MPI.size (_mpi_comm s) ≠ 1 →
  rows_allocated s → range0_consistent s →
  Forall fits_index rows →
  local_range 0 s = Ok (lo, hi) →
  ((insert_global rows cols s).1 = Ok tt ↔ Forall (λ r, lo ≤ r < hi) rows)
  ∧ ((insert_global rows cols s).1 ≠ Ok tt
     → (insert_global rows cols s).1 = Abort).
Proof.
  intros Hsz Halloc Hcons Hfit Hlr.
  rewrite (range0_local_range s Hcons) in Hlr. injection Hlr as <- <-.
  pose proof (local_range_0 s (range0_local_range s Hcons)) as Hhi.
  destruct Hcons as [_ Hlo Hup]. unfold offset0 in Hlo, Hup, Hhi.
  unfold insert_global, insert_entries. cbv zeta.
  rewrite run_bind, run_get. cbv beta iota.
  rewrite bool_decide_eq_false_2 by done.
  apply (for_each_ok_iff (λ s', keeps s s')
           (λ r, offset0 s ≤ r < offset0 s + local_size0 s));
    [| |reflexivity].
  - intros r s1 Hr Hk HP. unfold offset0 in HP.
    unfold insert_row_parallel. cbv zeta. rewrite run_bind, run_lift.
    rewrite to_size_t_small by lia.
    rewrite !bool_decide_eq_true_2 by lia. cbv beta iota.
    change (true && true) with true. cbv iota.
    destruct (_ && _); [by exists s1|].
    fold (local_size0 s). rewrite bool_decide_eq_true_2 by lia.
    destruct (rows_allocated_keeps s s1 Hk Halloc) as [Hd1 Ho1].
    unfold local_size0 in Hd1, Ho1. rewrite (keeps_maps _ _ Hk) in Hd1, Ho1.
    destruct (run_insert_local_entries s (λ j, j)
      (r - IndexMap.block_size (_index_maps s).1
           * (IndexMap.local_range (_index_maps s).1).1) cols s1)
      as (s2 & Hrun & [Hk2 _]); [unfold local_size0 in *; lia..|].
    exists s2. split; [done|]. by etrans.
  - intros r s1 Hr Hk HP. unfold offset0 in HP.
    eapply Forall_forall in Hfit; [|exact Hr]. unfold fits_index in Hfit.
    unfold insert_row_parallel. cbv zeta. rewrite run_bind, run_lift.
    assert (¬ (IndexMap.block_size (_index_maps s).1
               * (IndexMap.local_range (_index_maps s).1).1 ≤ to_size_t r
               ∧ to_size_t r < IndexMap.block_size (_index_maps s).1
                 * (IndexMap.local_range (_index_maps s).1).2)) as Hout.
    { unfold to_size_t. destruct (decide (0 ≤ r)).
      - rewrite Z.mod_small by lia. lia.
      - replace r with (r + 2 ^ 64 - 1 * 2 ^ 64) by lia.
        rewrite Zminus_mod, Z_mod_mult, Z.sub_0_r, Z.mod_mod by lia.
        rewrite Z.mod_small by lia. lia. }
    case_bool_decide as H1; [case_bool_decide as H2|]; simpl; [|done..].
    by destruct Hout.
Qed.

Lemma insert_global_accepts_owned_rows_witness :
  ((insert_global [2; 3] [0; 5] pattern_rank1).1 = Ok tt
   ↔ Forall (λ r, 2 ≤ r < 4) [2; 3])
  ∧ ((insert_global [2; 3] [0; 5] pattern_rank1).1 ≠ Ok tt
     → (insert_global [2; 3] [0; 5] pattern_rank1).1 = Abort).
Proof.
  apply (insert_global_accepts_owned_rows [2; 3] [0; 5] pattern_rank1 2 4).
  - simpl. lia.
  - split; reflexivity.
  - split; [reflexivity|vm_compute; congruence|vm_compute; reflexivity].
  - repeat constructor; unfold fits_index; lia.
  - reflexivity.
Defined.

Lemma for_each_related_elem {St A} (R : St → St → Prop) `{!PreOrder R}
    (body : A → M St unit) xs s :
  (∀ x s', x ∈ xs → R s' (body x s').2) → R s (for_each body xs s).2.
Proof.
  revert s. induction xs as [|x xs IH]; intros s Hbody.
  - reflexivity.
  - rewrite for_each_cons. apply (bind_related R); [apply Hbody; by left|].
    intros _ s'. apply IH. intros y s2 Hy. apply Hbody. by right.
Qed.

Lemma insert_row_sequential_keeps_buffer s0 map_j i i_index s :
  keeps_buffer s (insert_row_sequential s0 map_j i i_index s).2.
Proof.
  unfold insert_row_sequential. cbv zeta.
  related keeps_buffer; apply diagonal_insert_range_keeps.
Qed.

(** A row that passes the assertion of the row closure of
    [insert_global] is an owned row: nothing is buffered. *)
Lemma insert_global_keeps_buffer rows cols s :
  range0_consistent s → Forall fits_index rows →
  keeps_buffer s (insert_global rows cols s).2.
Proof.
  intros Hcons Hfit.
  pose proof (local_range_0 s (range0_local_range s Hcons)) as Hhi.
  destruct Hcons as [_ Hlo Hup]. unfold offset0 in Hlo, Hup, Hhi.
  unfold insert_global, insert_entries. cbv zeta.
  rewrite run_bind, run_get. cbv beta iota. case_bool_decide as Hsz.
  - apply (for_index_related keeps_buffer).
    intros. apply insert_row_sequential_keeps_buffer.
  - apply (for_each_related_elem keeps_buffer). intros r s1 Hr.
    eapply Forall_forall in Hfit; [|exact Hr]. unfold fits_index in Hfit.
    unfold insert_row_parallel. cbv zeta.
    rewrite run_bind, run_lift.
    case_bool_decide as Hlo'; [case_bool_decide as Hup'|];
      cbv beta iota; [|reflexivity..].
    change (true && true) with true. cbv iota.
    destruct (_ && _); [reflexivity|].
    fold (local_size0 s).
    assert (r < IndexMap.block_size (_index_maps s).1
                * (IndexMap.local_range (_index_maps s).1).2) as Hr'.
    { revert Hup'. unfold to_size_t. destruct (decide (0 ≤ r)).
      - rewrite Z.mod_small by lia. done.
      - pose proof (Z.mod_pos_bound r (2 ^ 64)). lia. }
    rewrite bool_decide_eq_true_2 by lia.
    apply (for_each_related keeps_buffer).
    intros. apply insert_local_entry_keeps_buffer.
Qed.



(** ** What [apply] sends *)

Section inversion.
Context {St : Type}.

Lemma bind_ok_inv {A B} (m : M St A) (f : A → M St B) s b s' :
  (m ≫= f) s = (Ok b, s') →
  ∃ a s1, m s = (Ok a, s1) ∧ f a s1 = (Ok b, s').
Proof. rewrite run_bind. destruct (m s) as [[a| |] s1]; [eauto|done..]. Qed.

Lemma assert_ok_inv b (s s' : St) u :
  assert b s = (Ok u, s') → b = true ∧ s' = s.
Proof. destruct b; [by intros [= _ <-]|done]. Qed.

Lemma at_ok_inv (a : list Z) i x (s s' : St) :
  at_ a i s = (Ok x, s') → a !! Z.to_nat i = Some x ∧ 0 ≤ i ∧ s' = s.
Proof.
  unfold at_. destruct (a !! Z.to_nat i); [|done].
  case_bool_decide; [|done]. by intros [= <- <-].
Qed.
End inversion.

Lemma send_push_ok_inv p x b b' u :
  send_push p x b = (Ok u, b') →
  0 ≤ p < vsize b ∧ b' = alter (λ q, q ++ [x]) (Z.to_nat p) b.
Proof.
  unfold send_push, inside. case_bool_decide; [|done]. by intros [= <-].
Qed.

Lemma length_join_push (b : list (list Z)) (p : nat) xs :
  (p < length b)%nat →
  length (mjoin (alter (λ q, q ++ xs) p b))
  = (length (mjoin b) + length xs)%nat.
Proof.
  assert (∀ (q : list Z) l, mjoin (q :: l) = q ++ mjoin l) as Hjoin by done.
  revert p. induction b as [|q b IH]; intros [|p] Hp; simpl in Hp; try lia.
  - change (alter _ 0%nat (q :: b)) with ((q ++ xs) :: b).
    rewrite !Hjoin, !length_app. lia.
  - change (alter ?f (S p) (q :: b)) with (q :: alter f p b).
    rewrite !Hjoin, !length_app, IH by lia. lia.
Qed.

(** One buffered pair goes to one process, which is not the sender. *)
Lemma resolve_entry_ok_inv s i_index J b b' :
  resolve_entry s i_index J b = (Ok tt, b') →
  ∃ p I, 0 ≤ p < vsize b ∧ p ≠ MPI.rank (_mpi_comm s)
         ∧ p < MPI.size (_mpi_comm s)
         ∧ b' = alter (λ q, q ++ [I; J]) (Z.to_nat p) b.
Proof.
  unfold resolve_entry. cbv zeta. intros H.
  apply bind_ok_inv in H as (? & b1 & [_ ->]%assert_ok_inv & H).
  apply bind_ok_inv in H as (? & b1 & [_ ->]%assert_ok_inv & H).
  apply bind_ok_inv in H as (? & b1 & [_ ->]%assert_ok_inv & H).
  apply bind_ok_inv in H as (p0 & b1 & (_ & _ & ->)%at_ok_inv & H).
  apply bind_ok_inv in H as (? & b1 & [Hlt ->]%assert_ok_inv & H).
  apply bind_ok_inv in H as (? & b1 & [Hne ->]%assert_ok_inv & H).
  apply bind_ok_inv in H as (I & b1 & HI & H).
  assert (b1 = b) as ->.
  { destruct (bool_decide (i_index < _)).
    - rewrite run_ret in HI. congruence.
    - apply bind_ok_inv in HI as (? & b2 & (_ & _ & ->)%at_ok_inv & HI).
      rewrite run_ret in HI. congruence. }
  apply bind_ok_inv in H as (? & b1 & [Hp ->]%send_push_ok_inv & H).
  apply send_push_ok_inv in H as [_ ->].
  apply bool_decide_eq_true in Hlt, Hne.
  exists (to_size_t p0), (to_size_t I). split_and!; [lia..|].
  rewrite list_alter_alter_eq. apply list_alter_ext; [|done].
  intros q _. unfold compose. by rewrite <- app_assoc.
Qed.

Lemma join_replicate_nil n : mjoin (replicate n ([] : list Z)) = [].
Proof. induction n as [|n IH]; [done|exact IH]. Qed.

Lemma resolve_non_local_ok_inv s buf b b' :
  0 ≤ MPI.rank (_mpi_comm s) →
  resolve_non_local s buf b = (Ok tt, b') →
  length b' = length b
  ∧ length (mjoin b') = (length (mjoin b) + length buf)%nat
  ∧ b' !! Z.to_nat (MPI.rank (_mpi_comm s))
    = b !! Z.to_nat (MPI.rank (_mpi_comm s))
  ∧ (Forall (λ q, vsize q `mod` 2 = 0) b
     → Forall (λ q, vsize q `mod` 2 = 0) b').
Proof.
  intros Hrank. revert b.
  induction buf as [buf IH] using (induction_ltof1 _ length).
  unfold ltof in IH. intros b.
  destruct buf as [|i_index [|J rest]]; cbn [resolve_non_local].
  - rewrite run_ret. intros [= <-]. split_and!; [done|simpl; lia|done..].
  - done.
  - intros ([] & b1 & H1 & Hrest)%bind_ok_inv.
    apply resolve_entry_ok_inv in H1 as (p & I & Hp & Hne & _ & ->).
    apply IH in Hrest as (Hlen & Hsum & Hown & Heven); [|simpl; lia].
    rewrite length_alter in Hlen.
    rewrite length_join_push in Hsum by (unfold vsize in Hp; lia).
    rewrite list_lookup_alter_ne in Hown by lia.
    split_and!; [done|simpl in *; lia|done|].
    intros Hb. apply Heven, Forall_alter; [done|].
    intros q _ Hq. unfold vsize in *. rewrite length_app. simpl.
    rewrite Nat2Z.inj_add. change (Z.of_nat 2) with (1 * 2).
    by rewrite Z_mod_plus_full.
Qed.

(** X8.  When the loop of [apply] over the non-local buffer ends
    normally, there is one outgoing buffer for each process of the
    communicator; together they hold as many numbers as the non-local
    buffer, each holds whole pairs, and the one addressed to the sender
    itself is empty: every buffered pair is addressed to exactly one
    other process. *)
Theorem non_local_send_conserves s out :
  0 ≤ MPI.rank (_mpi_comm s) →
  non_local_send s = Ok out →
  length out = Z.to_nat (MPI.size (_mpi_comm s))
  ∧ length (mjoin out) = length (_non_local s)
  ∧ Forall (λ q, vsize q `mod` 2 = 0) out
  ∧ ∀ q, out !! Z.to_nat (MPI.rank (_mpi_comm s)) = Some q → q = [].
Proof.
  intros Hrank. unfold non_local_send, exec.
  destruct (resolve_non_local s (_non_local s) _) as [[[]| |] b'] eqn:Hrun;
    [|done..].
  intros [= <-].
  apply resolve_non_local_ok_inv in Hrun as (Hlen & Hsum & Hown & Heven);
    [|done].
  rewrite length_replicate in Hlen. split_and!; [done| | |].
  - rewrite Hsum, join_replicate_nil. done.
  - apply Heven, Forall_replicate. done.
  - intros q. rewrite Hown. by intros [-> _]%lookup_replicate.
Qed.

Lemma non_local_send_conserves_witness :
  ∃ out, non_local_send (insert_local_global [2] [0; 3] pattern_rank0).2
         = Ok out
    ∧ length out = 2%nat
    ∧ length (mjoin out) = 4%nat
    ∧ Forall (λ q, vsize q `mod` 2 = 0) out
    ∧ ∀ q, out !! 0%nat = Some q → q = [].
Proof.
  eexists. split; [vm_compute; reflexivity|].
  apply (non_local_send_conserves
           (insert_local_global [2] [0; 3] pattern_rank0).2).
  - vm_compute. congruence.
  - vm_compute. reflexivity.
Defined.

(** ** Insertion call by call *)

Section loops.
Context {St : Type}.

Lemma for_each_ext {A} (body body' : A → M St unit) xs (s : St) :
  (∀ x s', body x s' = body' x s') →
  for_each body xs s = for_each body' xs s.
Proof.
  intros Hbody. revert s. induction xs as [|x xs IH]; intros s; [done|].
  rewrite !for_each_cons, !run_bind, Hbody.
  destruct (body' x s) as [[[]| |] s1]; [apply IH|done..].
Qed.

Lemma for_index_ext {A} (body body' : Z → A → M St unit) i0 i0' xs (s : St) :
  (∀ i i' x s', body i x s' = body' i' x s') →
  for_index body i0 xs s = for_index body' i0' xs s.
Proof.
  intros Hbody. revert i0 i0' s.
  induction xs as [|x xs IH]; intros i0 i0' s; [done|].
  cbn [for_index]. rewrite !run_bind, (Hbody i0 i0').
  destruct (body' i0' x s) as [[[]| |] s1]; [apply IH|done..].
Qed.

Lemma for_index_ext_eq {A} (body body' : Z → A → M St unit) i0 xs (s : St) :
  (∀ i x s', body i x s' = body' i x s') →
  for_index body i0 xs s = for_index body' i0 xs s.
Proof.
  intros Hbody. revert i0 s.
  induction xs as [|x xs IH]; intros i0 s; [done|].
  cbn [for_index]. rewrite !run_bind, Hbody.
  destruct (body' i0 x s) as [[[]| |] s1]; [apply IH|done..].
Qed.

Lemma for_index_app {A} (body : Z → A → M St unit) i0 xs ys (s : St) :
  for_index body i0 (xs ++ ys) s
  = (for_index body i0 xs;; for_index body (i0 + vsize xs) ys) s.
Proof.
  revert i0 s. induction xs as [|x xs IH]; intros i0 s.
  - cbn [app for_index]. rewrite run_bind, run_ret. unfold vsize. simpl.
    by rewrite Z.add_0_r.
  - cbn [app for_index]. rewrite !run_bind.
    destruct (body i0 x s) as [[[]| |] s1]; [|done..].
    rewrite IH, run_bind. unfold vsize. simpl length.
    by replace (i0 + 1 + Z.of_nat (length xs))
      with (i0 + Z.of_nat (S (length xs))) by lia.
Qed.
End loops.

(** The loop bodies read the pattern on entry for its index maps and its
    full-row set only. *)
Lemma insert_row_parallel_ext s0 s0' map_j row_map col_map i_index s :
  _index_maps s0 = _index_maps s0' → _full_rows s0 = _full_rows s0' →
  insert_row_parallel s0 map_j row_map col_map i_index s
  = insert_row_parallel s0' map_j row_map col_map i_index s.
Proof.
  intros Hmaps Hfull.
  unfold insert_row_parallel, insert_local_entry, insert_non_local_entry.
  by rewrite Hmaps, Hfull.
Qed.

Lemma insert_row_sequential_ext s0 s0' map_j i i' i_index s :
  _full_rows s0 = _full_rows s0' →
  (_full_rows s0 = [] ∨ i = i') →
  insert_row_sequential s0 map_j i i_index s
  = insert_row_sequential s0' map_j i' i_index s.
Proof.
  intros Hfull Hi. unfold insert_row_sequential. rewrite <- Hfull.
  destruct Hi as [->| ->]; done.
Qed.

(** X9.  One insertion call with the rows [rows1 ++ rows2] does what two
    calls, with [rows1] and then with [rows2], do, outcome and pattern:
    on more than one process always, and on one process when no row is
    marked full. *)
Theorem insertion_splits_by_rows rows1 rows2 cols row_map col_map s :
  MPI.size (_mpi_comm s) ≠ 1 ∨ _full_rows s = [] →
  insert_entries (rows1 ++ rows2) cols row_map col_map s
  = (insert_entries rows1 cols row_map col_map;;
     insert_entries rows2 cols row_map col_map) s.
Proof.
  intros Hmode. rewrite (run_bind (insert_entries rows1 _ _ _)).
  pose proof (insert_entries_keeps rows1 cols row_map col_map s) as [Hk _].
  revert Hk. unfold insert_entries. rewrite !run_bind, !run_get.
  cbv beta iota zeta. case_bool_decide as Hsz.
  - destruct Hmode as [?|Hfull]; [done|].
    rewrite for_index_app, run_bind.
    destruct (for_index _ 0 rows1 s) as [[[]| |] s1]; [|done..].
    simpl. intros [Hcomm _ Hfull1 _ _ _ _].
    rewrite run_bind, run_get. cbv beta iota.
    rewrite Hcomm, bool_decide_eq_true_2 by done.
    apply for_index_ext. intros i i' r s'.
    apply insert_row_sequential_ext; [congruence|by left].
  - rewrite for_each_app, run_bind.
    destruct (for_each _ rows1 s) as [[[]| |] s1]; [|done..].
    simpl. intros [Hcomm Hmaps Hfull1 _ _ _ _].
    rewrite run_bind, run_get. cbv beta iota.
    rewrite Hcomm, bool_decide_eq_false_2 by done.
    apply for_each_ext. intros r s'.
    by apply insert_row_parallel_ext.
Qed.

Lemma insertion_splits_by_rows_witness :
  insert_entries ([0; 2] ++ [1]) [1; 3] identity_map identity_map
    pattern_marked
  = (insert_entries [0; 2] [1; 3] identity_map identity_map;;
     insert_entries [1] [1; 3] identity_map identity_map) pattern_marked.
Proof.
  apply (insertion_splits_by_rows [0; 2] [1] [1; 3] identity_map identity_map
           pattern_marked).
  left. simpl. lia.
Defined.

(** ** Inserting twice on one process *)

Lemma insert_range_covered xs (row : DSet.t) :
  xs ⊆ row → DSet.insert_range xs row = row.
Proof.
  unfold DSet.insert_range. induction xs as [|x xs IH]; intros Hxs; [done|].
  simpl. unfold DSet.insert at 2, DSet.find.
  rewrite bool_decide_eq_true_2 by (apply Hxs; by left).
  apply IH. intros y Hy. apply Hxs. by right.
Qed.

Lemma insert_range_covers xs (row : DSet.t) :
  xs ⊆ DSet.insert_range xs row.
Proof. intros x Hx. apply DSet_elem_of_insert_range. by left. Qed.

Lemma covered_keeps xs s s' r : keeps s s' → covered xs s r → covered xs s' r.
Proof.
  intros [_ _ _ Hd _ _ _] (Hr & row & Hrow & Hxs). split; [done|].
  destruct (Forall2_lookup_l _ _ _ _ _ Hd Hrow) as (row' & Hrow' & Hpre).
  exists row'. split; [done|]. intros x Hx.
  destruct Hpre as [k ->]. apply elem_of_app. left. by apply Hxs.
Qed.

Lemma diagonal_insert_range_covered xs s r :
  covered xs s r → diagonal_insert_range r xs s = (Ok tt, s).
Proof.
  intros (Hr & row & Hrow & Hxs). unfold diagonal_insert_range, inside.
  apply lookup_lt_Some in Hrow as Hlt.
  rewrite bool_decide_eq_true_2 by (unfold vsize; lia). f_equal.
  destruct s as [c m d o b f]. unfold set_diagonal. simpl in *. f_equal.
  rewrite <- (list_alter_id id d (Z.to_nat r)) at 2 by done.
  apply list_alter_ext; [|done]. intros row' Hrow'.
  rewrite Hrow in Hrow'. injection Hrow' as <-.
  by apply insert_range_covered.
Qed.

Lemma diagonal_insert_range_covers xs s r s' :
  diagonal_insert_range r xs s = (Ok tt, s') → covered xs s' r.
Proof.
  unfold diagonal_insert_range, inside. case_bool_decide as Hr; [|done].
  intros [= <-]. split; [lia|]. simpl.
  destruct (lookup_lt_is_Some_2 (_diagonal s) (Z.to_nat r)) as [row Hrow];
    [unfold vsize in Hr; lia|].
  exists (DSet.insert_range xs row). split; [|apply insert_range_covers].
  by rewrite list_lookup_alter_eq, Hrow.
Qed.

(** A second pass of the sequential loop over a pattern that keeps what
    the first pass left changes nothing. *)
Lemma sequential_loop_again s0 cols rows i0 s s' u :
  for_index (insert_row_sequential s0 cols) i0 rows s = (Ok tt, s') →
  keeps s' u →
  for_index (insert_row_sequential s0 cols) i0 rows u = (Ok tt, u).
Proof.
  revert i0 s. induction rows as [|r rows IH]; intros i0 s Hrun Hku; [done|].
  cbn [for_index] in *.
  apply bind_ok_inv in Hrun as ([] & s1 & H1 & Hrest).
  assert (keeps s1 s') as Hk1.
  { pose proof (for_index_related keeps_buffer
      (insert_row_sequential s0 cols) (i0 + 1) rows s1
      (λ i x t, insert_row_sequential_keeps_buffer s0 cols i x t)) as [Hk _].
    by rewrite Hrest in Hk. }
  assert (keeps s s1) as Hk0.
  { pose proof (insert_row_sequential_keeps_buffer s0 cols i0 r s) as [Hk _].
    by rewrite H1 in Hk. }
  assert (keeps s1 u) as Hk1u by by etrans.
  erewrite run_bind_ok; [by eapply IH|].
  revert H1. unfold insert_row_sequential. cbv zeta.
  rewrite !run_bind, !run_get. cbv beta iota.
  assert (vsize (_diagonal u) = vsize (_diagonal s)) as ->.
  { unfold vsize. f_equal. symmetry.
    etrans; [exact (Forall2_length _ _ _ (keeps_diag _ _ Hk0))|].
    exact (Forall2_length _ _ _ (keeps_diag _ _ Hk1u)). }
  destruct (bool_decide (r < vsize (_diagonal s))); run_simpl; [|done].
  destruct (_ || _); run_simpl; [|done].
  intros Hins%diagonal_insert_range_covers.
  apply diagonal_insert_range_covered. by eapply covered_keeps.
Qed.

(** X10.  On one process an insertion call made twice in a row does
    what it does once, outcome and pattern: the second call finds every
    column in place. *)
Theorem sequential_insert_twice rows cols row_map col_map s :
  MPI.size (_mpi_comm s) = 1 →
  (insert_entries rows cols row_map col_map;;
   insert_entries rows cols row_map col_map) s
  = insert_entries rows cols row_map col_map s.
Proof.
  intros Hsz. rewrite run_bind.
  pose proof (insert_entries_keeps rows cols row_map col_map s) as [Hk _].
  revert Hk. unfold insert_entries. rewrite !run_bind, !run_get.
  cbv beta iota zeta. rewrite bool_decide_eq_true_2 by done.
  destruct (for_index _ 0 rows s) as [[[]| |] s1] eqn:Hrun; [|done..].
  simpl. intros [Hcomm _ Hfull _ _ _ _].
  rewrite run_bind, run_get. cbv beta iota.
  rewrite Hcomm, bool_decide_eq_true_2 by done.
  rewrite (for_index_ext_eq (insert_row_sequential s1 cols)
             (insert_row_sequential s cols)).
  - eapply sequential_loop_again; [exact Hrun|reflexivity].
  - intros i r s'. apply insert_row_sequential_ext; [done|by right].
Qed.

Lemma sequential_insert_twice_witness :
  (insert_global [1; 0] [2; 0];; insert_global [1; 0] [2; 0])
    (serial_pattern 3 3)
  = insert_global [1; 0] [2; 0] (serial_pattern 3 3).
Proof.
  unfold insert_global.
  apply (sequential_insert_twice [1; 0] [2; 0] _ _ (serial_pattern 3 3)).
  reflexivity.
Defined.

(** ** Per-row counts *)

Lemma run_num_nonzeros_diagonal s :
  counts_storable s →
  ∃ d, num_nonzeros_diagonal s = Ok d
       ∧ length d = length (_diagonal s)
       ∧ ∀ (r : nat) slice, _diagonal s !! r = Some slice →
           d !! r = Some (if decide (owned_full_row s (Z.of_nat r))
                          then owned_cols s else DSet.size slice).
Proof.
  intros [Hstored Hdfit Hofit Hown Hunown].
  unfold num_nonzeros_diagonal. case_bool_decide as Hsz.
  - edestruct (exec_assign_full_rows (_full_rows s) (local_size0 s)
                 (owned_cols s)) as (d & Hd & Hlen & Hlk); last first.
    { exists d. split; [exact Hd|]. split.
      - by rewrite Hlen, length_fmap.
      - intros r slice Hr. rewrite Hlk, list_lookup_fmap, Hr. simpl.
        unfold owned_full_row.
        case_bool_decide; case_decide; try done;
          f_equal; apply to_int32_small; [apply Hown|].
        apply Hdfit. by eapply list_elem_of_lookup_2. }
    intros r Hr Hlt. unfold vsize. rewrite length_fmap.
    by apply Hstored.
  - eexists. split; [done|]. split; [by rewrite length_fmap|].
    intros r slice Hr. rewrite list_lookup_fmap, Hr. simpl.
    rewrite decide_False by by apply full_rows_empty_not_owned.
    f_equal. apply to_int32_small, Hdfit. by eapply list_elem_of_lookup_2.
Qed.

Lemma run_num_nonzeros_off_diagonal s :
  counts_storable s →
  ∃ o, num_nonzeros_off_diagonal s = Ok o
       ∧ length o = length (_off_diagonal s)
       ∧ ∀ (r : nat) slice, _off_diagonal s !! r = Some slice →
           o !! r = Some (if decide (owned_full_row s (Z.of_nat r))
                          then global_cols s - owned_cols s
                          else DSet.size slice).
Proof.
  intros [Hstored Hdfit Hofit Hown Hunown].
  unfold num_nonzeros_off_diagonal. case_bool_decide as Hnil.
  { exists []. rewrite Hnil. split_and!; [done..|]. intros r slice Hr.
    by rewrite lookup_nil in Hr. }
  case_bool_decide as Hsz.
  - edestruct (exec_assign_full_rows (_full_rows s) (local_size0 s)
                 (global_cols s - owned_cols s)) as (o & Ho & Hlen & Hlk);
      last first.
    { exists o. split; [exact Ho|]. split.
      - by rewrite Hlen, length_fmap.
      - intros r slice Hr. rewrite Hlk, list_lookup_fmap, Hr. simpl.
        unfold owned_full_row.
        case_bool_decide; case_decide; try done;
          f_equal; apply to_int32_small; [apply Hunown|].
        apply Hofit. by eapply list_elem_of_lookup_2. }
    intros r Hr Hlt. unfold vsize. rewrite length_fmap.
    destruct (Hstored r) as [? [?|?]]; [done|done|]. unfold vsize in *. lia.
  - eexists. split; [done|]. split; [by rewrite length_fmap|].
    intros r slice Hr. rewrite list_lookup_fmap, Hr. simpl.
    rewrite decide_False by by apply full_rows_empty_not_owned.
    f_equal. apply to_int32_small, Hofit. by eapply list_elem_of_lookup_2.
Qed.

Lemma run_array_add (a b : list Z) :
  length a = length b →
  (∀ (i : nat) x y, a !! i = Some x → b !! i = Some y → fits_int32 (x + y)) →
  array_add a b = Ok (zip_with Z.add a b).
Proof.
  intros Hlen Hfit. unfold array_add.
  rewrite bool_decide_eq_true_2 by done. simpl.
  assert (forallb (λ x, bool_decide (to_int32 x = x)) (zip_with Z.add a b)
          = true) as ->; [|done].
  apply Is_true_true_1, forallb_True, Forall_lookup. intros i z Hz.
  apply lookup_zip_with_Some in Hz as (x & y & -> & Hx & Hy).
  apply bool_decide_pack, to_int32_small. by eapply Hfit.
Qed.

(** The two per-row count arrays and what [num_local_nonzeros] makes
    of them. *)
Lemma run_num_local_nonzeros s :
  counts_storable s → row_totals_fit s →
  length (_off_diagonal s) = length (_diagonal s) →
  ∃ d o, num_nonzeros_diagonal s = Ok d
         ∧ num_nonzeros_off_diagonal s = Ok o
         ∧ length d = length (_diagonal s)
         ∧ length o = length (_diagonal s)
         ∧ (∀ (r : nat) slice, _diagonal s !! r = Some slice →
              d !! r = Some (if decide (owned_full_row s (Z.of_nat r))
                             then owned_cols s else DSet.size slice))
         ∧ (∀ (r : nat) slice, _off_diagonal s !! r = Some slice →
              o !! r = Some (if decide (owned_full_row s (Z.of_nat r))
                             then global_cols s - owned_cols s
                             else DSet.size slice))
         ∧ num_local_nonzeros s = Ok (zip_with Z.add d o).
Proof.
  intros Hst [Hglobal Hfit] Hlen.
  destruct (run_num_nonzeros_diagonal s Hst) as (d & Hd & Hdlen & Hdr).
  destruct (run_num_nonzeros_off_diagonal s Hst) as (o & Ho & Holen & Hor).
  exists d, o. split_and!; [done|done|done|congruence|done|done|].
  unfold num_local_nonzeros. rewrite Hd, Ho.
  case_bool_decide as Hnil; simpl.
  { rewrite Hnil in Hlen, Holen. simpl in Hlen, Holen.
    destruct d; [|simpl in Hdlen; lia]. destruct o; [done|simpl in Holen; lia]. }
  apply run_array_add; [congruence|].
  intros r x y Hx Hy.
  destruct (lookup_lt_is_Some_2 (_diagonal s) r) as [sd Hsd].
  { rewrite <- Hdlen. by eapply lookup_lt_Some. }
  destruct (lookup_lt_is_Some_2 (_off_diagonal s) r) as [so Hso].
  { rewrite <- Holen. by eapply lookup_lt_Some. }
  rewrite (Hdr r sd Hsd) in Hx. rewrite (Hor r so Hso) in Hy.
  injection Hx as <-. injection Hy as <-. case_decide.
  - by replace (owned_cols s + (global_cols s - owned_cols s))
      with (global_cols s) by lia.
  - by eapply Hfit.
Qed.

(** X11.  On a pattern whose counts fit their 32-bit entries and whose
    two blocks have the same rows, [num_local_nonzeros] returns for each
    row the size of its diagonal set plus the size of its off-diagonal
    set, and for a locally owned full row the number of global column
    elements.  On a pattern without off-diagonal block, whatever its
    diagonal block, it returns what [num_nonzeros_diagonal] returns. *)
Theorem num_local_nonzeros_rows s :
  counts_storable s → row_totals_fit s →
  (_off_diagonal s = []
   → num_local_nonzeros s = num_nonzeros_diagonal s)
  ∧ (length (_off_diagonal s) = length (_diagonal s)
     → ∃ n, num_local_nonzeros s = Ok n
            ∧ length n = length (_diagonal s)
            ∧ ∀ (r : nat) d o,
                _diagonal s !! r = Some d → _off_diagonal s !! r = Some o →
                n !! r = Some (if decide (owned_full_row s (Z.of_nat r))
                               then global_cols s
                               else DSet.size d + DSet.size o)).
Proof.
  intros Hst Hfit. split.
  - intros Hnil. unfold num_local_nonzeros. rewrite Hnil. simpl.
    by destruct (num_nonzeros_diagonal s).
  - intros Hlen.
    destruct (run_num_local_nonzeros s Hst Hfit Hlen)
      as (d & o & _ & _ & Hdlen & Holen & Hdr & Hor & ->).
    eexists. split; [done|]. split.
    + rewrite length_zip_with. lia.
    + intros r sd so Hsd Hso. rewrite lookup_zip_with.
      rewrite (Hdr r sd Hsd), (Hor r so Hso). simpl. f_equal.
      case_decide; lia.
Qed.

Lemma pattern_counts_storable : counts_storable pattern_counts.
Proof.
  split; unfold fits_int32, owned_full_row; simpl.
  - intros r [->%list_elem_of_singleton _]. vm_compute. intuition congruence.
  - intros slice Hs. repeat (apply elem_of_cons in Hs as [->|Hs]);
      [vm_compute; intuition congruence..|by apply elem_of_nil in Hs].
  - intros slice Hs. repeat (apply elem_of_cons in Hs as [->|Hs]);
      [vm_compute; intuition congruence..|by apply elem_of_nil in Hs].
  - vm_compute. intuition congruence.
  - vm_compute. intuition congruence.
Qed.

Lemma pattern_counts_totals_fit : row_totals_fit pattern_counts.
Proof.
  split; [vm_compute; intuition congruence|].
  intros [|[|r]] d o [= <-] [= <-]; vm_compute; intuition congruence.
Qed.

Lemma num_local_nonzeros_rows_witness :
  (_off_diagonal pattern_counts = []
   → num_local_nonzeros pattern_counts = num_nonzeros_diagonal pattern_counts)
  ∧ (length (_off_diagonal pattern_counts) = length (_diagonal pattern_counts)
     → ∃ n, num_local_nonzeros pattern_counts = Ok n
            ∧ length n = length (_diagonal pattern_counts)
            ∧ ∀ (r : nat) d o,
                _diagonal pattern_counts !! r = Some d →
                _off_diagonal pattern_counts !! r = Some o →
                n !! r
                = Some (if decide (owned_full_row pattern_counts (Z.of_nat r))
                        then global_cols pattern_counts
                        else DSet.size d + DSet.size o)).
Proof.
  apply (num_local_nonzeros_rows pattern_counts).
  - apply pattern_counts_storable.
  - apply pattern_counts_totals_fit.
Defined.

(** *** The total *)

Lemma exec_ok_inv {St} (m : M St unit) (s s' : St) :
  exec m s = Ok s' → m s = (Ok tt, s').
Proof.
  unfold exec. destruct (m s) as [[[]| |] s1]; [|done..]. by intros [= <-].
Qed.

Lemma sum_counts_insert (a : list Z) (i : nat) x :
  a !! i = Some 0 → sum_counts (<[i := x]> a) = sum_counts a + x.
Proof.
  revert i. induction a as [|y a IH]; intros [|i] Hi; [done..| |].
  - injection Hi as ->. unfold sum_counts. simpl. lia.
  - unfold sum_counts in *. simpl in *. rewrite IH by done. lia.
Qed.

Lemma sum_counts_zip_add (a b : list Z) :
  length a = length b →
  sum_counts (zip_with Z.add a b) = sum_counts a + sum_counts b.
Proof.
  revert b. induction a as [|x a IH]; intros [|y b] Hlen; try done.
  unfold sum_counts in *. simpl in *. rewrite IH by lia. lia.
Qed.

Lemma sum_counts_sizes (v : list DSet.t) :
  (∀ slice, slice ∈ v → fits_int32 (DSet.size slice)) →
  sum_counts ((λ slice, to_int32 (DSet.size slice)) <$> v) = sum_sizes v.
Proof.
  induction v as [|slice v IH]; intros Hfit; [done|].
  unfold sum_counts, sum_sizes in *. rewrite fmap_cons. cbn [foldr].
  rewrite to_int32_small by (apply Hfit; by left).
  rewrite IH; [done|]. intros ? ?. apply Hfit. by right.
Qed.

(** The loop over the full rows adds the count of a full row once for
    each locally owned full row, when these rows start from zero. *)
Lemma assign_full_rows_sum (F : list Z) (ls0 ncols : Z) (a a' : list Z) :
  NoDup F →
  (∀ r, r ∈ F → r < ls0 → 0 ≤ r ∧ a !! Z.to_nat r = Some 0) →
  for_each (λ row, if bool_decide (row < ls0) then assign row ncols
                   else mret tt) F a = (Ok tt, a') →
  sum_counts a'
  = sum_counts a + to_int32 ncols * vsize (filter (λ r, r < ls0) F).
Proof.
  intros HF. revert a. induction HF as [|r F Hr HF IH]; intros a Hzero.
  { rewrite for_each_nil. intros [= <-]. unfold vsize. simpl. lia. }
  rewrite for_each_cons. intros ([] & a1 & H1 & Hrest)%bind_ok_inv.
  rewrite filter_cons. case_bool_decide as Hlt.
  - rewrite decide_True by done.
    destruct (Hzero r) as [Hr0 Har]; [by left|done|].
    revert H1. unfold assign. case_inside; [|done]. intros [= <-].
    rewrite (IH (<[Z.to_nat r := to_int32 ncols]> a)); [| |done].
    + rewrite sum_counts_insert by done. unfold vsize. simpl length. lia.
    + intros r' Hr' Hlt'. destruct (Hzero r') as [? ?]; [by right|done|].
      split; [done|]. rewrite list_lookup_insert_ne; [done|].
      intros Heq. apply Hr. by replace r with r' by lia.
  - rewrite decide_False by done. rewrite run_ret in H1. injection H1 as <-.
    apply IH; [|done]. intros r' Hr'. apply Hzero. by right.
Qed.

Lemma num_nonzeros_sum s :
  num_nonzeros s
  = sum_sizes (_diagonal s) + sum_sizes (_off_diagonal s)
    + global_cols s * num_owned_full_rows s.
Proof.
  unfold num_nonzeros. rewrite foldl_add_full_rows, !foldl_add_sizes.
  unfold global_cols, num_owned_full_rows, local_size0.
  rewrite Z.add_0_l. reflexivity.
Qed.

Lemma no_full_rows_owned s :
  ¬ 0 < DSet.size (_full_rows s) → num_owned_full_rows s = 0.
Proof.
  unfold DSet.size, num_owned_full_rows. destruct (_full_rows s); [done|].
  simpl. lia.
Qed.

Lemma sum_num_nonzeros_diagonal s d :
  counts_storable s → full_rows_empty s →
  num_nonzeros_diagonal s = Ok d →
  sum_counts d
  = sum_sizes (_diagonal s) + owned_cols s * num_owned_full_rows s.
Proof.
  intros [_ Hdfit _ Hown _] [HF Hdiag _]. unfold num_nonzeros_diagonal.
  case_bool_decide as Hsz.
  - intros Hrun%exec_ok_inv.
    apply assign_full_rows_sum in Hrun; [|done|].
    + rewrite Hrun, sum_counts_sizes by done.
      fold (owned_cols s). by rewrite (to_int32_small (owned_cols s)).
    + intros r Hr Hlt. destruct (Hdiag r) as [Hr0 Hrow]; [done|].
      split; [done|]. by rewrite list_lookup_fmap, Hrow.
  - intros [= <-]. rewrite sum_counts_sizes, no_full_rows_owned by done. lia.
Qed.

Lemma sum_num_nonzeros_off_diagonal s o :
  counts_storable s → full_rows_empty s →
  length (_off_diagonal s) = length (_diagonal s) →
  num_nonzeros_off_diagonal s = Ok o →
  sum_counts o
  = sum_sizes (_off_diagonal s)
    + (global_cols s - owned_cols s) * num_owned_full_rows s.
Proof.
  intros [Hst _ Hofit _ Hunown] [HF Hdiag Hoff] Hlen.
  unfold num_nonzeros_off_diagonal.
  case_bool_decide as Hnil.
  { intros [= <-]. rewrite Hnil. simpl.
    replace (num_owned_full_rows s) with 0; [unfold sum_sizes; simpl; lia|].
    unfold num_owned_full_rows.
    destruct (filter _ _) as [|r l] eqn:Hf; [done|].
    assert (r ∈ filter (λ r, r < local_size0 s) (_full_rows s)) as Hr
      by (rewrite Hf; by left).
    apply list_elem_of_filter in Hr as [Hlt Hr].
    pose proof (Hoff r (conj Hr Hlt)) as Ho. rewrite Hnil in Ho. done. }
  case_bool_decide as Hsz.
  - intros Hrun%exec_ok_inv.
    apply assign_full_rows_sum in Hrun; [|done|].
    + rewrite Hrun, sum_counts_sizes by done.
      fold (owned_cols s) (global_cols s).
      by rewrite (to_int32_small (global_cols s - owned_cols s)).
    + intros r Hr Hlt. destruct (Hdiag r) as [Hr0 _]; [done|].
      split; [done|]. by rewrite list_lookup_fmap, (Hoff r).
  - intros [= <-]. rewrite sum_counts_sizes, no_full_rows_owned by done. lia.
Qed.

(** X12.  On a pattern whose two blocks have the same rows, whose counts
    fit their 32-bit entries and whose locally owned full rows have empty
    explicit sets, the entries of [num_local_nonzeros] add up to
    [num_nonzeros]. *)
Theorem num_local_nonzeros_total s :
  counts_storable s → row_totals_fit s → full_rows_empty s →
  length (_off_diagonal s) = length (_diagonal s) →
  ∃ n, num_local_nonzeros s = Ok n ∧ sum_counts n = num_nonzeros s.
Proof.
  intros Hst Hfit Hfull Hlen.
  destruct (run_num_local_nonzeros s Hst Hfit Hlen)
    as (d & o & Hd & Ho & Hdlen & Holen & _ & _ & ->).
  eexists. split; [done|].
  rewrite sum_counts_zip_add by congruence.
  rewrite (sum_num_nonzeros_diagonal s d), (sum_num_nonzeros_off_diagonal s o),
    num_nonzeros_sum by done.
  lia.
Qed.

Lemma pattern_counts_full_rows_empty : full_rows_empty pattern_counts.
Proof.
  split; unfold owned_full_row; simpl.
  - apply NoDup_singleton.
  - by intros r [->%list_elem_of_singleton _].
  - by intros r [->%list_elem_of_singleton _].
Qed.

Lemma num_local_nonzeros_total_witness :
  ∃ n, num_local_nonzeros pattern_counts = Ok n
       ∧ sum_counts n = num_nonzeros pattern_counts.
Proof.
  apply (num_local_nonzeros_total pattern_counts).
  - apply pattern_counts_storable.
  - apply pattern_counts_totals_fit.
  - apply pattern_counts_full_rows_empty.
  - reflexivity.
Defined.

(** ** The patterns handed out *)

(** The loop over the full rows of the two pattern functions. *)
Lemma exec_fill_rows (F : list Z) (ls0 : Z) (Js : list Z)
    (v : list (list Z)) :
  NoDup F →
  (∀ r, r ∈ F → r < ls0 → 0 ≤ r ∧ v !! Z.to_nat r = Some []) →
  ∃ v', exec (for_each (λ row, if bool_decide (ls0 ≤ row) then mret tt
                               else fill_row row Js) F) v = Ok v'
        ∧ length v' = length v
        ∧ ∀ i : nat, v' !! i
            = if bool_decide (Z.of_nat i ∈ F ∧ Z.of_nat i < ls0)
              then (λ _, Js) <$> v !! i else v !! i.
Proof.
  intros HF. revert v. induction HF as [|r F Hr HF IH]; intros v Hin.
  { exists v. split_and!; [done..|]. intros i.
    rewrite bool_decide_eq_false_2; [done|]. rewrite elem_of_nil. tauto. }
  unfold exec. rewrite for_each_cons, run_bind.
  assert (∃ v1, (if bool_decide (ls0 ≤ r) then mret tt else fill_row r Js) v
                = (Ok tt, v1) ∧ length v1 = length v
                ∧ ∀ i : nat, v1 !! i
                    = if bool_decide (Z.of_nat i = r ∧ r < ls0)
                      then (λ _, Js) <$> v !! i else v !! i)
    as (v1 & -> & Hlen1 & Hlk1).
  { case_bool_decide as Hge.
    - exists v. rewrite run_ret. split_and!; [done..|]. intros i.
      rewrite bool_decide_eq_false_2; [done|]. lia.
    - destruct (Hin r) as [Hr0 Hrow]; [by left|lia|].
      unfold fill_row. rewrite Hrow, !bool_decide_eq_true_2 by done.
      eexists. split_and!; [done|by rewrite length_insert|].
      intros i. case_bool_decide as Hi.
      + destruct Hi as [<- _]. rewrite Nat2Z.id in *. rewrite Hrow. simpl.
        apply list_lookup_insert_eq. by eapply lookup_lt_Some.
      + apply list_lookup_insert_ne. intros <-. apply Hi. lia. }
  destruct (IH v1) as (v' & Hex & Hlen & Hlk).
  { intros r' Hr' Hlt. destruct (Hin r') as [? Hrow']; [by right|done|].
    split; [done|]. rewrite Hlk1, bool_decide_eq_false_2; [done|].
    intros [Heq _]. apply Hr. by replace r with r' by lia. }
  exists v'. unfold exec in Hex. split_and!; [done|congruence|].
  intros i. rewrite Hlk, Hlk1.
  destruct (v !! i); simpl; repeat case_bool_decide;
    rewrite ?elem_of_cons in *; try done;
    exfalso; intuition (subst; eauto; lia).
Qed.

Lemma arranged_nil type : arranged type [] = [].
Proof. by destruct type. Qed.

Lemma run_diagonal_pattern type s :
  full_rows_empty s →
  ∃ v, diagonal_pattern type s = Ok v
       ∧ length v = length (_diagonal s)
       ∧ ∀ (r : nat) row, _diagonal s !! r = Some row →
           v !! r
           = Some (if decide (owned_full_row s (Z.of_nat r))
                   then seqZ (IndexMap.block_size (_index_maps s).2
                              * (IndexMap.local_range (_index_maps s).2).1)
                             (IndexMap.block_size (_index_maps s).2
                              * (IndexMap.local_range (_index_maps s).2).2
                              - IndexMap.block_size (_index_maps s).2
                                * (IndexMap.local_range (_index_maps s).2).1)
                   else arranged type row).
Proof.
  intros [HF Hdiag _]. unfold diagonal_pattern.
  assert (match type with
          | sorted => merge_sort Z.le <$> _diagonal s
          | unsorted => _diagonal s
          end = arranged type <$> _diagonal s) as ->.
  { destruct type; [done|]. by rewrite list_fmap_id. }
  case_bool_decide as Hsz.
  - edestruct (exec_fill_rows (_full_rows s) (local_size0 s)) as
      (v & Hv & Hlen & Hlk); [done| |].
    2:{ exists v. split; [exact Hv|]. split.
        - by rewrite Hlen, length_fmap.
        - intros r row Hr. rewrite Hlk, list_lookup_fmap, Hr. simpl.
          unfold owned_full_row. case_bool_decide; case_decide; done. }
    intros r Hr Hlt. destruct (Hdiag r) as [Hr0 Hrow]; [done|].
    split; [done|]. rewrite list_lookup_fmap, Hrow. simpl.
    by rewrite arranged_nil.
  - eexists. split; [done|]. split; [by rewrite length_fmap|].
    intros r row Hr. rewrite list_lookup_fmap, Hr. simpl.
    by rewrite decide_False by by apply full_rows_empty_not_owned.
Qed.

Lemma run_off_diagonal_pattern type s :
  full_rows_empty s →
  ∃ v, off_diagonal_pattern type s = Ok v
       ∧ length v = length (_off_diagonal s)
       ∧ ∀ (r : nat) row, _off_diagonal s !! r = Some row →
           v !! r
           = Some (if decide (owned_full_row s (Z.of_nat r))
                   then seqZ 0 (IndexMap.block_size (_index_maps s).2
                                * (IndexMap.local_range (_index_maps s).2).1)
                        ++ seqZ (IndexMap.block_size (_index_maps s).2
                                 * (IndexMap.local_range (_index_maps s).2).2)
                                (global_cols s
                                 - IndexMap.block_size (_index_maps s).2
                                   * (IndexMap.local_range
                                        (_index_maps s).2).2)
                   else arranged type row).
Proof.
  intros [HF Hdiag Hoff]. unfold off_diagonal_pattern.
  assert (match type with
          | sorted => merge_sort Z.le <$> _off_diagonal s
          | unsorted => _off_diagonal s
          end = arranged type <$> _off_diagonal s) as ->.
  { destruct type; [done|]. by rewrite list_fmap_id. }
  case_bool_decide as Hsz.
  - edestruct (exec_fill_rows (_full_rows s) (local_size0 s)) as
      (v & Hv & Hlen & Hlk); [done| |].
    2:{ exists v. split; [exact Hv|]. split.
        - by rewrite Hlen, length_fmap.
        - intros r row Hr. rewrite Hlk, list_lookup_fmap, Hr. simpl.
          unfold owned_full_row. case_bool_decide; case_decide; done. }
    intros r Hr Hlt. destruct (Hdiag r) as [Hr0 _]; [done|].
    split; [done|]. rewrite list_lookup_fmap, (Hoff r) by done. simpl.
    by rewrite arranged_nil.
  - eexists. split; [done|]. split; [by rewrite length_fmap|].
    intros r row Hr. rewrite list_lookup_fmap, Hr. simpl.
    by rewrite decide_False by by apply full_rows_empty_not_owned.
Qed.

Lemma StronglySorted_seqZ m n : StronglySorted Z.lt (seqZ m n).
Proof.
  unfold seqZ. generalize (Z.to_nat n) as k. intros k.
  generalize 0%nat as i. induction k as [|k IH]; intros i; simpl.
  - constructor.
  - constructor; [apply IH|]. apply Forall_fmap, Forall_forall.
    intros j Hj%elem_of_seq. simpl. lia.
Qed.

Lemma sorted_without_repetition (l : list Z) :
  NoDup l → StronglySorted Z.lt (merge_sort Z.le l).
Proof.
  intros Hl.
  assert (NoDup (merge_sort Z.le l)) as Hnd
    by by rewrite merge_sort_Permutation.
  pose proof (StronglySorted_merge_sort Z.le l) as Hs.
  induction Hs as [|x k Hs IH Hx]; [constructor|].
  apply NoDup_cons in Hnd as [Hxk Hk]. constructor; [by apply IH|].
  apply Forall_forall. intros y Hy.
  eapply Forall_forall in Hx; [|exact Hy].
  assert (x ≠ y) by (by intros ->). lia.
Qed.

Lemma hands_out_arranged type row :
  NoDup row → hands_out type row (arranged type row).
Proof.
  intros Hrow. destruct type; simpl; [|done].
  split; [apply merge_sort_Permutation|by apply sorted_without_repetition].
Qed.

Lemma vsize_arranged type row : vsize (arranged type row) = DSet.size row.
Proof.
  unfold vsize, DSet.size. destruct type; simpl; [|done].
  by rewrite merge_sort_Permutation.
Qed.

(** X13.  For a locally owned full row the two pattern functions hand
    out, of either type and in ascending order, the owned column
    elements ([diagonal_pattern]) and the global column elements that
    are not owned ([off_diagonal_pattern]): together every global column
    element once. *)
Theorem full_row_patterns type s :
  full_rows_empty s → range1_consistent s →
  ∃ v w, diagonal_pattern type s = Ok v ∧ off_diagonal_pattern type s = Ok w
    ∧ ∀ r : nat, owned_full_row s (Z.of_nat r) →
        ∃ drow orow, v !! r = Some drow ∧ w !! r = Some orow
          ∧ (∀ J, J ∈ drow ↔ owns_col s J)
          ∧ (∀ J, J ∈ orow ↔ 0 ≤ J < global_cols s ∧ ¬ owns_col s J)
          ∧ StronglySorted Z.lt drow ∧ StronglySorted Z.lt orow
          ∧ drow ++ orow ≡ₚ seqZ 0 (global_cols s).
Proof.
  intros Hfull [_ Hlo Hord Hup].
  destruct (run_diagonal_pattern type s Hfull) as (v & Hv & _ & Hvr).
  destruct (run_off_diagonal_pattern type s Hfull) as (w & Hw & _ & Hwr).
  exists v, w. split; [done|]. split; [done|]. intros r Hr.
  destruct (full_diag s Hfull _ Hr) as [_ Hd].
  pose proof (full_off s Hfull _ Hr) as Ho. rewrite Nat2Z.id in Hd, Ho.
  apply Hvr in Hd. apply Hwr in Ho. rewrite decide_True in Hd, Ho by done.
  eexists _, _. split; [exact Hd|]. split; [exact Ho|].
  unfold owns_col. cbv zeta.
  set (lo := IndexMap.block_size (_index_maps s).2
             * (IndexMap.local_range (_index_maps s).2).1) in *.
  set (hi := IndexMap.block_size (_index_maps s).2
             * (IndexMap.local_range (_index_maps s).2).2) in *.
  split_and!.
  - intros J. rewrite elem_of_seqZ. lia.
  - intros J. rewrite elem_of_app, !elem_of_seqZ. lia.
  - apply StronglySorted_seqZ.
  - apply StronglySorted_app. split_and!; auto using StronglySorted_seqZ.
    intros x y. rewrite !elem_of_seqZ. lia.
  - assert (seqZ 0 (global_cols s)
            = seqZ 0 lo ++ seqZ lo (hi - lo) ++ seqZ hi (global_cols s - hi))
      as ->.
    { generalize (global_cols s), Hup. intros N HN.
      replace N with (lo + ((hi - lo) + (N - hi))) at 1 by lia.
      rewrite (seqZ_app 0 lo), (seqZ_app (0 + lo)) by lia.
      rewrite Z.add_0_l. by replace (lo + (hi - lo)) with hi by lia. }
    rewrite !(assoc (++)). apply Permutation_app_tail, Permutation_app_comm.
Qed.

Lemma full_row_patterns_witness :
  ∃ v w, diagonal_pattern sorted pattern_counts = Ok v
    ∧ off_diagonal_pattern sorted pattern_counts = Ok w
    ∧ ∀ r : nat, owned_full_row pattern_counts (Z.of_nat r) →
        ∃ drow orow, v !! r = Some drow ∧ w !! r = Some orow
          ∧ (∀ J, J ∈ drow ↔ owns_col pattern_counts J)
          ∧ (∀ J, J ∈ orow ↔ 0 ≤ J < global_cols pattern_counts
                              ∧ ¬ owns_col pattern_counts J)
          ∧ StronglySorted Z.lt drow ∧ StronglySorted Z.lt orow
          ∧ drow ++ orow ≡ₚ seqZ 0 (global_cols pattern_counts).
Proof.
  apply (full_row_patterns sorted pattern_counts).
  - apply pattern_counts_full_rows_empty.
  - split; vm_compute; congruence.
Defined.

(** X14.  For a row that is not a locally owned full row the two pattern
    functions hand out the stored row set: as it is stored for the type
    [unsorted], and for the type [sorted] its columns in strictly
    ascending order. *)
Theorem ordinary_row_patterns type s :
  full_rows_empty s →
  Forall NoDup (_diagonal s) → Forall NoDup (_off_diagonal s) →
  ∃ v w, diagonal_pattern type s = Ok v ∧ off_diagonal_pattern type s = Ok w
    ∧ length v = length (_diagonal s)
    ∧ length w = length (_off_diagonal s)
    ∧ ∀ r : nat, ¬ owned_full_row s (Z.of_nat r) →
        (∀ row, _diagonal s !! r = Some row →
           ∃ prow, v !! r = Some prow ∧ hands_out type row prow)
        ∧ (∀ row, _off_diagonal s !! r = Some row →
             ∃ prow, w !! r = Some prow ∧ hands_out type row prow).
Proof.
  intros Hfull Hd Ho.
  destruct (run_diagonal_pattern type s Hfull) as (v & Hv & Hvlen & Hvr).
  destruct (run_off_diagonal_pattern type s Hfull) as (w & Hw & Hwlen & Hwr).
  exists v, w. split_and!; [done..|]. intros r Hr. split.
  - intros row Hrow. exists (arranged type row).
    rewrite (Hvr r row Hrow), decide_False by done. split; [done|].
    apply hands_out_arranged. by eapply Forall_lookup_1 in Hd.
  - intros row Hrow. exists (arranged type row).
    rewrite (Hwr r row Hrow), decide_False by done. split; [done|].
    apply hands_out_arranged. by eapply Forall_lookup_1 in Ho.
Qed.

Lemma ordinary_row_patterns_witness :
  ∃ v w, diagonal_pattern sorted pattern_counts = Ok v
    ∧ off_diagonal_pattern sorted pattern_counts = Ok w
    ∧ length v = length (_diagonal pattern_counts)
    ∧ length w = length (_off_diagonal pattern_counts)
    ∧ ∀ r : nat, ¬ owned_full_row pattern_counts (Z.of_nat r) →
        (∀ row, _diagonal pattern_counts !! r = Some row →
           ∃ prow, v !! r = Some prow ∧ hands_out sorted row prow)
        ∧ (∀ row, _off_diagonal pattern_counts !! r = Some row →
             ∃ prow, w !! r = Some prow ∧ hands_out sorted row prow).
Proof.
  apply (ordinary_row_patterns sorted pattern_counts).
  - apply pattern_counts_full_rows_empty.
  - compute_done.
  - compute_done.
Defined.

(** X15.  The per-row counts are the row lengths of the patterns:
    [num_nonzeros_diagonal] holds the length of each row of
    [diagonal_pattern], and [num_nonzeros_off_diagonal] the length of
    each row of [off_diagonal_pattern], full rows included. *)
Theorem counts_are_pattern_lengths type s :
  counts_storable s → full_rows_empty s → range1_consistent s →
  ∃ v w d o,
    diagonal_pattern type s = Ok v ∧ off_diagonal_pattern type s = Ok w
    ∧ num_nonzeros_diagonal s = Ok d ∧ num_nonzeros_off_diagonal s = Ok o
    ∧ d = vsize <$> v ∧ o = vsize <$> w.
Proof.
  intros Hst Hfull [Hown Hlo Hord Hup].
  destruct (run_diagonal_pattern type s Hfull) as (v & Hv & Hvlen & Hvr).
  destruct (run_off_diagonal_pattern type s Hfull) as (w & Hw & Hwlen & Hwr).
  destruct (run_num_nonzeros_diagonal s Hst) as (d & Hd & Hdlen & Hdr).
  destruct (run_num_nonzeros_off_diagonal s Hst) as (o & Ho & Holen & Hor).
  exists v, w, d, o. split_and!; [done..| |].
  - apply list_eq. intros r. rewrite list_lookup_fmap.
    destruct (_diagonal s !! r) as [row|] eqn:Hrow.
    + rewrite (Hdr r row Hrow), (Hvr r row Hrow). simpl. f_equal.
      case_decide; [|by rewrite vsize_arranged].
      unfold vsize, owned_cols. rewrite length_seqZ, Hown. lia.
    + apply lookup_ge_None in Hrow.
      rewrite !(proj2 (lookup_ge_None _ _)) by lia. done.
  - apply list_eq. intros r. rewrite list_lookup_fmap.
    destruct (_off_diagonal s !! r) as [row|] eqn:Hrow.
    + rewrite (Hor r row Hrow), (Hwr r row Hrow). simpl. f_equal.
      case_decide; [|by rewrite vsize_arranged].
      unfold vsize, owned_cols. rewrite length_app, !length_seqZ, Hown. lia.
    + apply lookup_ge_None in Hrow.
      rewrite !(proj2 (lookup_ge_None _ _)) by lia. done.
Qed.

Lemma counts_are_pattern_lengths_witness :
  ∃ v w d o,
    diagonal_pattern unsorted pattern_counts = Ok v
    ∧ off_diagonal_pattern unsorted pattern_counts = Ok w
    ∧ num_nonzeros_diagonal pattern_counts = Ok d
    ∧ num_nonzeros_off_diagonal pattern_counts = Ok o
    ∧ d = vsize <$> v ∧ o = vsize <$> w.
Proof.
  apply (counts_are_pattern_lengths unsorted pattern_counts).
  - apply pattern_counts_storable.
  - apply pattern_counts_full_rows_empty.
  - split; vm_compute; congruence.
Defined.

(** The loop over the full rows stops at its assertion when it reaches a
    locally owned full row that is not an empty row of the block. *)
Lemma exec_fill_rows_abort (F : list Z) (ls0 : Z) (Js : list Z)
    (v : list (list Z)) r :
  r ∈ F → r < ls0 → 0 ≤ r → v !! Z.to_nat r ≠ Some [] →
  exec (for_each (λ row, if bool_decide (ls0 ≤ row) then mret tt
                         else fill_row row Js) F) v = Abort.
Proof.
  intros Hr Hlt Hr0. revert v.
  induction F as [|x F IH]; intros v Hrow; [by apply elem_of_nil in Hr|].
  unfold exec. rewrite for_each_cons, run_bind.
  destruct (decide (x = r)) as [->|Hne].
  - rewrite bool_decide_eq_false_2 by lia. unfold fill_row.
    destruct (v !! Z.to_nat r) as [row|]; [|done].
    rewrite bool_decide_eq_true_2 by done.
    rewrite (bool_decide_eq_false_2 (row = [])) by congruence. done.
  - apply elem_of_cons in Hr as [->|Hr]; [done|].
    case_bool_decide as Hx; [rewrite run_ret; by apply IH|].
    unfold fill_row. destruct (v !! Z.to_nat x) as [row|]; [|done].
    case_bool_decide as Hx0; [|done]. case_bool_decide; [|done]. simpl.
    apply IH; [done|]. rewrite list_lookup_insert_ne by lia. done.
Qed.

Lemma arranged_lookup_nonempty type (v : list DSet.t) (i : nat) :
  v !! i ≠ Some [] → (arranged type <$> v) !! i ≠ Some [].
Proof.
  rewrite list_lookup_fmap. destruct (v !! i) as [row|]; [|done]. simpl.
  intros Hrow [= Hnil]. apply Hrow. f_equal.
  apply (f_equal vsize) in Hnil. rewrite vsize_arranged in Hnil.
  by destruct row.
Qed.

(** X16.  The two pattern functions assert that a locally owned full
    row has an empty explicit set: when such a row holds a column in the
    diagonal block, [diagonal_pattern] stops at its assertion, and when
    it holds one in the off-diagonal block, [off_diagonal_pattern]
    does, whatever the type asked for. *)
Theorem patterns_assert_full_rows_empty type s r :
  owned_full_row s r → 0 ≤ r →
  (_diagonal s !! Z.to_nat r ≠ Some [] → diagonal_pattern type s = Abort)
  ∧ (_off_diagonal s !! Z.to_nat r ≠ Some []
     → off_diagonal_pattern type s = Abort).
Proof.
  intros [Hr Hown] Hr0.
  assert (0 < DSet.size (_full_rows s)) as Hsz.
  { unfold DSet.size. destruct (_full_rows s); [by apply elem_of_nil in Hr|].
    simpl. lia. }
  split; intros Hrow.
  - unfold diagonal_pattern. rewrite bool_decide_eq_true_2 by done.
    apply (exec_fill_rows_abort _ _ _ _ r); [done..|].
    destruct type; [by apply (arranged_lookup_nonempty sorted)|done].
  - unfold off_diagonal_pattern. rewrite bool_decide_eq_true_2 by done.
    apply (exec_fill_rows_abort _ _ _ _ r); [done..|].
    destruct type; [by apply (arranged_lookup_nonempty sorted)|done].
Qed.

Lemma patterns_assert_full_rows_empty_witness :
  (_diagonal pattern_full_stored !! Z.to_nat 1 ≠ Some []
   → diagonal_pattern sorted pattern_full_stored = Abort)
  ∧ (_off_diagonal pattern_full_stored !! Z.to_nat 1 ≠ Some []
     → off_diagonal_pattern sorted pattern_full_stored = Abort).
Proof.
  apply (patterns_assert_full_rows_empty sorted pattern_full_stored 1).
  - split; [by left|vm_compute; reflexivity].
  - lia.
Defined.

(** ** The non-local buffer between insertion and [apply] *)

Global Instance keeps_ghost_buffer_preorder n :
  PreOrder (keeps_ghost_buffer n).
Proof. split; unfold keeps_ghost_buffer; [by intros ?|intros ???; auto]. Qed.

Lemma keeps_buffer_ghost n s s' :
  keeps_buffer s s' → keeps_ghost_buffer n s s'.
Proof. intros [_ Hb]. unfold keeps_ghost_buffer. by rewrite Hb. Qed.

Lemma ghost_buffer_push n b I J :
  n ≤ I → ghost_buffer n b → ghost_buffer n ((b ++ [I]) ++ [J]).
Proof.
  intros HI (pairs & -> & Hpairs). exists (pairs ++ [(I, J)]). split.
  - by rewrite flat_app, <- app_assoc.
  - apply Forall_app. split; [done|]. by constructor.
Qed.

Lemma insert_non_local_entry_ghost s0 col_map I j_index s :
  local_size0 s0 ≤ to_size_t I →
  keeps_ghost_buffer (local_size0 s0) s
    (insert_non_local_entry s0 col_map I j_index s).2.
Proof.
  intros HI. unfold insert_non_local_entry. cbv zeta.
  rewrite run_bind, run_lift.
  destruct (col_map _ _) as [J| |]; cbv beta iota; [|reflexivity..].
  rewrite run_bind, !run_modify. cbv beta iota. simpl.
  intros Hb. by apply ghost_buffer_push.
Qed.

Lemma insert_entries_ghost rows cols row_map col_map s :
  0 ≤ local_size0 s →
  (∀ r I, r ∈ rows → row_map r (_index_maps s).1 = Ok I → I < 2 ^ 64) →
  keeps_ghost_buffer (local_size0 s) s
    (insert_entries rows cols row_map col_map s).2.
Proof.
  intros Hn Hrows. unfold insert_entries. rewrite run_bind, run_get.
  cbv beta iota zeta. case_bool_decide.
  - apply keeps_buffer_ghost, (for_index_related keeps_buffer).
    intros. apply insert_row_sequential_keeps_buffer.
  - apply (for_each_related_elem (keeps_ghost_buffer _)). intros r s1 Hr.
    unfold insert_row_parallel. cbv zeta. rewrite run_bind, run_lift.
    destruct (row_map _ _) as [I| |] eqn:HI; cbv beta iota;
      [|reflexivity..].
    destruct (_ && _); [reflexivity|]. fold (local_size0 s).
    case_bool_decide as Hloc.
    + apply keeps_buffer_ghost, (for_each_related keeps_buffer).
      intros. apply insert_local_entry_keeps_buffer.
    + apply (for_each_related (keeps_ghost_buffer _)). intros c s2.
      apply insert_non_local_entry_ghost.
      rewrite to_size_t_small; [lia|]. split; [lia|]. by eapply Hrows.
Qed.

Lemma run_op_ghost_buffer (o : op) s :
  range0_consistent s → 0 ≤ local_size0 s →
  Forall fits_index (op_rows o) →
  buffer_on_ghost_rows s → buffer_on_ghost_rows (run_op o s).2.
Proof.
  intros Hcons Hn Hrows. unfold buffer_on_ghost_rows.
  pose proof (insertion_keeps_local_size o s) as ->.
  assert (∀ r I, r ∈ op_rows o → Ok r = Ok I → I < 2 ^ 64) as Hfit.
  { intros r I Hr [= <-]. eapply Forall_forall in Hrows; [|exact Hr].
    unfold fits_index in Hrows. lia. }
  destruct o as [rows cols|rows cols|rows cols]; cbn [run_op op_rows] in *.
  - by apply keeps_buffer_ghost, insert_global_keeps_buffer.
  - by apply insert_entries_ghost.
  - by apply insert_entries_ghost.
Qed.



(** ** Which block holds which column *)

Global Instance keeps_split_preorder s0 : PreOrder (keeps_split s0).
Proof. split; unfold keeps_split; [by intros ?|intros ???; auto]. Qed.

Lemma keeps_split_blocks s0 s s' :
  _diagonal s' = _diagonal s → _off_diagonal s' = _off_diagonal s →
  keeps_split s0 s s'.
Proof. intros Hd Ho. unfold keeps_split. by rewrite Hd, Ho. Qed.

Lemma diagonal_insert_split s0 I J s :
  owns_col s0 J → keeps_split s0 s (diagonal_insert I J s).2.
Proof.
  intros HJ. unfold diagonal_insert, inside. case_bool_decide; [|reflexivity].
  intros Hs r c. simpl. rewrite entry_row_insert by lia. split.
  - intros [?|(_ & _ & ->)]; [by apply (Hs r c)|done].
  - apply Hs.
Qed.

Lemma off_diagonal_insert_split s0 I J s :
  ¬ owns_col s0 J → keeps_split s0 s (off_diagonal_insert I J s).2.
Proof.
  intros HJ. unfold off_diagonal_insert, inside.
  case_bool_decide; [|reflexivity].
  intros Hs r c. simpl. rewrite entry_row_insert by lia. split.
  - apply Hs.
  - intros [?|(_ & _ & ->)]; [by apply (Hs r c)|done].
Qed.

Lemma insert_local_entry_split s0 col_map I c s :
  (∀ J, col_map c (_index_maps s0).2 = Ok J → 0 ≤ J < 2 ^ 64) →
  keeps_split s0 s (insert_local_entry s0 col_map I c s).2.
Proof.
  intros Hcol. unfold insert_local_entry. cbv zeta.
  rewrite run_bind, run_lift.
  destruct (col_map _ _) as [J| |]; cbv beta iota; [|reflexivity..].
  rewrite owns_col_bool, to_size_t_small by by apply Hcol.
  case_bool_decide as HJ; rewrite run_bind, run_get; cbv beta iota;
    (apply (bind_related (keeps_split s0));
     [apply (assert_related (keeps_split s0))|]);
    intros _ s1; auto using diagonal_insert_split, off_diagonal_insert_split.
Qed.

Lemma insert_non_local_entry_split s0 col_map I c s :
  keeps_split s0 s (insert_non_local_entry s0 col_map I c s).2.
Proof.
  unfold insert_non_local_entry. cbv zeta. rewrite run_bind, run_lift.
  destruct (col_map _ _) as [J| |]; cbv beta iota; [|reflexivity..].
  rewrite run_bind, !run_modify. cbv beta iota. by apply keeps_split_blocks.
Qed.

Lemma insert_entries_split rows cols row_map col_map s :
  MPI.size (_mpi_comm s) ≠ 1 →
  (∀ c J, c ∈ cols → col_map c (_index_maps s).2 = Ok J → 0 ≤ J < 2 ^ 64) →
  keeps_split s s (insert_entries rows cols row_map col_map s).2.
Proof.
  intros Hsz Hcols. unfold insert_entries. rewrite run_bind, run_get.
  cbv beta iota zeta. rewrite bool_decide_eq_false_2 by done.
  apply (for_each_related (keeps_split s)). intros r s1.
  unfold insert_row_parallel. cbv zeta. rewrite run_bind, run_lift.
  destruct (row_map _ _) as [I| |]; cbv beta iota; [|reflexivity..].
  destruct (_ && _); [reflexivity|]. case_bool_decide.
  - apply (for_each_related_elem (keeps_split s)). intros c s2 Hc.
    apply insert_local_entry_split. intros J. by apply Hcols.
  - apply (for_each_related (keeps_split s)). intros c s2.
    apply insert_non_local_entry_split.
Qed.

Lemma mapped_col_ok (o : op) s c J :
  match o with
  | Insert_local _ _ =>
      Ok (IndexMap.local_to_global (_index_maps s).2
            (Z.quot c (IndexMap.block_size (_index_maps s).2))
          + Z.rem c (IndexMap.block_size (_index_maps s).2))
  | _ => Ok c
  end = Ok J → J = mapped_col s o c.
Proof. destruct o; by intros [= <-]. Qed.

Lemma run_op_split (o : op) s :
  MPI.size (_mpi_comm s) ≠ 1 → cols_in_range s o →
  blocks_split s → blocks_split (run_op o s).2.
Proof.
  intros Hsz Hcols Hs. unfold blocks_split.
  assert (∀ c, owns_col (run_op o s).2 c ↔ owns_col s c) as Hown.
  { intros c. destruct (run_op_keeps o s) as [[_ Hmaps _ _ _ _ _] _].
    unfold owns_col. by rewrite Hmaps. }
  cut (split_by s (_diagonal (run_op o s).2) (_off_diagonal (run_op o s).2)).
  { intros H r c. rewrite (Hown c). apply H. }
  revert Hs. unfold cols_in_range in Hcols.
  destruct o as [rows cols|rows cols|rows cols]; cbn [run_op op_cols] in *;
    apply insert_entries_split; try done; intros c J Hc HJ;
    eapply Forall_forall in Hcols; try exact Hc.
  - apply (mapped_col_ok (Insert_global rows cols) s) in HJ as ->.
    cbv beta in Hcols. lia.
  - apply (mapped_col_ok (Insert_local rows cols) s) in HJ as ->.
    cbv beta in Hcols. lia.
  - apply (mapped_col_ok (Insert_local_global rows cols) s) in HJ as ->.
    cbv beta in Hcols. lia.
Qed.

(** Where the index maps, and a column that is not negative, fit
    [la_index_t], the conversions change neither the test that chooses
    the block of the column nor the column that is stored. *)
Lemma la_index_conversions_keep s c :
  maps_fit s → 0 ≤ c < 2 ^ 31 →
  owns_col_la_index s c = bool_decide (owns_col s c)
  ∧ to_size_t (to_int32 c) = to_size_t c.
Proof.
  intros [_ _ Hlo Hhi] Hc. unfold owns_col_la_index. cbv zeta.
  assert (∀ z, fits_int32 z → to_int32 (to_size_t z) = z) as Hconv.
  { intros z Hz. unfold to_int32, to_size_t, fits_int32 in *.
    pose proof (Z.div_mod z (2 ^ 64)) as Hdm.
    replace (z `mod` 2 ^ 64 + 2 ^ 31)
      with (z + 2 ^ 31 + (- (2 ^ 32 * (z `div` 2 ^ 64))) * 2 ^ 32) by lia.
    rewrite Z_mod_plus_full, Z.mod_small; lia. }
  rewrite !Hconv, (to_int32_small c) by (done || unfold fits_int32; lia).
  split; [|done]. unfold owns_col. cbv zeta.
  repeat case_bool_decide; simpl; try done; lia.
Qed.

(** X18.  On more than one process, when the index maps have positive
    block sizes, the bounds of the owned column range fit [la_index_t]
    (a 32-bit [int]) and the global columns of the call are not negative
    and fit it, an insertion through any of the three entry points,
    whatever its outcome, keeps the blocks split by the owned column
    range: the diagonal block holds owned columns only and the
    off-diagonal block holds none of them. *)
Theorem insertion_keeps_blocks_split (o : op) s :
  MPI.size (_mpi_comm s) ≠ 1 → maps_fit s → cols_in_range s o →
  blocks_split s → blocks_split (run_op o s).2.
Proof. intros Hsz _. by apply run_op_split. Qed.

Lemma insertion_keeps_blocks_split_witness :
  blocks_split (run_op (Insert_local [0; 2] [1; 2]) pattern_rank0).2.
Proof.
  apply (insertion_keeps_blocks_split (Insert_local [0; 2] [1; 2])
           pattern_rank0).
  - simpl. lia.
  - split; vm_compute; intuition congruence.
  - repeat constructor; vm_compute; congruence.
  - intros r c. split; intros Hent; by apply entry_empty in Hent.
Defined.

Global Instance keeps_split_maps_preorder s0 : PreOrder (keeps_split_maps s0).
Proof.
  split; unfold keeps_split_maps.
  - intros s Hs. split; [done|reflexivity].
  - intros s1 s2 s3 H12 H23 H1. destruct (H12 H1) as [H2 Hk12].
    destruct (H23 H2) as [H3 Hk23]. split; [done|]. by etrans.
Qed.

Lemma keeps_split_with_maps s0 s s' :
  _index_maps s' = _index_maps s → keeps_split s0 s s' →
  keeps_split_maps s0 s s'.
Proof. intros Hm Hk Hs. split; [congruence|done]. Qed.

Lemma owns_col_maps s s0 J :
  _index_maps s = _index_maps s0 → owns_col s J ↔ owns_col s0 J.
Proof. intros Hm. unfold owns_col. by rewrite Hm. Qed.

Lemma insert_received_entry_split s0 I J s :
  0 ≤ J < 2 ^ 64 →
  keeps_split_maps s0 s (insert_received_entry I J s).2.
Proof.
  intros HJ Hm.
  assert (_index_maps (insert_received_entry I J s).2 = _index_maps s0)
    as Hm'.
  { destruct (insert_received_entry_keeps I J s) as [[_ H _ _ _ _ _] _].
    congruence. }
  split; [done|]. clear Hm'.
  unfold insert_received_entry. rewrite run_bind, run_get. cbv beta iota zeta.
  rewrite owns_col_bool, (to_size_t_small J) by done.
  apply (bind_related (keeps_split s0)).
  { destruct (_ || _); reflexivity. }
  intros _ s1. case_bool_decide as Hown;
    (apply (bind_related (keeps_split s0));
     [apply (assert_related (keeps_split s0))|]); intros _ s2.
  - apply diagonal_insert_split. by apply (owns_col_maps s s0).
  - apply off_diagonal_insert_split. by rewrite <- (owns_col_maps s s0).
Qed.

Lemma insert_received_split s0 recv s :
  Forall (λ x, 0 ≤ x < 2 ^ 64) recv →
  keeps_split_maps s0 s (insert_received recv s).2.
Proof.
  revert s. induction recv as [recv IH] using (induction_ltof1 _ length).
  unfold ltof in IH. intros s Hrecv.
  destruct recv as [|I [|J rest]]; [reflexivity..|].
  cbn [insert_received]. apply Forall_cons in Hrecv as [_ Hrecv].
  apply Forall_cons in Hrecv as [HJ Hrecv].
  apply (bind_related (keeps_split_maps s0)).
  - by apply insert_received_entry_split.
  - intros _ s'. apply IH; [simpl; lia|done].
Qed.

Lemma apply_keeps_maps_split oracle s :
  hands_back_la_index oracle → keeps_split_maps s s (apply oracle s).2.
Proof.
  intros Horacle. unfold apply. rewrite run_bind, run_get. cbv beta iota zeta.
  apply (bind_related (keeps_split_maps s)).
  - case_bool_decide; [|reflexivity].
    apply (bind_related (keeps_split_maps s));
      [apply (assert_related (keeps_split_maps s))|].
    intros _ s1. apply (bind_related (keeps_split_maps s)); [reflexivity|].
    intros out s2.
    apply (bind_related (keeps_split_maps s));
      [apply (assert_related (keeps_split_maps s))|].
    intros _ s3. apply insert_received_split.
    eapply Forall_impl; [apply Horacle|]. cbv beta. lia.
  - intros _ s1. rewrite run_modify. simpl.
    by apply keeps_split_with_maps, keeps_split_blocks.
Qed.

(** X19.  When the index maps have positive block sizes, the bounds of
    the owned column range fit [la_index_t] (a 32-bit [int]) and the
    values the exchange hands back are not negative and fit it, [apply]
    keeps the blocks split by the owned column range, whatever its
    outcome: a received column is stored in the diagonal block when it
    is owned and in the off-diagonal block when it is not. *)
Theorem apply_keeps_blocks_split oracle s :
  maps_fit s → hands_back_la_index oracle →
  blocks_split s → blocks_split (apply oracle s).2.
Proof.
  intros _ Horacle Hs. unfold blocks_split.
  destruct (apply_keeps_maps_split oracle s Horacle eq_refl) as [Hm Hk].
  intros r c. rewrite (owns_col_maps _ s c Hm). by apply Hk.
Qed.

Lemma apply_keeps_blocks_split_witness :
  blocks_split (apply (λ _, [3; 2; 2; 0]) pattern_rank1).2.
Proof.
  apply (apply_keeps_blocks_split (λ _, [3; 2; 2; 0]) pattern_rank1).
  - split; vm_compute; intuition congruence.
  - intros out. repeat constructor; lia.
  - intros r c. split; intros Hent; by apply entry_empty in Hent.
Defined.

(** ** One process: the diagonal block only *)

Global Instance keeps_off_diagonal_preorder : PreOrder keeps_off_diagonal.
Proof.
  split; unfold keeps_off_diagonal; [done|].
  intros s1 s2 s3 [] []. split; congruence.
Qed.

Lemma insert_row_sequential_keeps_off s0 map_j i i_index s :
  keeps_off_diagonal s (insert_row_sequential s0 map_j i i_index s).2.
Proof.
  unfold insert_row_sequential. cbv zeta.
  related keeps_off_diagonal.
  unfold diagonal_insert_range. by case_inside.
Qed.

(** X20.  On one process an insertion through any of the three entry
    points, whatever its outcome, leaves the off-diagonal block and the
    non-local buffer as they were: every column goes to the diagonal
    block, owned or not.  [apply] makes no exchange there: it returns
    normally and does nothing but clear the buffer. *)
Theorem serial_insertion_fills_diagonal_only (o : op) oracle s :
  MPI.size (_mpi_comm s) = 1 →
  keeps_off_diagonal s (run_op o s).2
  ∧ apply oracle s = (Ok tt, set_non_local (λ _, []) s).
Proof.
  intros Hsz. split.
  - destruct o as [rows cols|rows cols|rows cols]; cbn [run_op];
      unfold insert_global, insert_local, insert_local_global, insert_entries;
      cbv zeta; rewrite run_bind, run_get; cbv beta iota;
      rewrite bool_decide_eq_true_2 by done;
      apply (for_index_related keeps_off_diagonal);
      intros; apply insert_row_sequential_keeps_off.
  - unfold apply. rewrite run_bind, run_get. cbv beta iota zeta.
    rewrite bool_decide_eq_false_2 by lia.
    by rewrite run_bind, run_ret, run_modify.
Qed.

Lemma serial_insertion_fills_diagonal_only_witness :
  keeps_off_diagonal (serial_pattern 3 3)
    (run_op (Insert_global [0; 1] [0; 2]) (serial_pattern 3 3)).2
  ∧ apply (λ _, [0; 0]) (serial_pattern 3 3)
    = (Ok tt, set_non_local (λ _, []) (serial_pattern 3 3)).
Proof.
  apply (serial_insertion_fills_diagonal_only (Insert_global [0; 1] [0; 2])
           (λ _, [0; 0]) (serial_pattern 3 3)).
  reflexivity.
Defined.

(** ** A fresh pattern *)

Lemma vsize_replicate {A} n (x : A) :
  0 ≤ n → vsize (replicate (Z.to_nat n) x) = n.
Proof. intros. unfold vsize. rewrite length_replicate. lia. Qed.

(** X21.  The constructor from a communicator and a pair of index maps
    makes a pattern with one empty row for each owned row element in
    both blocks, no full rows and an empty buffer: it has no nonzeros,
    its patterns of either type are rows without columns, and it has
    what the insertion entry points and [apply] keep. *)
Theorem fresh_pattern comm maps type :
  0 ≤ IndexMap.block_size maps.1 * IndexMap.size maps.1 IndexMap.OWNED →
  let s := SparsityPattern_new comm maps in
  rows_allocated s
  ∧ num_nonzeros s = 0
  ∧ diagonal_pattern type s = Ok (replicate (Z.to_nat (local_size0 s)) [])
  ∧ off_diagonal_pattern type s
    = Ok (replicate (Z.to_nat (local_size0 s)) [])
  ∧ blocks_split s ∧ buffer_on_ghost_rows s ∧ full_rows_empty s
  ∧ Forall NoDup (_diagonal s) ∧ Forall NoDup (_off_diagonal s).
Proof.
  intros Hn s.
  destruct (fresh_blocks comm maps) as (Hd & Ho & Hde & Hoe).
  assert (∀ n, arranged type <$> replicate n ([] : list Z) = replicate n [])
    as Harr.
  { intros n. by rewrite fmap_replicate, arranged_nil. }
  split_and!; try done.
  - split; unfold s, local_size0; simpl; unfold resize_by;
      rewrite app_nil_l; by apply vsize_replicate.
  - rewrite num_nonzeros_sum. unfold s, num_owned_full_rows. simpl.
    unfold resize_by. rewrite app_nil_l, sum_sizes_empty.
    unfold vsize. simpl. lia.
  - unfold diagonal_pattern, s. simpl. unfold resize_by.
    rewrite app_nil_l. destruct type; [|done].
    by rewrite (Harr _ : merge_sort Z.le <$> _ = _).
  - unfold off_diagonal_pattern, s. simpl. unfold resize_by.
    rewrite app_nil_l. destruct type; [|done].
    by rewrite (Harr _ : merge_sort Z.le <$> _ = _).
  - intros r c. split; intros Hent; [by apply Hde in Hent|].
    by apply Hoe in Hent.
  - exists []. split; [done|constructor].
  - split; unfold owned_full_row; simpl.
    + constructor.
    + by intros r [?%elem_of_nil _].
    + by intros r [?%elem_of_nil _].
Qed.

Lemma fresh_pattern_witness :
  let s := SparsityPattern_new (MPI.mk 2 0) (map_rank0, map_rank0) in
  rows_allocated s
  ∧ num_nonzeros s = 0
  ∧ diagonal_pattern sorted s = Ok (replicate (Z.to_nat (local_size0 s)) [])
  ∧ off_diagonal_pattern sorted s
    = Ok (replicate (Z.to_nat (local_size0 s)) [])
  ∧ blocks_split s ∧ buffer_on_ghost_rows s ∧ full_rows_empty s
  ∧ Forall NoDup (_diagonal s) ∧ Forall NoDup (_off_diagonal s).
Proof.
  apply (fresh_pattern (MPI.mk 2 0) (map_rank0, map_rank0) sorted).
  vm_compute. congruence.
Defined.

(** ** What the merge constructor leaves out *)

Global Instance keeps_marks_preorder d : PreOrder (keeps_marks d).
Proof.
  split.
  - intros s. by split.
  - intros s1 s2 s3 [] []. split; try congruence; auto.
    intros Hd. rewrite marks_off1, marks_off0 by done. done.
Qed.

Lemma keeps_buffer_marks s s' :
  keeps_buffer s s' → keeps_marks true s s'.
Proof. intros [[] ?]. by split. Qed.

Lemma diagonal_insert_marks d i x s :
  keeps_marks d s (diagonal_insert i x s).2.
Proof.
  unfold diagonal_insert. case_inside; [|reflexivity].
  split; simpl; try done.
  apply Forall_NoDup_alter, DSet_NoDup_insert.
Qed.

Lemma vat_related {St A} (R : St → St → Prop) `{!PreOrder R}
    (v : list A) i (s : St) : R s (vat v i s).2.
Proof.
  unfold vat. destruct (v !! Z.to_nat i); [|reflexivity].
  case_bool_decide; reflexivity.
Qed.

Lemma NoDup_resize_rows n (v : list DSet.t) :
  Forall NoDup v → Forall NoDup (resize_by n v).
Proof.
  intros Hv. unfold resize_by. apply Forall_app. split; [done|].
  apply Forall_replicate. constructor.
Qed.

Section merge_marks.
Variable get_global_index : list IndexMap.t → Z → Z → Z.
Variable IndexMap_new : MPI.Comm → Z → list Z → Z → IndexMap.t.

Lemma row_sizes_state patterns a b s :
  (row_sizes patterns a b s).2 = s.
Proof.
  revert a b. induction patterns as [|prow rest IH]; intros a b; [done|].
  cbn [row_sizes]. rewrite run_bind. unfold vat.
  destruct (prow !! Z.to_nat 0); [|done]. case_bool_decide; [|done].
  apply IH.
Qed.

Lemma merge_block_marks d cmaps off col p s :
  keeps_marks d s (merge_block get_global_index d cmaps off col p s).2.
Proof.
  unfold merge_block. apply (bind_related (keeps_marks d)).
  { case_bool_decide; reflexivity. }
  intros _ s1. apply (for_index_related (keeps_marks d)). intros k edges0 s2.
  apply (bind_related (keeps_marks d)).
  { apply (for_each_related (keeps_marks d)). intros c s3.
    apply diagonal_insert_marks. }
  intros _ s3. destruct d; [|reflexivity].
  apply (bind_related (keeps_marks true));
    [apply (vat_related (keeps_marks true))|].
  intros edges1 s4. apply (for_each_related (keeps_marks true)).
  intros c s5. apply keeps_buffer_marks, off_diagonal_insert_keeps.
Qed.

Lemma merge_rows_marks d cmaps off patterns s :
  keeps_marks d s (merge_rows get_global_index d cmaps off patterns s).2.
Proof.
  revert off s. induction patterns as [|prow rest IH]; intros off s.
  { reflexivity. }
  cbn [merge_rows].
  apply (bind_related (keeps_marks d));
    [apply (vat_related (keeps_marks d))|].
  intros p0 s1.
  apply (bind_related (keeps_marks d));
    [apply (assert_related (keeps_marks d))|].
  intros _ s2. apply (bind_related (keeps_marks d)).
  { rewrite run_modify. split; simpl; try done. apply NoDup_resize_rows. }
  intros _ s3. apply (bind_related (keeps_marks d)).
  { destruct d; [|reflexivity].
    apply (bind_related (keeps_marks true));
      [apply (assert_related (keeps_marks true))|].
    intros _ s4. rewrite run_modify. split; simpl; try done.
    apply NoDup_resize_rows. }
  intros _ s4. apply (bind_related (keeps_marks d)).
  { apply (for_index_related (keeps_marks d)). intros col p s5.
    apply merge_block_marks. }
  intros _ s5. apply IH.
Qed.

Lemma merge_body_marks comm patterns s :
  keeps_marks (bool_decide (1 < MPI.size comm)) s
    (merge_body get_global_index IndexMap_new comm patterns s).2.
Proof.
  unfold merge_body. cbv zeta.
  set (d := bool_decide (1 < MPI.size comm)).
  apply (bind_related (keeps_marks d)).
  { rewrite row_sizes_state. reflexivity. }
  intros [a b] s1. apply (bind_related (keeps_marks d));
    [apply (vat_related (keeps_marks d))|].
  intros prow0 s2. destruct (col_sizes prow0 [] 0 0) as [[cmaps c1] c2].
  apply (bind_related (keeps_marks d)); [apply merge_rows_marks|].
  intros _ s3. apply (bind_related (keeps_marks d));
    [apply (vat_related (keeps_marks d))|].
  intros p00 s4. rewrite run_modify. by split.
Qed.
End merge_marks.

(** X22.  Whatever its outcome and whatever the sub-patterns hold, the
    merge constructor leaves the composite pattern without full rows and
    without buffered entries, so that rows marked full in a sub-pattern
    are not full rows of the composite; its row sets have no repetition;
    and on one process it has no off-diagonal block. *)
Theorem merge_leaves_out_marks get_global_index IndexMap_new comm patterns :
  let s := (SparsityPattern_merge get_global_index IndexMap_new comm
              patterns).2 in
  _full_rows s = [] ∧ _non_local s = []
  ∧ Forall NoDup (_diagonal s) ∧ Forall NoDup (_off_diagonal s)
  ∧ (MPI.size comm ≤ 1 → _off_diagonal s = []).
Proof.
  unfold SparsityPattern_merge.
  destruct (merge_body_marks get_global_index IndexMap_new comm patterns
              (under_construction comm)) as [_ Hfull Hbuf Hd Ho Hoff].
  split_and!; [done|done|by apply Hd|by apply Ho|].
  intros Hsz. apply Hoff. by apply bool_decide_eq_false_2, Z.le_ngt.
Qed.

Lemma merge_leaves_out_marks_witness :
  let s := (SparsityPattern_merge get_global_index_serial IndexMap_new_serial
              (MPI.mk 1 0) [[block_marked]]).2 in
  _full_rows s = [] ∧ _non_local s = []
  ∧ Forall NoDup (_diagonal s) ∧ Forall NoDup (_off_diagonal s)
  ∧ (MPI.size (MPI.mk 1 0) ≤ 1 → _off_diagonal s = []).
Proof.
  apply (merge_leaves_out_marks get_global_index_serial IndexMap_new_serial
           (MPI.mk 1 0) [[block_marked]]).
Defined.

(** ** The rows one process accepts *)




(** ** What a normal return of [apply] says of the buffer *)

Lemma resolve_entry_checked s i_index J b b' :
  resolve_entry s i_index J b = (Ok tt, b') → sendable s i_index.
Proof.
  unfold resolve_entry. cbv zeta. intros H.
  apply bind_ok_inv in H as (? & b1 & [Hown ->]%assert_ok_inv & H).
  apply bind_ok_inv in H as (? & b1 & [_ ->]%assert_ok_inv & H).
  apply bind_ok_inv in H as (? & b1 & [_ ->]%assert_ok_inv & H).
  apply bind_ok_inv in H as (p0 & b1 & (Hp0 & Hslot & ->)%at_ok_inv & H).
  apply bind_ok_inv in H as (? & b1 & [Hlt ->]%assert_ok_inv & H).
  apply bind_ok_inv in H as (? & b1 & [Hne ->]%assert_ok_inv & _).
  apply bool_decide_eq_true in Hown, Hlt, Hne.
  split; [done|]. exists p0. done.
Qed.

Lemma resolve_non_local_checked s buf b b' :
  resolve_non_local s buf b = (Ok tt, b') →
  ∃ pairs, buf = flat pairs ∧ Forall (λ p, sendable s p.1) pairs.
Proof.
  revert b. induction buf as [buf IH] using (induction_ltof1 _ length).
  unfold ltof in IH. intros b.
  destruct buf as [|i_index [|J rest]]; cbn [resolve_non_local].
  - intros _. exists []. split; [done|constructor].
  - done.
  - intros ([] & b1 & H1 & Hrest)%bind_ok_inv.
    apply resolve_entry_checked in H1.
    apply IH in Hrest as (pairs & -> & Hpairs); [|simpl; lia].
    exists ((i_index, J) :: pairs). split; [done|]. by constructor.
Qed.

(** X24.  On more than one process [apply] returns normally only when
    the non-local buffer holds whole pairs, each on a row that is not
    owned and whose place in the ghost tables names another process of
    the communicator as its owner, and when the exchange hands back
    whole pairs; otherwise it stops at one of its assertions or at the
    exception for an illegal entry. *)
Theorem apply_returns_on_checked_buffer oracle s :
  1 < MPI.size (_mpi_comm s) →
  (apply oracle s).1 = Ok tt →
  ∃ pairs out,
    _non_local s = flat pairs ∧ Forall (λ p, sendable s p.1) pairs
    ∧ non_local_send s = Ok out ∧ vsize (oracle out) `mod` 2 = 0.
Proof.
  intros Hsz. destruct (apply oracle s) as [[[]| |] s'] eqn:Hrun; [|done..].
  intros _. revert Hrun. unfold apply. rewrite run_bind, run_get.
  cbv beta iota zeta. rewrite bool_decide_eq_true_2 by done.
  intros ([] & s1 & Hrun & _)%bind_ok_inv.
  apply bind_ok_inv in Hrun as (? & s2 & [_ ->]%assert_ok_inv & Hrun).
  apply bind_ok_inv in Hrun as (out & s2 & Hsend & Hrun).
  rewrite run_lift in Hsend. injection Hsend as Hsend <-.
  apply bind_ok_inv in Hrun as (? & s2 & [Heven ->]%assert_ok_inv & _).
  apply bool_decide_eq_true in Heven.
  pose proof Hsend as Hres. unfold non_local_send in Hres.
  apply exec_ok_inv, resolve_non_local_checked in Hres
    as (pairs & Hbuf & Hpairs).
  by exists pairs, out.
Qed.

Lemma apply_returns_on_checked_buffer_witness :
  ∃ pairs out,
    _non_local (insert_local_global [2] [0; 3] pattern_rank0).2 = flat pairs
    ∧ Forall (λ p, sendable (insert_local_global [2] [0; 3] pattern_rank0).2
                     p.1) pairs
    ∧ non_local_send (insert_local_global [2] [0; 3] pattern_rank0).2 = Ok out
    ∧ vsize ((λ _, [0; 1]) out) `mod` 2 = 0.
Proof.
  apply (apply_returns_on_checked_buffer (λ _, [0; 1])
           (insert_local_global [2] [0; 3] pattern_rank0).2).
  - vm_compute. reflexivity.
  - vm_compute. reflexivity.
Defined.

(** ** The life of a pattern *)

Lemma fresh_inv comm maps :
  0 ≤ IndexMap.block_size maps.1 * IndexMap.size maps.1 IndexMap.OWNED →
  pattern_inv (SparsityPattern_new comm maps).
Proof.
  intros Hn. destruct (fresh_blocks comm maps) as (Hd & Ho & Hde & Hoe).
  split; try done.
  - split; unfold local_size0; simpl; unfold resize_by;
      rewrite app_nil_l; by apply vsize_replicate.
  - intros r c. split; intros Hent; [by apply Hde in Hent|].
    by apply Hoe in Hent.
  - exists []. split; [done|constructor].
Qed.

Lemma range0_consistent_maps s s' :
  _index_maps s' = _index_maps s → range0_consistent s → range0_consistent s'.
Proof.
  intros Hm [? ? ?]. split; unfold offset0, local_size0 in *; by rewrite Hm.
Qed.

Lemma op_fits_maps s s' o :
  _index_maps s' = _index_maps s → op_fits s o → op_fits s' o.
Proof.
  intros Hm [Hrows Hcols]. split; [done|].
  unfold cols_in_range, mapped_col in *. by rewrite Hm.
Qed.

Lemma run_op_inv (o : op) s :
  MPI.size (_mpi_comm s) ≠ 1 → range0_consistent s → 0 ≤ local_size0 s →
  op_fits s o → pattern_inv s → pattern_inv (run_op o s).2.
Proof.
  intros Hsz Hcons Hn [Hrows Hcols] [Hr Hd Ho Hs Hb].
  destruct (run_op_keeps o s) as [Hk _]. split.
  - by eapply rows_allocated_keeps.
  - by apply (keeps_diag_NoDup _ _ Hk).
  - by apply (keeps_off_NoDup _ _ Hk).
  - by apply run_op_split.
  - apply run_op_ghost_buffer; try done.
    eapply Forall_impl; [exact Hrows|]. unfold fits_int32, fits_index. lia.
Qed.

Lemma run_ops_inv os s0 s :
  MPI.size (_mpi_comm s0) ≠ 1 → range0_consistent s0 → 0 ≤ local_size0 s0 →
  Forall (op_fits s0) os →
  keeps s0 s → pattern_inv s →
  keeps s0 (run_ops os s).2 ∧ pattern_inv (run_ops os s).2.
Proof.
  intros Hsz Hcons Hn Hos. revert s.
  induction Hos as [|o os Ho _ IH]; intros s Hk Hinv; [done|].
  unfold run_ops in *. rewrite for_each_cons, run_bind.
  assert (keeps s0 (run_op o s).2 ∧ pattern_inv (run_op o s).2) as [Hk1 Hinv1].
  { destruct (run_op_keeps o s) as [Hks _]. split; [by etrans|].
    destruct Hk as [Hcomm Hmaps _ _ _ _ _]. apply run_op_inv; try done.
    - by rewrite Hcomm.
    - by apply (range0_consistent_maps s0).
    - unfold local_size0 in *. by rewrite Hmaps.
    - by apply (op_fits_maps s0). }
  destruct (run_op o s) as [[[]| |] s1]; simpl in *; [by apply IH|done..].
Qed.

Lemma apply_inv oracle s :
  hands_back_la_index oracle → pattern_inv s → pattern_inv (apply oracle s).2.
Proof.
  intros Horacle [Hr Hd Ho Hs Hb]. destruct (apply_keeps oracle s) as [Hk Hbuf].
  split.
  - by eapply rows_allocated_keeps.
  - by apply (keeps_diag_NoDup _ _ Hk).
  - by apply (keeps_off_NoDup _ _ Hk).
  - unfold blocks_split.
    destruct (apply_keeps_maps_split oracle s Horacle eq_refl) as [Hm Hks].
    intros r c. rewrite (owns_col_maps _ s c Hm). by apply Hks.
  - unfold buffer_on_ghost_rows, local_size0 in *.
    rewrite Hbuf, (keeps_maps _ _ Hk).
    destruct (apply oracle s).1; [|done..].
    exists []. split; [done|constructor].
Qed.

(** X25.  On more than one process, when the index maps have positive
    block sizes and the number of owned row elements, the bounds of the
    owned column range, the arguments of the insertions and the values
    the exchange hands back fit [la_index_t] (a 32-bit [int]), columns
    and received values not negative, a
    pattern keeps, from its construction through any sequence of
    insertions and a call of [apply], whatever the outcome of each: both
    blocks have one row for each owned row element, their row sets have
    no repetition, the diagonal block holds owned columns only and the
    off-diagonal block none, and the buffer holds whole pairs on rows
    that are not owned. *)
Theorem pattern_life_invariant comm maps os oracle :
  let s0 := SparsityPattern_new comm maps in
  MPI.size comm ≠ 1 → range0_consistent s0 →
  0 ≤ local_size0 s0 < 2 ^ 31 → maps_fit s0 →
  Forall (op_fits s0) os → hands_back_la_index oracle →
  pattern_inv (run_ops os s0).2
  ∧ pattern_inv ((run_ops os;; apply oracle) s0).2.
Proof.
  intros s0 Hsz Hcons [Hn _] _ Hos Horacle.
  destruct (run_ops_inv os s0 s0) as [_ Hinv]; try done.
  { by apply fresh_inv. }
  split; [done|]. rewrite run_bind.
  destruct (run_ops os s0) as [[[]| |] s1]; simpl in *; [|done..].
  by apply apply_inv.
Qed.

Lemma pattern_life_invariant_witness :
  pattern_inv (run_ops [Insert_local_global [0; 2] [1; 2];
                        Insert_global [1] [3]] pattern_rank0).2
  ∧ pattern_inv ((run_ops [Insert_local_global [0; 2] [1; 2];
                           Insert_global [1] [3]];;
                  apply (λ _, [1; 0])) pattern_rank0).2.
Proof.
  apply (pattern_life_invariant (MPI.mk 2 0) (map_rank0, map_rank0)
           [Insert_local_global [0; 2] [1; 2]; Insert_global [1] [3]]
           (λ _, [1; 0])).
  - simpl. lia.
  - split; [reflexivity|vm_compute; congruence|vm_compute; reflexivity].
  - vm_compute. split; [congruence|reflexivity].
  - split; vm_compute; intuition congruence.
  - repeat constructor; unfold fits_int32; try lia; vm_compute; congruence.
  - intros out. repeat constructor; lia.
Defined.

(** ** One process of a distributed run *)

Lemma run_procs_layout : row_layout 1 4 run_procs.
Proof.
  split.
  - vm_compute. split; congruence.
  - lia.
  - lia.
  - intros [|[|q]] s [= <-]; split; try reflexivity;
      vm_compute; intuition congruence.
  - intros [|[|q]] [|[|q']] s s' [= <-] [= <-] Hne; try done;
      simpl; lia.
  - intros [|[|q]] s [|j] g [= <-] [= <-].
    exists 1%nat, pattern_rank1. split_and!; try done; simpl; lia.
Qed.

(** X26.  A process of a distributed run, after its insertions through
    the three entry points with arguments in range, when its index maps
    have positive block sizes and the bounds of its owned column range
    and the global columns of the calls fit [la_index_t] (a 32-bit
    [int]): every call has returned normally; the
    diagonal block holds the pairs of the calls that fall on an owned
    row and an owned column, the off-diagonal block those on an owned
    row and a column that is not owned; the buffer holds the pairs on
    ghost rows in the order of the calls; and what [apply] will address
    to a process are those of them whose row that process owns, by their
    global rows. *)
Theorem process_holds_after_insertions bs0 N0 procs q p os :
  row_layout bs0 N0 procs → procs !! q = Some p →
  Forall (op_in_range p) os →
  maps_fit p → Forall (cols_in_range p) os →
  ∃ mid, run_ops os p = (Ok tt, mid)
    ∧ (∀ r c, entry (_diagonal mid) r c ↔ own_entries true p os r c)
    ∧ (∀ r c, entry (_off_diagonal mid) r c ↔ own_entries false p os r c)
    ∧ _non_local mid = flat (ghost_pairs p os)
    ∧ ∀ q' : nat, outgoing mid !!! q' = flat (sent_to p (ghost_pairs p os) q').
Proof.
  intros Hlay Hq Hos _ _.
  destruct (process_after_insertions bs0 N0 procs q p os)
    as (mid & Hrun & _ & Hext & Hbuf & Hout); [done..|].
  exists mid. split_and!; [done| | |done..].
  - intros r c. rewrite (ext_diag _ _ _ _ Hext).
    pose proof (lay_proc _ _ _ Hlay q p Hq) as [Hfresh _ _ _ _ _].
    destruct (fresh_blocks (MPI.mk (vsize procs) (Z.of_nat q)) (_index_maps p))
      as (_ & _ & Hd & _).
    rewrite <- Hfresh in Hd. specialize (Hd r c). tauto.
  - intros r c. rewrite (ext_off _ _ _ _ Hext).
    pose proof (lay_proc _ _ _ Hlay q p Hq) as [Hfresh _ _ _ _ _].
    destruct (fresh_blocks (MPI.mk (vsize procs) (Z.of_nat q)) (_index_maps p))
      as (_ & _ & _ & Ho).
    rewrite <- Hfresh in Ho. specialize (Ho r c). tauto.
Qed.

Lemma process_holds_after_insertions_witness :
  ∃ mid, run_ops [Insert_local_global [0; 2] [1; 2]] pattern_rank0
         = (Ok tt, mid)
    ∧ (∀ r c, entry (_diagonal mid) r c
              ↔ own_entries true pattern_rank0
                  [Insert_local_global [0; 2] [1; 2]] r c)
    ∧ (∀ r c, entry (_off_diagonal mid) r c
              ↔ own_entries false pattern_rank0
                  [Insert_local_global [0; 2] [1; 2]] r c)
    ∧ _non_local mid
      = flat (ghost_pairs pattern_rank0 [Insert_local_global [0; 2] [1; 2]])
    ∧ ∀ q' : nat,
        outgoing mid !!! q'
        = flat (sent_to pattern_rank0
                  (ghost_pairs pattern_rank0
                     [Insert_local_global [0; 2] [1; 2]]) q').
Proof.
  apply (process_holds_after_insertions 1 4 run_procs 0 pattern_rank0
           [Insert_local_global [0; 2] [1; 2]]).
  - apply run_procs_layout.
  - reflexivity.
  - repeat constructor; simpl; vm_compute; intuition congruence.
  - split; vm_compute; intuition congruence.
  - repeat constructor; vm_compute; congruence.
Defined.

(** X27.  A process of a distributed run that calls [apply] after its
    insertions, when its index maps have positive block sizes, the
    bounds of its owned column range and the global columns of the calls
    fit [la_index_t] (a 32-bit [int]) and the exchange hands back pairs
    whose rows it owns and whose columns are not negative and fit
    [la_index_t]: [apply] returns normally with an empty buffer, and has
    added each received pair at the local row of its global row, to the
    diagonal block when the column is owned and to the off-diagonal
    block when it is not; nothing else has changed in the blocks. *)
Theorem apply_stores_received bs0 N0 procs q p os mid recv oracle :
  row_layout bs0 N0 procs → procs !! q = Some p →
  Forall (op_in_range p) os →
  maps_fit p → Forall (cols_in_range p) os →
  run_ops os p = (Ok tt, mid) →
  (∀ out, oracle out = flat recv) →
  Forall (λ pr, offset0 p ≤ pr.1 < offset0 p + local_size0 p
                ∧ 0 ≤ pr.2 < 2 ^ 31) recv →
  ∃ f, apply oracle mid = (Ok tt, f)
    ∧ _non_local f = []
    ∧ (∀ r c, entry (_diagonal f) r c
              ↔ entry (_diagonal mid) r c
                ∨ ((r + offset0 p, c) ∈ recv ∧ owns_col p c))
    ∧ (∀ r c, entry (_off_diagonal f) r c
              ↔ entry (_off_diagonal mid) r c
                ∨ ((r + offset0 p, c) ∈ recv ∧ ¬ owns_col p c)).
Proof.
  intros Hlay Hq Hos _ _ Hrun Horacle Hrecv.
  destruct (process_after_insertions bs0 N0 procs q p os)
    as (mid' & Hrun' & Hev & _ & Hbuf & _); [done..|].
  assert (mid' = mid) as -> by congruence.
  destruct (run_apply bs0 N0 procs q p os mid recv oracle)
    as (f & Hf & _ & Hnl & Hext); [done..| |].
  { eapply Forall_impl; [exact Hrecv|]. cbv beta. lia. }
  exists f. split_and!; [done..| |].
  - intros r c. apply (ext_diag _ _ _ _ Hext).
  - intros r c. apply (ext_off _ _ _ _ Hext).
Qed.

Lemma apply_stores_received_witness :
  ∃ f, apply (λ _, [3; 2; 2; 0])
         (run_ops [Insert_global [3] [0]] pattern_rank1).2 = (Ok tt, f)
    ∧ _non_local f = []
    ∧ (∀ r c, entry (_diagonal f) r c
              ↔ entry (_diagonal
                         (run_ops [Insert_global [3] [0]] pattern_rank1).2)
                  r c
                ∨ ((r + offset0 pattern_rank1, c) ∈ [(3, 2); (2, 0)]
                   ∧ owns_col pattern_rank1 c))
    ∧ (∀ r c, entry (_off_diagonal f) r c
              ↔ entry (_off_diagonal
                         (run_ops [Insert_global [3] [0]] pattern_rank1).2)
                  r c
                ∨ ((r + offset0 pattern_rank1, c) ∈ [(3, 2); (2, 0)]
                   ∧ ¬ owns_col pattern_rank1 c)).
Proof.
  apply (apply_stores_received 1 4 run_procs 1 pattern_rank1
           [Insert_global [3] [0]] _ [(3, 2); (2, 0)]).
  - apply run_procs_layout.
  - reflexivity.
  - repeat constructor; simpl; vm_compute; intuition congruence.
  - split; vm_compute; intuition congruence.
  - repeat constructor; vm_compute; congruence.
  - reflexivity.
  - reflexivity.
  - repeat constructor; vm_compute; congruence.
Defined.

(** ** The local rows several processes accept *)




